(** * WebSocketService: a shallow embedding of the chat bridge server

    The development follows [websocketService.ts]: the class
    [WebSocketService] (fields [server], [wss], [port], [isActive],
    [connectedClients]) with its methods [start], [stop], [isRunning],
    [getPort] and [broadcast], and the callbacks it registers on the
    HTTP server, on the WebSocket server and on every accepted socket.

    JavaScript is single-threaded and event-driven: a method or a
    callback runs to completion (or to its next [await]) before another
    one starts.  The embedding therefore has
    - a state-and-exception monad [M] for one synchronous run,
    - the callbacks as data ([Closure]), kept in a listener table and
      run when the environment emits the event they wait for,
    - an [effects] log of everything the service does to the outside
      world ([ws.send], [console.error], [executeCommand],
      [server.listen], ...), in program order.

    The promises of [start] and [stop] are settled by callbacks, so
    these two methods are split where the source splits them: the call
    itself, and each callback as its own run.  The two [await]s of the
    message handler are run in place, with the outcome the host gives
    for them ([Host]); the effects of one message are thus contiguous
    in the log, and what is said about a handler is said about the
    effects of that handler. *)

From Stdlib Require Import ZArith Ascii String List Bool Lia.
From Stdlib Require Import Floats.SpecFloat.
From stdpp Require Import base option list gmap strings pretty.

Import ListNotations.
Open Scope string_scope.

(** ** JavaScript values *)

(** A thrown JavaScript value.  Only its kind and message matter here. *)
Inductive Error : Type :=
| SyntaxError (msg : string)
| TypeError (msg : string)
| OtherError (msg : string).

(** The value produced by [JSON.parse].  Numbers are IEEE-754 doubles;
    an object is the list of its own properties, in insertion order
    ([JSON.parse] has already merged repeated keys). *)
#[warnings="-register-all"]
Inductive JSON : Type :=
| JNull
| JBool (b : bool)
| JNumber (n : spec_float)
| JString (s : string)
| JArray (items : list JSON)
| JObject (props : list (string * JSON)).

(** A property read yields a JSON value or [undefined] ([None]). *)
Definition JSValue : Type := option JSON.
Definition undefined : JSValue := None.

(** How an evaluation ends: with a value, or by throwing. *)
Inductive completion (A : Type) : Type :=
| Normal (a : A)
| Throw (e : Error).
Arguments Normal {A} a.
Arguments Throw {A} e.

Fixpoint assoc (key : string) (props : list (string * JSON)) : JSValue :=
  match props with
  | [] => undefined
  | (k, v) :: rest => if String.eqb k key then Some v else assoc key rest
  end.

(** [data.key], for the two keys the handler reads, [type] and [message].
    Neither is defined on [Object.prototype], [Array.prototype] or on the
    wrappers of numbers, booleans and strings, so only an object's own
    property can answer; reading a property of [null] throws. *)
Definition get_property (data : JSON) (key : string) : completion JSValue :=
  match data with
  | JNull => Throw (TypeError "Cannot read properties of null")
  | JObject props => Normal (assoc key props)
  | JBool _ | JNumber _ | JString _ | JArray _ => Normal undefined
  end.

(** [v === 'literal'] *)
Definition strict_equals_string (v : JSValue) (literal : string) : bool :=
  match v with
  | Some (JString s) => String.eqb s literal
  | _ => false
  end.

(** ToBoolean: [undefined], [null], [false], [+0], [-0], [NaN] and the
    empty string are falsy, everything else is truthy. *)
Definition truthy (v : JSValue) : bool :=
  match v with
  | None => false
  | Some JNull => false
  | Some (JBool b) => b
  | Some (JNumber (S754_zero _)) => false
  | Some (JNumber S754_nan) => false
  | Some (JNumber _) => true
  | Some (JString s) => negb (String.eqb s EmptyString)
  | Some (JArray _) => true
  | Some (JObject _) => true
  end.

(** ** Outgoing frames and their serialization *)

(** The object literals [{type, status, message}] the handler sends. *)
Record Frame : Type := mkFrame {
  frame_type : string;
  frame_status : string;
  frame_message : string
}.

Definition dquote : string := String "034"%char EmptyString.
Definition backslash : string := String "092"%char EmptyString.

Definition hex_digit (n : nat) : string :=
  String (nth n (list_ascii_of_string "0123456789abcdef") "0"%char) EmptyString.

(** QuoteJSONString on one character: the quote, the backslash and the
    control characters are escaped. *)
Definition escape_char (c : ascii) : string :=
  let n := nat_of_ascii c in
  if Nat.eqb n 8 then backslash ++ "b"
  else if Nat.eqb n 9 then backslash ++ "t"
  else if Nat.eqb n 10 then backslash ++ "n"
  else if Nat.eqb n 12 then backslash ++ "f"
  else if Nat.eqb n 13 then backslash ++ "r"
  else if Nat.eqb n 34 then backslash ++ dquote
  else if Nat.eqb n 92 then backslash ++ backslash
  else if Nat.ltb n 32 then backslash ++ "u00" ++ hex_digit (n / 16) ++ hex_digit (n mod 16)
  else String c EmptyString.

Fixpoint escape (s : string) : string :=
  match s with
  | EmptyString => EmptyString
  | String c rest => escape_char c ++ escape rest
  end.

Definition quote (s : string) : string := dquote ++ escape s ++ dquote.

(** [JSON.stringify({type: t, status: s, message: m})] *)
Definition JSON_stringify_frame (f : Frame) : string :=
  "{" ++ quote "type" ++ ":" ++ quote (frame_type f) ++
  "," ++ quote "status" ++ ":" ++ quote (frame_status f) ++
  "," ++ quote "message" ++ ":" ++ quote (frame_message f) ++ "}".

Definition chat_started : Frame :=
  mkFrame "chat_started" "success" "Chat session initiated".
Definition chat_opened : Frame :=
  mkFrame "chat_opened" "success" "Chat opened successfully".
Definition clear_started : Frame :=
  mkFrame "clear_started" "success" "Clearing chat history...".
Definition clear_completed : Frame :=
  mkFrame "clear_completed" "success" "Chat history cleared successfully".
Definition invalid_format : Frame :=
  mkFrame "error" "error"
    ("Invalid message format. Expected: {type: " ++ dquote ++ "chat" ++ dquote ++
     ", message: " ++ dquote ++ "your message" ++ dquote ++ "} or {type: " ++
     dquote ++ "clear_history" ++ dquote ++ "}").
Definition failed_to_process : Frame :=
  mkFrame "error" "error" "Failed to process message".

(** ** The runtime: sockets, promises, listeners, effects *)

(** Objects ([http.Server], [WebSocketServer], [WebSocket], [Promise])
    are known by identity. *)
Definition Id : Type := nat.

Inductive ReadyState : Type := CONNECTING | OPEN | CLOSING | CLOSED.

Definition ReadyState_eqb (a b : ReadyState) : bool :=
  match a, b with
  | CONNECTING, CONNECTING | OPEN, OPEN | CLOSING, CLOSING | CLOSED, CLOSED => true
  | _, _ => false
  end.

(** The transport end of a client socket, as the [ws] library shows it:
    its [readyState], and whether a call of [send] throws. *)
Record WebSocket : Type := mkWebSocket {
  readyState : ReadyState;
  send_throws : option Error
}.

(** What is handed to [ws.send]: a string, or [undefined] ([None]) when
    [JSON.stringify] has nothing to serialize. *)
Definition Data : Type := option string.

(** The argument objects of [executeCommand]. *)
Definition JSObject : Type := list (string * JSValue).

(** Everything the service does to the outside world. *)
Inductive Effect : Type :=
| Sent (ws : Id) (data : Data)
| ConsoleLog (text : string)
| ConsoleError (text : string) (error : Error)
| ImportVscode
| ExecuteCommand (command : string) (args : list JSObject)
| Listen (server : Id) (port : Z)
| WssClose (wss : Id)
| ServerClose (server : Id)
| UnhandledRejection (error : Error).

Inductive PromiseState : Type :=
| Pending
| Fulfilled
| Rejected (reason : Error).

(** The outcome of the host application for the two awaited calls of one
    message: [import('vscode')] and [commands.executeCommand]. *)
Record Host : Type := mkHost {
  import_vscode : completion unit;
  executeCommand : string -> list JSObject -> completion unit
}.

Inductive EventName : Type :=
| Ev_connection | Ev_message | Ev_close | Ev_error | Ev_listening.

(** The callbacks of the class, as data.  Each closes over [this]; the
    socket callbacks also over their [ws], the promise callbacks over
    the [resolve]/[reject] pair of their promise.  [ReEmit wss name] is
    not of the class: it is [wss.emit.bind(wss, name)], the listener a
    [WebSocketServer] of the [ws] library puts on the http server it is
    given, to pass the server's events on as its own. *)
Inductive Closure : Type :=
| OnConnection
| OnMessage (ws : Id)
| OnClose (ws : Id)
| OnError (ws : Id)
| ListenCallback (promise : Id)
| ServerErrorHandler (promise : Id)
| WssCloseCallback (promise : Id)
| ServerCloseCallback (promise : Id)
| ReEmit (wss : Id) (name : EventName).

Definition EventName_eqb (a b : EventName) : bool :=
  match a, b with
  | Ev_connection, Ev_connection | Ev_message, Ev_message | Ev_close, Ev_close
  | Ev_error, Ev_error | Ev_listening, Ev_listening => true
  | _, _ => false
  end.

Record Listener : Type := mkListener {
  emitter : Id;
  event : EventName;
  once : bool;
  closure : Closure
}.

(** The fields of [WebSocketService]. *)
Record WebSocketService : Type := mkService {
  server : option Id;
  wss : option Id;
  port : Z;
  isActive : bool;
  connectedClients : list Id
}.

Record Runtime : Type := mkRuntime {
  this : WebSocketService;
  next_id : Id;
  listeners : list Listener;
  promises : gmap Id PromiseState;
  sockets : Id -> WebSocket;
  effects : list Effect
}.

Definition with_this (f : WebSocketService -> WebSocketService) (rt : Runtime) : Runtime :=
  mkRuntime (f (this rt)) (next_id rt) (listeners rt) (promises rt) (sockets rt) (effects rt).
Definition with_listeners (f : list Listener -> list Listener) (rt : Runtime) : Runtime :=
  mkRuntime (this rt) (next_id rt) (f (listeners rt)) (promises rt) (sockets rt) (effects rt).
Definition with_promises (f : gmap Id PromiseState -> gmap Id PromiseState) (rt : Runtime) : Runtime :=
  mkRuntime (this rt) (next_id rt) (listeners rt) (f (promises rt)) (sockets rt) (effects rt).
Definition with_sockets (f : (Id -> WebSocket) -> (Id -> WebSocket)) (rt : Runtime) : Runtime :=
  mkRuntime (this rt) (next_id rt) (listeners rt) (promises rt) (f (sockets rt)) (effects rt).
Definition with_effects (f : list Effect -> list Effect) (rt : Runtime) : Runtime :=
  mkRuntime (this rt) (next_id rt) (listeners rt) (promises rt) (sockets rt) (f (effects rt)).

Definition set_socket (ws : Id) (sock : WebSocket) (f : Id -> WebSocket) : Id -> WebSocket :=
  fun i => if Nat.eqb i ws then sock else f i.

(** ** The monad of one synchronous run *)

Definition M (A : Type) : Type := Runtime -> completion A * Runtime.

Definition ret {A} (a : A) : M A := fun rt => (Normal a, rt).

Definition bind {A B} (m : M A) (k : A -> M B) : M B :=
  fun rt =>
    match m rt with
    | (Normal a, rt') => k a rt'
    | (Throw e, rt') => (Throw e, rt')
    end.

Definition throw {A} (e : Error) : M A := fun rt => (Throw e, rt).

(** [try { body } catch (error) { handler }] *)
Definition try_catch {A} (body : M A) (handler : Error -> M A) : M A :=
  fun rt =>
    match body rt with
    | (Normal a, rt') => (Normal a, rt')
    | (Throw e, rt') => handler e rt'
    end.

Definition lift {A} (c : completion A) : M A := fun rt => (c, rt).
Definition gets {A} (f : Runtime -> A) : M A := fun rt => (Normal (f rt), rt).
Definition modify (f : Runtime -> Runtime) : M unit := fun rt => (Normal tt, f rt).

Declare Scope js_scope.
Delimit Scope js_scope with js.
Notation "'let*' x ':=' m 'in' k" := (bind m (fun x => k))
  (at level 10, x name, m at level 100, k at level 200) : js_scope.
Notation "m ;; k" := (bind m (fun _ => k))
  (at level 100, k at level 200, right associativity) : js_scope.
Open Scope js_scope.

(** The runtime after some more effects, everything else as before. *)
Definition after (rt : Runtime) (more : list Effect) : Runtime :=
  with_effects (fun es => (es ++ more)%list) rt.

Definition perform (e : Effect) : M unit :=
  fun rt => (Normal tt, after rt [e]).

Definition console_log (text : string) : M unit := perform (ConsoleLog text).
Definition console_error (text : string) (error : Error) : M unit :=
  perform (ConsoleError text error).

(** A fresh object identity. *)
Definition fresh : M Id :=
  fun rt => (Normal (next_id rt),
             mkRuntime (this rt) (S (next_id rt)) (listeners rt) (promises rt)
                       (sockets rt) (effects rt)).

Definition add_listener (target : Id) (name : EventName) (one_shot : bool) (c : Closure) : M unit :=
  modify (with_listeners (fun ls => (ls ++ [mkListener target name one_shot c])%list)).

(** ** The [WebSocketServer] of the [ws] library, on an http server *)

(** Is [l] one of the listeners [w] has put on its http server? *)
Definition reemits_for (w : Id) (l : Listener) : bool :=
  match closure l with
  | ReEmit w' _ => Nat.eqb w' w
  | _ => false
  end.

(** [new WebSocketServer({ server })]: the new object subscribes to
    ['listening'] and ['error'] of [server], in this order, and passes
    both on as events of its own.  (Its third listener, for ['upgrade'],
    is what the [Accept] input below stands for.)  Without a server the
    constructor throws. *)
Definition new_WebSocketServer (server : option Id) : M Id :=
  match server with
  | Some s =>
      let* w := fresh in
      add_listener s Ev_listening false (ReEmit w Ev_listening) ;;
      add_listener s Ev_error false (ReEmit w Ev_error) ;;
      ret w
  | None =>
      throw (TypeError ("One and only one of the " ++ dquote ++ "port" ++ dquote ++ ", " ++
                        dquote ++ "server" ++ dquote ++ ", or " ++
                        dquote ++ "noServer" ++ dquote ++ " options must be specified"))
  end.

(** [wss.close(cb)]: [cb] waits for the server's ['close'], once, and
    the server takes its listeners off the http server.  When ['close']
    is emitted is the library's decision (the [Emit_close] input). *)
Definition WebSocketServer_close (w : Id) (cb : Closure) : M unit :=
  perform (WssClose w) ;;
  add_listener w Ev_close true cb ;;
  modify (with_listeners (List.filter (fun l => negb (reemits_for w l)))).

(** [new Promise(...)], [resolve()] and [reject(error)]: only a pending
    promise can be settled. *)
Definition new_Promise : M Id :=
  let* p := fresh in
  modify (with_promises (fun ps => <[p := Pending]> ps)) ;;
  ret p.

Definition settle (p : Id) (s : PromiseState) : M unit :=
  modify (with_promises (fun ps =>
    match ps !! p with
    | Some Pending => <[p := s]> ps
    | _ => ps
    end)).

Definition resolve (p : Id) : M unit := settle p Fulfilled.
Definition reject (p : Id) (error : Error) : M unit := settle p (Rejected error).

(** [ws.send(data)]: throws when the transport refuses, otherwise the
    frame goes out. *)
Definition ws_send (ws : Id) (data : Data) : M unit :=
  let* sock := gets (fun rt => sockets rt ws) in
  match send_throws sock with
  | Some e => throw e
  | None => perform (Sent ws data)
  end.

(** [await import('vscode')] and [await commands.executeCommand(...)] *)
Definition await_import (host : Host) : M unit :=
  perform ImportVscode ;; lift (import_vscode host).

Definition await_executeCommand (host : Host) (command : string) (args : list JSObject) : M unit :=
  perform (ExecuteCommand command args) ;; lift (executeCommand host command args).

(** ** Field updates of [this] *)

Definition set_server (v : option Id) : M unit :=
  modify (with_this (fun t => mkService v (wss t) (port t) (isActive t) (connectedClients t))).
Definition set_wss (v : option Id) : M unit :=
  modify (with_this (fun t => mkService (server t) v (port t) (isActive t) (connectedClients t))).
Definition set_isActive (v : bool) : M unit :=
  modify (with_this (fun t => mkService (server t) (wss t) (port t) v (connectedClients t))).
Definition update_connectedClients (f : list Id -> list Id) : M unit :=
  modify (with_this (fun t => mkService (server t) (wss t) (port t) (isActive t) (f (connectedClients t)))).

(** ** [Set<WebSocket>]: members by identity, kept in insertion order *)

Definition Set_has (x : Id) (s : list Id) : bool := bool_decide (x ∈ s).
Definition Set_add (x : Id) (s : list Id) : list Id :=
  if Set_has x s then s else (s ++ [x])%list.
Definition Set_delete (x : Id) (s : list Id) : list Id := filter (λ y, y ≠ x) s.
Definition Set_clear (s : list Id) : list Id := [].

(** [connectedClients.forEach(callback)]: the members are visited in
    insertion order; one that has been deleted before its turn is
    skipped.  (No callback of this class adds a member while iterating.) *)
Fixpoint Set_forEach (snapshot : list Id) (callback : Id -> M unit) : M unit :=
  match snapshot with
  | [] => ret tt
  | x :: rest =>
      (let* present := gets (fun rt => Set_has x (connectedClients (this rt))) in
       if present then callback x else ret tt) ;;
      Set_forEach rest callback
  end.

(** What an [async] method hands back: it has returned ([return;]), or
    it returned a promise that the caller's promise now follows. *)
Inductive Returned : Type :=
| ReturnedUndefined
| ReturnedPromise (p : Id).

(** The argument an event carries to its listeners. *)
Inductive Arg : Type :=
| NoArg
| SocketArg (ws : Id)
| MessageArg (message : string) (host : Host)
| ErrorArg (error : Error).

(** What the callers of the service and its environment can do: call a
    method, connect a client, change a socket's transport state, or
    deliver an event (a ['message'], a ['close'] or an ['error'] on the
    object [target], ['listening'] on a server). *)
Inductive Input (Any : Type) : Type :=
| Call_start
| Call_stop
| Call_broadcast (message : Any)
| Accept (wss : Id) (sock : WebSocket)
| Transport (ws : Id) (sock : WebSocket)
| Emit_message (ws : Id) (message : string) (host : Host)
| Emit_close (target : Id)
| Emit_error (target : Id) (error : Error)
| Emit_listening (server : Id).
Arguments Call_start {Any}.
Arguments Call_stop {Any}.
Arguments Call_broadcast {Any} message.
Arguments Accept {Any} wss sock.
Arguments Transport {Any} ws sock.
Arguments Emit_message {Any} ws message host.
Arguments Emit_close {Any} target.
Arguments Emit_error {Any} target error.
Arguments Emit_listening {Any} server.

(** ** The class *)

Section WebSocketService.

(** [JSON.parse] and [JSON.stringify] belong to the JavaScript engine.
    [Any] is the type of what a caller may hand to [broadcast]
    ([message: any]); serializing it can throw (a cyclic object, a
    BigInt) and can yield [undefined]. *)
Variable JSON_parse : string -> completion JSON.
Variable Any : Type.
Variable JSON_stringify : Any -> completion Data.

(** [new WebSocketService()] *)
Definition new_WebSocketService : WebSocketService :=
  mkService None None 3001 false [].

Definition send_frame (ws : Id) (f : Frame) : M unit :=
  ws_send ws (Some (JSON_stringify_frame f)).

(** The [ws.on('message', async (message) => { ... })] callback. *)
Definition on_message (ws : Id) (message : string) (host : Host) : M unit :=
  try_catch
    (let* data := lift (JSON_parse message) in
     let* type := lift (get_property data "type") in
     let* is_chat :=
       (if strict_equals_string type "chat"
        then (let* text := lift (get_property data "message") in ret (truthy text))
        else ret false) in
     if is_chat then
       send_frame ws chat_started ;;
       await_import host ;;
       (let* query := lift (get_property data "message") in
        await_executeCommand host "workbench.action.chat.open" [[("query", query)]]) ;;
       send_frame ws chat_opened
     else
       let* type' := lift (get_property data "type") in
       if strict_equals_string type' "clear_history" then
         send_frame ws clear_started ;;
         await_import host ;;
         await_executeCommand host "workbench.action.chat.clearHistory" [] ;;
         send_frame ws clear_completed
       else
         send_frame ws invalid_format)
    (fun error =>
       console_error "Error processing WebSocket message:" error ;;
       send_frame ws failed_to_process).

(** [ws.on('close', ...)] and [ws.on('error', ...)] *)
Definition on_close (ws : Id) : M unit :=
  console_log "WebSocket client disconnected" ;;
  update_connectedClients (Set_delete ws).

Definition on_error (ws : Id) (error : Error) : M unit :=
  console_error "WebSocket error:" error ;;
  update_connectedClients (Set_delete ws).

(** The [wss.on('connection', (ws) => { ... })] callback. *)
Definition on_connection (ws : Id) : M unit :=
  console_log "WebSocket client connected" ;;
  update_connectedClients (Set_add ws) ;;
  add_listener ws Ev_message false (OnMessage ws) ;;
  add_listener ws Ev_close false (OnClose ws) ;;
  add_listener ws Ev_error false (OnError ws).

(** [async start()] *)
Definition start : M Returned :=
  let* active := gets (fun rt => isActive (this rt)) in
  if active then ret ReturnedUndefined
  else
    try_catch
      (let* s := fresh in
       set_server (Some s) ;;
       let* srv := gets (fun rt => server (this rt)) in
       let* w := new_WebSocketServer srv in
       set_wss (Some w) ;;
       add_listener w Ev_connection false OnConnection ;;
       let* p := new_Promise in
       let* srv := gets (fun rt => server (this rt)) in
       match srv with
       | Some s' =>
           let* prt := gets (fun rt => port (this rt)) in
           perform (Listen s' prt) ;;
           add_listener s' Ev_listening true (ListenCallback p) ;;
           add_listener s' Ev_error false (ServerErrorHandler p)
       | None => reject p (TypeError "Cannot read properties of undefined")
       end ;;
       ret (ReturnedPromise p))
      (fun error =>
         console_error "Failed to start WebSocket server:" error ;;
         throw error).

(** The callback of [server.listen] and the server's ['error'] handler. *)
Definition listen_callback (p : Id) : M unit :=
  set_isActive true ;;
  let* prt := gets (fun rt => port (this rt)) in
  console_log ("WebSocket server started on port " ++ pretty prt) ;;
  resolve p.

Definition server_error_handler (p : Id) (error : Error) : M unit :=
  reject p error.

(** The callback of [server.close] inside [stop]. *)
Definition server_close_callback (p : Id) : M unit :=
  set_isActive false ;;
  update_connectedClients Set_clear ;;
  console_log "WebSocket server stopped" ;;
  resolve p.

(** The callback of [wss.close] inside [stop]. *)
Definition wss_close_callback (p : Id) : M unit :=
  let* srv := gets (fun rt => server (this rt)) in
  match srv with
  | Some s =>
      perform (ServerClose s) ;;
      add_listener s Ev_close true (ServerCloseCallback p)
  | None =>
      set_isActive false ;;
      update_connectedClients Set_clear ;;
      resolve p
  end.

(** [async stop()] *)
Definition stop : M Returned :=
  let* active := gets (fun rt => isActive (this rt)) in
  if negb active then ret ReturnedUndefined
  else
    let* p := new_Promise in
    let* w := gets (fun rt => wss (this rt)) in
    match w with
    | Some w' => WebSocketServer_close w' (WssCloseCallback p)
    | None =>
        set_isActive false ;;
        update_connectedClients Set_clear ;;
        resolve p
    end ;;
    ret (ReturnedPromise p).

Definition isRunning (t : WebSocketService) : bool := isActive t.

Definition getPort (t : WebSocketService) : Z := port t.

(** [broadcast(message)] *)
Definition broadcast (message : Any) : M unit :=
  let* messageString := lift (JSON_stringify message) in
  let* clients := gets (fun rt => connectedClients (this rt)) in
  Set_forEach clients (fun client =>
    let* sock := gets (fun rt => sockets rt client) in
    if ReadyState_eqb (readyState sock) OPEN then
      try_catch
        (ws_send client messageString)
        (fun error =>
           console_error "Error sending message to client:" error ;;
           update_connectedClients (Set_delete client))
    else ret tt).

(** ** Events *)

Definition listens (target : Id) (name : EventName) (l : Listener) : bool :=
  Nat.eqb (emitter l) target && EventName_eqb (event l) name.

(** Node's [EventEmitter]: an ['error'] event that nobody listens to is
    thrown by [emit]. *)
Definition unhandled (name : EventName) (arg : Arg) (hit : list Listener) : option Error :=
  match name, hit with
  | Ev_error, [] =>
      Some (match arg with
            | ErrorArg error => error
            | _ => OtherError "Unhandled error."
            end)
  | _, _ => None
  end.

Section EventEmitter.

(** What [wss.emit(name, arg)] does, for the listeners that pass an
    event on. *)
Variable reemit : Id -> EventName -> Arg -> M unit.

(** Running one registered callback.  The message callback is [async]:
    what it throws after its own [catch] rejects a promise nobody
    holds. *)
Definition call_with (c : Closure) (arg : Arg) : M unit :=
  match c, arg with
  | OnConnection, SocketArg ws => on_connection ws
  | OnMessage ws, MessageArg message host =>
      try_catch (on_message ws message host)
                (fun error => perform (UnhandledRejection error))
  | OnClose ws, _ => on_close ws
  | OnError ws, ErrorArg error => on_error ws error
  | ListenCallback p, _ => listen_callback p
  | ServerErrorHandler p, ErrorArg error => server_error_handler p error
  | WssCloseCallback p, _ => wss_close_callback p
  | ServerCloseCallback p, _ => server_close_callback p
  | ReEmit w name, _ => reemit w name arg
  | _, _ => ret tt
  end.

(** The listeners run in order; what one throws ends the run. *)
Fixpoint call_all_with (ls : list Listener) (arg : Arg) : M unit :=
  match ls with
  | [] => ret tt
  | l :: rest => call_with (closure l) arg ;; call_all_with rest arg
  end.

(** [target.emit(name, arg)]: the listeners registered at this moment
    run in registration order; the one-shot ones are removed.  (Node
    takes a one-shot listener off when its turn comes.  The class has
    its one-shot listeners under ['listening'] and ['close'], where no
    listener ahead of them throws, so that taking them off at once is
    the same.) *)
Definition run_listeners_with (target : Id) (name : EventName) (arg : Arg) : M unit :=
  let* ls := gets listeners in
  modify (with_listeners
            (List.filter (fun l => negb (listens target name l && once l)))) ;;
  call_all_with (List.filter (listens target name) ls) arg.

Definition emit_with (target : Id) (name : EventName) (arg : Arg) : M unit :=
  let* ls := gets listeners in
  match unhandled name arg (List.filter (listens target name) ls) with
  | Some error => throw error
  | None => run_listeners_with target name arg
  end.

End EventEmitter.

(** An event passed on to a [WebSocketServer] runs the listeners of that
    server.  ([ws] puts its passing-on listeners on http servers only:
    a listener of a [WebSocketServer] does not pass the event on once
    more.) *)
Definition emit_on_wss : Id -> EventName -> Arg -> M unit :=
  emit_with (fun _ _ _ => ret tt).

Definition call : Closure -> Arg -> M unit := call_with emit_on_wss.
Definition call_all : list Listener -> Arg -> M unit := call_all_with emit_on_wss.
Definition run_listeners : Id -> EventName -> Arg -> M unit :=
  run_listeners_with emit_on_wss.
Definition emit : Id -> EventName -> Arg -> M unit := emit_with emit_on_wss.

(** One input, run to completion.  [Accept] is a client connecting:
    the [ws] library creates the socket object and emits ['connection'].
    What a call returns or throws goes to its caller and is not kept;
    what the [emit] of an event throws is an uncaught exception of the
    process. *)
Definition step (i : Input Any) (rt : Runtime) : Runtime :=
  match i with
  | Call_start => snd (start rt)
  | Call_stop => snd (stop rt)
  | Call_broadcast message => snd (broadcast message rt)
  | Accept w sock =>
      snd ((let* ws := fresh in
            modify (with_sockets (set_socket ws sock)) ;;
            emit w Ev_connection (SocketArg ws)) rt)
  | Transport ws sock => with_sockets (set_socket ws sock) rt
  | Emit_message ws message host => snd (emit ws Ev_message (MessageArg message host) rt)
  | Emit_close target => snd (emit target Ev_close NoArg rt)
  | Emit_error target error => snd (emit target Ev_error (ErrorArg error) rt)
  | Emit_listening s => snd (emit s Ev_listening NoArg rt)
  end.

Definition run (inputs : list (Input Any)) (rt : Runtime) : Runtime :=
  fold_left (fun rt i => step i rt) inputs rt.

(** The runtime right after [new WebSocketService()]. *)
Definition initial (socks : Id -> WebSocket) : Runtime :=
  mkRuntime new_WebSocketService 0 [] ∅ socks [].

End WebSocketService.

Arguments on_message JSON_parse ws message host rt : simpl never.
Arguments after rt more : simpl never.
Arguments send_frame ws f rt : simpl never.

(** ** A concrete platform, for running the model *)

Module Demo.

Definition hello_frame : string :=
  "{" ++ quote "type" ++ ":" ++ quote "chat" ++ "," ++
  quote "message" ++ ":" ++ quote "hello" ++ "}".
Definition empty_chat_frame : string :=
  "{" ++ quote "type" ++ ":" ++ quote "chat" ++ "," ++
  quote "message" ++ ":" ++ quote EmptyString ++ "}".
Definition clear_frame : string :=
  "{" ++ quote "type" ++ ":" ++ quote "clear_history" ++ "}".
Definition not_valid_frame : string :=
  "{" ++ quote "not" ++ ":" ++ quote "valid" ++ "}".

(** [JSON.parse] on the frames used below; any other text is taken as
    not parseable. *)
Definition parse (text : string) : completion JSON :=
  if String.eqb text hello_frame then
    Normal (JObject [("type", JString "chat"); ("message", JString "hello")])
  else if String.eqb text empty_chat_frame then
    Normal (JObject [("type", JString "chat"); ("message", JString EmptyString)])
  else if String.eqb text clear_frame then
    Normal (JObject [("type", JString "clear_history")])
  else if String.eqb text not_valid_frame then
    Normal (JObject [("not", JString "valid")])
  else if String.eqb text "null" then Normal JNull
  else Throw (SyntaxError "Unexpected token").

(** [broadcast] payloads: strings, serialized with their quotes. *)
Definition stringify (message : string) : completion Data :=
  Normal (Some (quote message)).

Definition host_ok : Host := mkHost (Normal tt) (fun _ _ => Normal tt).
Definition host_failing : Host :=
  mkHost (Normal tt) (fun _ _ => Throw (OtherError "command failed")).

Definition open_socket : WebSocket := mkWebSocket OPEN None.
Definition closing_socket : WebSocket := mkWebSocket CLOSING None.
Definition broken_socket : WebSocket :=
  mkWebSocket OPEN (Some (OtherError "write after end")).

Definition boot : Runtime := initial (fun _ => open_socket).

Definition go (inputs : list (Input string)) : Runtime :=
  run parse string stringify inputs boot.

(** A running server with one client, 3. *)
Definition running_with_client : Runtime :=
  go [Call_start; Emit_listening 0; Accept 1 open_socket].

(** A running server with two clients, 3 and 4; the second one has
    begun to close and its ['close'] event is still to come. *)
Definition one_open_one_closing : Runtime :=
  go [Call_start; Emit_listening 0; Accept 1 open_socket; Accept 1 open_socket;
      Transport 4 closing_socket].

End Demo.

(** More frames, for the edges of the tag dispatch. *)
Module Edge.

Definition number_chat_frame : string :=
  "{" ++ quote "type" ++ ":" ++ quote "chat" ++ "," ++
  quote "message" ++ ":42}".
Definition clear_with_message_frame : string :=
  "{" ++ quote "type" ++ ":" ++ quote "clear_history" ++ "," ++
  quote "message" ++ ":" ++ quote "hello" ++ "}".
Definition upper_case_frame : string :=
  "{" ++ quote "type" ++ ":" ++ quote "Chat" ++ "," ++
  quote "message" ++ ":" ++ quote "hello" ++ "}".

(** The double 42: mantissa 21, exponent 1. *)
Definition forty_two : spec_float := S754_finite false 21 1.

Definition parse (text : string) : completion JSON :=
  if String.eqb text number_chat_frame then
    Normal (JObject [("type", JString "chat"); ("message", JNumber forty_two)])
  else if String.eqb text clear_with_message_frame then
    Normal (JObject [("type", JString "clear_history"); ("message", JString "hello")])
  else if String.eqb text upper_case_frame then
    Normal (JObject [("type", JString "Chat"); ("message", JString "hello")])
  else if String.eqb text "[1]" then
    Normal (JArray [JNumber (S754_finite false 1 0)])
  else Demo.parse text.

(** A host whose module cannot be loaded. *)
Definition host_without_module : Host :=
  mkHost (Throw (OtherError "Cannot find module")) (fun _ _ => Normal tt).

(** A runtime whose sockets all refuse to send. *)
Definition broken : Runtime := initial (fun _ => Demo.broken_socket).

(** A [JSON.stringify] that rejects one payload, as it does for an
    object that contains itself. *)
Definition stringify_short (message : string) : completion Data :=
  if String.eqb message "a cyclic object"
  then Throw (TypeError "Converting circular structure to JSON")
  else Normal (Some (quote message)).

End Edge.

(** ** Observations on the effect log *)

(** The frames a socket has been sent, in order. *)
Fixpoint received (ws : Id) (es : list Effect) : list Data :=
  match es with
  | [] => []
  | Sent w d :: rest =>
      if Nat.eqb w ws then d :: received ws rest else received ws rest
  | _ :: rest => received ws rest
  end.

(** The commands handed to the Command Dispatcher, in order. *)
Fixpoint dispatched (es : list Effect) : list string :=
  match es with
  | [] => []
  | ExecuteCommand command _ :: rest => command :: dispatched rest
  | _ :: rest => dispatched rest
  end.

Definition wire (f : Frame) : Data := Some (JSON_stringify_frame f).

(** Does [needle] occur in [hay]? *)
Definition occurs (needle hay : string) : bool :=
  match index 0 needle hay with
  | Some _ => true
  | None => false
  end.

(** Does the serialized frame [d] carry a [message] that begins with
    [start]?  ([start] holds no character that serialization escapes.) *)
Definition message_begins (start : string) (d : Data) : bool :=
  match d with
  | Some s => occurs (quote "message" ++ ":" ++ dquote ++ start) s
  | None => false
  end.

(** A program that leaves the runtime as it is, but for the effects it
    adds. *)
Definition only_effects {A} (m : M A) : Prop :=
  forall rt, exists more, (m rt).2 = after rt more.

(** A program that keeps a property of the runtime, however it ends. *)
Definition keeps (I : Runtime -> Prop) {A} (m : M A) : Prop :=
  forall rt, I rt -> I (m rt).2.

(** The WebSocket servers asked to close, in order. *)
Fixpoint dispatched_close (es : list Effect) : list Id :=
  match es with
  | [] => []
  | WssClose w :: rest => w :: dispatched_close rest
  | _ :: rest => dispatched_close rest
  end.

(** The same runtime with another registry. *)
Definition set_clients (clients : list Id) (rt : Runtime) : Runtime :=
  with_this (fun t => mkService (server t) (wss t) (port t) (isActive t) clients) rt.

(** [client.readyState === WebSocket.OPEN] *)
Definition is_open (rt : Runtime) (client : Id) : bool :=
  ReadyState_eqb (readyState (sockets rt client)) OPEN.

(** An open client whose [send] throws. *)
Definition send_fails (rt : Runtime) (client : Id) : bool :=
  is_open rt client &&
  match send_throws (sockets rt client) with Some _ => true | None => false end.

(** An open client whose [send] goes through. *)
Definition reached (rt : Runtime) (client : Id) : bool :=
  is_open rt client &&
  match send_throws (sockets rt client) with Some _ => false | None => true end.

(** What [broadcast] does for one client of the registry. *)
Definition broadcast_effect (rt : Runtime) (d : Data) (client : Id) : list Effect :=
  if is_open rt client then
    match send_throws (sockets rt client) with
    | None => [Sent client d]
    | Some e => [ConsoleError "Error sending message to client:" e]
    end
  else [].

(** The deliveries of an effect log: who was sent what, in order. *)
Fixpoint deliveries (es : list Effect) : list (Id * Data) :=
  match es with
  | [] => []
  | Sent ws d :: rest => (ws, d) :: deliveries rest
  | _ :: rest => deliveries rest
  end.

(** The event each kind of callback is registered for, and the promise
    it settles. *)
Definition closure_event (c : Closure) : EventName :=
  match c with
  | OnConnection => Ev_connection
  | OnMessage _ => Ev_message
  | OnClose _ => Ev_close
  | OnError _ => Ev_error
  | ListenCallback _ => Ev_listening
  | ServerErrorHandler _ => Ev_error
  | WssCloseCallback _ => Ev_close
  | ServerCloseCallback _ => Ev_close
  | ReEmit _ name => name
  end.

Definition closure_promise (c : Closure) : option Id :=
  match c with
  | ListenCallback p | ServerErrorHandler p
  | WssCloseCallback p | ServerCloseCallback p => Some p
  | OnConnection | OnMessage _ | OnClose _ | OnError _ | ReEmit _ _ => None
  end.

(** A listener that only mentions objects created so far (identities
    below [n]) and sits under the event of its callback. *)
Definition listener_ok (n : Id) (l : Listener) : Prop :=
  emitter l < n /\
  event l = closure_event (closure l) /\
  forall p, closure_promise (closure l) = Some p -> p < n.

(** The runtime only mentions objects with identities below [n]; the
    registry has no duplicates. *)
Record bounded (n : Id) (rt : Runtime) : Prop := mk_bounded {
  bounded_nodup : NoDup (connectedClients (this rt));
  bounded_clients : Forall (fun c => c < n) (connectedClients (this rt));
  bounded_server : forall s, server (this rt) = Some s -> s < n;
  bounded_wss : forall w, wss (this rt) = Some w -> w < n;
  bounded_listeners : Forall (listener_ok n) (listeners rt)
}.

(** Well-formed runtimes: what holds in every state the service can
    reach. *)
Definition wf (rt : Runtime) : Prop := bounded (next_id rt) rt.

(** A listener that cannot settle promise [p] the way [start] does: it
    is neither the [listen] callback nor the ['error'] handler of [p],
    and it sits under the event of its callback. *)
Definition quiet (p : Id) (l : Listener) : Prop :=
  closure l <> ListenCallback p /\
  closure l <> ServerErrorHandler p /\
  event l = closure_event (closure l).

(** Promise [p] belongs to a [stop]: it exists, and no listener of
    [start] knows it. *)
Definition stop_promise (p : Id) (rt : Runtime) : Prop :=
  p < next_id rt /\ Forall (quiet p) (listeners rt).

(** While [p] is pending or once the registry has been emptied. *)
Definition pending_or_cleared (p : Id) (rt : Runtime) : Prop :=
  promises rt !! p = Some Pending \/ connectedClients (this rt) = [].

(** While [p] is pending, or with only later sockets in the registry. *)
Definition pending_or_newer (p : Id) (rt : Runtime) : Prop :=
  promises rt !! p = Some Pending \/
  Forall (fun c => p < c) (connectedClients (this rt)).

(** Every frame of the log went to [ws]. *)
Definition sends_only_to (ws : Id) (es : list Effect) : Prop :=
  forall other d, Sent other d ∈ es -> other = ws.

(** Does [l] pass its event on to a WebSocket server? *)
Definition passes_on (l : Listener) : bool :=
  match closure l with
  | ReEmit _ _ => true
  | _ => false
  end.

(** No listener on [x] passes its event on. *)
Definition keeps_its_events (x : Id) (rt : Runtime) : Prop :=
  Forall (fun l => emitter l = x -> passes_on l = false) (listeners rt).

(** Every socket of the registry has its ['close'] and its ['error']
    callback registered, and keeps its events. *)
Definition watched (rt : Runtime) : Prop :=
  forall c, c ∈ connectedClients (this rt) ->
    mkListener c Ev_close false (OnClose c) ∈ listeners rt /\
    mkListener c Ev_error false (OnError c) ∈ listeners rt /\
    keeps_its_events c rt.

(** The socket an event hands to its listeners. *)
Definition socket_of (arg : Arg) : option Id :=
  match arg with
  | SocketArg ws => Some ws
  | _ => None
  end.

(** A program that always ends normally. *)
Definition never_throws {A} (m : M A) : Prop :=
  forall rt, exists a, (m rt).1 = Normal a.

(** The service has its two servers, or it is not active and no
    callback of [listen] is waiting. *)
Definition equipped (rt : Runtime) : Prop :=
  (is_Some (server (this rt)) /\ is_Some (wss (this rt))) \/
  (isActive (this rt) = false /\
   Forall (fun l => closure_event (closure l) <> Ev_listening) (listeners rt)).

(** * The contribution that owns the service

    [websocket.contribution.ts] creates the service when the extension
    is activated and starts it.  [DisposableStore] is kept as the list
    of the objects handed to its [add], in order. *)

(** The objects the contribution adds to [this._disposables].  There is
    one kind, [{ dispose: () => { websocketService.stop(); } }]. *)
Inductive Disposable : Type :=
| StopService.

Record WebSocketContribution : Type := mkContribution {
  websocketService : Runtime;
  _disposables : list Disposable;
  (** the promise [startWebSocketServer] is suspended on at its [await] *)
  suspended : option Id
}.

Section Contribution.

Variable JSON_parse : string -> completion JSON.
Variable Any : Type.
Variable JSON_stringify : Any -> completion Data.

(** [dispose: () => { websocketService.stop(); }].  [stop] is [async]:
    the promise it returns is dropped. *)
Definition dispose (d : Disposable) : M unit :=
  match d with
  | StopService =>
      try_catch (let* _ := stop in ret tt)
                (fun error => perform (UnhandledRejection error))
  end.

(** [startWebSocketServer] from its [await] on; [outcome] is how the
    promise of [start] settled.  The result is what the method adds to
    [this._disposables]. *)
Definition startWebSocketServer_resume (outcome : completion unit) : M (list Disposable) :=
  try_catch
    (lift outcome ;;
     let* prt := gets (fun rt => getPort (this rt)) in
     console_log ("Copilot Chat WebSocket server started on port " ++ pretty prt) ;;
     ret [StopService])
    (fun error =>
       console_error "Failed to start WebSocket server:" error ;;
       ret []).

Definition resume (outcome : completion unit) (c : WebSocketContribution)
  : WebSocketContribution :=
  match startWebSocketServer_resume outcome (websocketService c) with
  | (Normal ds, rt) => mkContribution rt (_disposables c ++ ds) None
  | (Throw e, rt) => mkContribution (after rt [UnhandledRejection e]) (_disposables c) None
  end.

(** The suspended method goes on as soon as its promise is settled. *)
Definition wake (c : WebSocketContribution) : WebSocketContribution :=
  match suspended c with
  | Some p =>
      match promises (websocketService c) !! p with
      | Some Fulfilled => resume (Normal tt) c
      | Some (Rejected e) => resume (Throw e) c
      | _ => c
      end
  | None => c
  end.

(** [new WebSocketContribution()]: a new service, [start] called on it
    and awaited. *)
Definition new_WebSocketContribution (socks : Id -> WebSocket) : WebSocketContribution :=
  match start (initial socks) with
  | (Normal (ReturnedPromise p), rt) => wake (mkContribution rt [] (Some p))
  | (Normal ReturnedUndefined, rt) => resume (Normal tt) (mkContribution rt [] None)
  | (Throw e, rt) => resume (Throw e) (mkContribution rt [] None)
  end.

(** One input to the service, then the contribution's own continuation
    if the input settled what it waits for. *)
Definition contribution_step (i : Input Any) (c : WebSocketContribution)
  : WebSocketContribution :=
  wake (mkContribution (step JSON_parse Any JSON_stringify i (websocketService c))
                       (_disposables c) (suspended c)).

Definition contribution_run (inputs : list (Input Any)) (c : WebSocketContribution)
  : WebSocketContribution :=
  fold_left (fun c i => contribution_step i c) inputs c.

End Contribution.


Local Open Scope list_scope.

(** * Properties *)

Lemma after_nil rt : after rt [] = rt.
Proof.
  destruct rt. unfold after, with_effects. simpl. by rewrite app_nil_r.
Qed.

Lemma after_after rt a b : after (after rt a) b = after rt (a ++ b).
Proof.
  unfold after, with_effects. simpl. by rewrite app_assoc.
Qed.

Lemma received_app ws a b : received ws (a ++ b) = received ws a ++ received ws b.
Proof.
  induction a as [|e a IH]; [done|].
  destruct e; simpl; try apply IH.
  destruct (Nat.eqb ws0 ws); simpl; by rewrite IH.
Qed.

Lemma dispatched_app a b : dispatched (a ++ b) = dispatched a ++ dispatched b.
Proof.
  induction a as [|e a IH]; [done|].
  destruct e; simpl; by rewrite ?IH.
Qed.

Lemma sockets_after rt more : sockets (after rt more) = sockets rt.
Proof. done. Qed.


Lemma listeners_after rt more : listeners (after rt more) = listeners rt.
Proof. done. Qed.

Lemma promises_after rt more : promises (after rt more) = promises rt.
Proof. done. Qed.

Lemma next_id_after rt more : next_id (after rt more) = next_id rt.
Proof. done. Qed.

Lemma effects_after rt more : effects (after rt more) = effects rt ++ more.
Proof. done. Qed.

(** ** The message handler *)

Section Handler.

Variable JSON_parse : string -> completion JSON.

Lemma perform_after e rt : perform e rt = (Normal tt, after rt [e]).
Proof. done. Qed.

Lemma send_frame_ok ws f rt :
  send_throws (sockets rt ws) = None ->
  send_frame ws f rt = (Normal tt, after rt [Sent ws (wire f)]).
Proof.
  intros Hs. unfold send_frame, ws_send, bind, gets. by rewrite Hs.
Qed.

Ltac run_handler :=
  repeat first
    [ progress rewrite ?after_after
    | rewrite send_frame_ok by (rewrite ?sockets_after; assumption)
    | progress (unfold await_import, await_executeCommand, console_error)
    | rewrite perform_after
    | progress (unfold bind, try_catch, lift, ret; simpl) ].

(** A chat frame with a truthy [message], when the host performs the
    command. *)
Lemma on_message_chat_ok ws message host rt props query :
  JSON_parse message = Normal (JObject props) ->
  assoc "type" props = Some (JString "chat") ->
  assoc "message" props = query ->
  truthy query = true ->
  send_throws (sockets rt ws) = None ->
  import_vscode host = Normal tt ->
  executeCommand host "workbench.action.chat.open" [[("query", query)]] = Normal tt ->
  on_message JSON_parse ws message host rt =
    (Normal tt,
     after rt [Sent ws (wire chat_started); ImportVscode;
               ExecuteCommand "workbench.action.chat.open" [[("query", query)]];
               Sent ws (wire chat_opened)]).
Proof.
  intros Hp Ht Hm Hq Hs Hi He.
  unfold on_message. unfold bind at 1, lift at 1, try_catch. rewrite Hp.
  simpl get_property. run_handler. rewrite Ht. simpl. rewrite Hm, Hq.
  run_handler. rewrite Hi. run_handler. rewrite He. run_handler. done.
Qed.



(** A [chat] frame whose [message] is falsy takes the last branch. *)
Lemma on_message_chat_falsy ws message host rt props :
  JSON_parse message = Normal (JObject props) ->
  assoc "type" props = Some (JString "chat") ->
  truthy (assoc "message" props) = false ->
  send_throws (sockets rt ws) = None ->
  on_message JSON_parse ws message host rt =
    (Normal tt, after rt [Sent ws (wire invalid_format)]).
Proof.
  intros Hp Ht Hq Hs.
  unfold on_message. unfold bind at 1, lift at 1, try_catch. rewrite Hp.
  simpl get_property. run_handler. rewrite Ht. simpl. rewrite Hq.
  run_handler. done.
Qed.

(** A payload that [JSON.parse] rejects goes straight to the [catch]
    block. *)
Lemma on_message_not_parseable ws message host rt e :
  JSON_parse message = Throw e ->
  send_throws (sockets rt ws) = None ->
  on_message JSON_parse ws message host rt =
    (Normal tt,
     after rt [ConsoleError "Error processing WebSocket message:" e;
               Sent ws (wire failed_to_process)]).
Proof.
  intros Hp Hs.
  unfold on_message. unfold bind at 1, lift at 1, try_catch. rewrite Hp.
  run_handler. done.
Qed.

(** The other two outcomes of the tag dispatch, for reference. *)
Lemma on_message_clear_history ws message host rt props :
  JSON_parse message = Normal (JObject props) ->
  assoc "type" props = Some (JString "clear_history") ->
  send_throws (sockets rt ws) = None ->
  import_vscode host = Normal tt ->
  executeCommand host "workbench.action.chat.clearHistory" [] = Normal tt ->
  on_message JSON_parse ws message host rt =
    (Normal tt,
     after rt [Sent ws (wire clear_started); ImportVscode;
               ExecuteCommand "workbench.action.chat.clearHistory" [];
               Sent ws (wire clear_completed)]).
Proof.
  intros Hp Ht Hs Hi He.
  unfold on_message. unfold bind at 1, lift at 1, try_catch. rewrite Hp.
  simpl get_property. run_handler. rewrite Ht. simpl.
  run_handler. rewrite Hi. run_handler. rewrite He. run_handler. done.
Qed.

Lemma on_message_null ws message host rt :
  JSON_parse message = Normal JNull ->
  send_throws (sockets rt ws) = None ->
  on_message JSON_parse ws message host rt =
    (Normal tt,
     after rt [ConsoleError "Error processing WebSocket message:"
                 (TypeError "Cannot read properties of null");
               Sent ws (wire failed_to_process)]).
Proof.
  intros Hp Hs.
  unfold on_message. unfold bind at 1, lift at 1, try_catch. rewrite Hp.
  run_handler. done.
Qed.

(** Whatever the frame and the host do, the handler only adds effects:
    the fields of the service, the listeners, the promises and the
    sockets are as before. *)
Lemma ws_send_only_effects ws d rt :
  exists more, (ws_send ws d rt).2 = after rt more.
Proof.
  unfold ws_send, bind, gets, throw. simpl.
  destruct (send_throws (sockets rt ws)).
  - exists []. by rewrite after_nil.
  - by exists [Sent ws d].
Qed.

Lemma only_effects_ret {A} (a : A) : only_effects (ret a).
Proof. intros rt. exists []. by rewrite after_nil. Qed.

Lemma only_effects_lift {A} (c : completion A) : only_effects (lift c).
Proof. intros rt. exists []. by rewrite after_nil. Qed.

Lemma only_effects_perform e : only_effects (perform e).
Proof. intros rt. by exists [e]. Qed.

Lemma only_effects_bind {A B} (m : M A) (k : A -> M B) :
  only_effects m -> (forall a, only_effects (k a)) -> only_effects (bind m k).
Proof.
  intros Hm Hk rt. unfold bind. destruct (Hm rt) as [m1 E1].
  destruct (m rt) as [[a|e] rt1]; simpl in E1; subst rt1.
  - destruct (Hk a (after rt m1)) as [m2 E2]. exists (m1 ++ m2).
    by rewrite E2, after_after.
  - by exists m1.
Qed.

Lemma only_effects_try_catch {A} (body : M A) (handler : Error -> M A) :
  only_effects body -> (forall e, only_effects (handler e)) ->
  only_effects (try_catch body handler).
Proof.
  intros Hm Hk rt. unfold try_catch. destruct (Hm rt) as [m1 E1].
  destruct (body rt) as [[a|e] rt1]; simpl in E1; subst rt1.
  - by exists m1.
  - destruct (Hk e (after rt m1)) as [m2 E2]. exists (m1 ++ m2).
    by rewrite E2, after_after.
Qed.

Lemma only_effects_send_frame ws f : only_effects (send_frame ws f).
Proof. intros rt. apply ws_send_only_effects. Qed.

Ltac only_effects :=
  repeat first
    [ apply only_effects_ret | apply only_effects_lift
    | apply only_effects_perform | apply only_effects_send_frame
    | apply only_effects_bind; [|intros ?]
    | apply only_effects_try_catch; [|intros ?]
    | match goal with
      | |- only_effects (if ?b then _ else _) => destruct b
      end ].

Lemma on_message_only_effects ws message host :
  only_effects (on_message JSON_parse ws message host).
Proof.
  unfold on_message, await_import, await_executeCommand, console_error.
  only_effects.
Qed.

End Handler.



(** C2, as the code has it.  A payload that [JSON.parse] rejects never
    reaches the tag dispatch: the [catch] block logs the failure and
    sends one frame, the generic error whose message is
    [Failed to process message], to the connection the payload came
    from.  Nothing else changes: no other connection is sent anything,
    no command reaches the host, the service's fields, the sockets and
    the listeners are as before, and the connection's next chat frame
    is answered as usual. *)
Theorem not_parseable_frame_gets_generic_error
    (JSON_parse : string -> completion JSON) ws message host rt e :
  JSON_parse message = Throw e ->
  send_throws (sockets rt ws) = None ->
  exists more rt',
    on_message JSON_parse ws message host rt = (Normal tt, rt') /\
    rt' = after rt more /\
    more = [ConsoleError "Error processing WebSocket message:" e;
            Sent ws (wire failed_to_process)] /\
    received ws more = [wire failed_to_process] /\
    message_begins "Failed to process message" (wire failed_to_process) = true /\
    (forall other, other <> ws -> received other more = []) /\
    dispatched more = [] /\
    this rt' = this rt /\ sockets rt' = sockets rt /\
    listeners rt' = listeners rt /\
    (forall message' host' props text,
       JSON_parse message' = Normal (JObject props) ->
       assoc "type" props = Some (JString "chat") ->
       assoc "message" props = Some (JString text) ->
       text <> EmptyString ->
       import_vscode host' = Normal tt ->
       executeCommand host' "workbench.action.chat.open"
         [[("query", Some (JString text))]] = Normal tt ->
       exists more',
         on_message JSON_parse ws message' host' rt' = (Normal tt, after rt' more') /\
         received ws more' = [wire chat_started; wire chat_opened]).
Proof.
  intros Hp Hs. do 2 eexists.
  split; [by apply on_message_not_parseable|].
  split; [reflexivity|]. split; [reflexivity|].
  split; [simpl; by rewrite Nat.eqb_refl|].
  split; [reflexivity|].
  split.
  { intros other Hother. simpl. by destruct (Nat.eqb_neq ws other) as [_ ->]. }
  do 4 (split; [reflexivity|]).
  intros message' host' props text Hp' Ht Hm Hne Hi He. eexists. split.
  - eapply on_message_chat_ok; eauto.
    simpl. apply negb_true_iff, String.eqb_neq, Hne.
  - simpl. by rewrite Nat.eqb_refl.
Qed.

Lemma not_parseable_frame_gets_generic_error_witness :
  exists more rt',
    on_message Demo.parse 3 "{oops" Demo.host_ok Demo.boot = (Normal tt, rt') /\
    rt' = after Demo.boot more /\
    received 3 more = [wire failed_to_process].
Proof.
  destruct (not_parseable_frame_gets_generic_error Demo.parse 3 "{oops"
              Demo.host_ok Demo.boot (SyntaxError "Unexpected token")
              eq_refl eq_refl)
    as (more & rt' & H1 & H2 & _ & H3 & _).
  exists more, rt'. auto.
Defined.

(** C2 as stated fails: the frame sent for a payload that does not
    parse is not one whose message begins with [Invalid message format]. *)
Lemma not_parseable_frame_is_not_answered_with_invalid_format :
  Demo.parse "{oops" = Throw (SyntaxError "Unexpected token") /\
  let rt' := (on_message Demo.parse 3 "{oops" Demo.host_ok Demo.boot).2 in
  received 3 (effects rt') = [wire failed_to_process] /\
  ~ (exists d, d ∈ received 3 (effects rt') /\
               message_begins "Invalid message format" d = true).
Proof.
  split; [reflexivity|]. split; [reflexivity|].
  intros (d & Hin & Hd). vm_compute in Hin.
  apply list_elem_of_singleton in Hin. subst d. vm_compute in Hd. discriminate.
Qed.

Example invalid_format_message_begins :
  message_begins "Invalid message format. Expected: " (wire invalid_format) = true.
Proof. reflexivity. Qed.



(** C10.  A parseable [chat] frame whose [message] is absent, empty or
    otherwise falsy is handled like an unrecognized frame: the
    connection is sent the one [Invalid message format. Expected: ...]
    error frame, and nothing is handed to the Command Dispatcher. *)
Theorem chat_frame_without_text_is_unrecognized
    (JSON_parse : string -> completion JSON) ws message host rt props :
  JSON_parse message = Normal (JObject props) ->
  assoc "type" props = Some (JString "chat") ->
  truthy (assoc "message" props) = false ->
  send_throws (sockets rt ws) = None ->
  exists more,
    on_message JSON_parse ws message host rt = (Normal tt, after rt more) /\
    more = [Sent ws (wire invalid_format)] /\
    received ws more = [wire invalid_format] /\
    message_begins "Invalid message format. Expected: " (wire invalid_format) = true /\
    dispatched more = [] /\
    (ImportVscode ∉ more).
Proof.
  intros Hp Ht Hq Hs. eexists.
  split; [by apply (on_message_chat_falsy _ _ _ _ _ props)|].
  split; [reflexivity|].
  split; [simpl; by rewrite Nat.eqb_refl|].
  split; [reflexivity|]. split; [reflexivity|].
  intros Hin. apply elem_of_cons in Hin as [Hin|Hin]; [discriminate|].
  by apply elem_of_nil in Hin.
Qed.

Lemma chat_frame_without_text_is_unrecognized_witness :
  exists more,
    on_message Demo.parse 3 Demo.empty_chat_frame Demo.host_ok Demo.boot =
      (Normal tt, after Demo.boot more) /\
    more = [Sent 3 (wire invalid_format)].
Proof.
  destruct (chat_frame_without_text_is_unrecognized Demo.parse 3
              Demo.empty_chat_frame Demo.host_ok Demo.boot
              [("type", JString "chat"); ("message", JString EmptyString)]
              eq_refl eq_refl eq_refl eq_refl)
    as (more & H1 & H2 & _).
  exists more. auto.
Defined.

(** The falsy values a [message] can have after [JSON.parse]. *)
Example falsy_messages :
  truthy (assoc "message" [("type", JString "chat")]) = false /\
  truthy (Some (JString EmptyString)) = false /\
  truthy (Some JNull) = false /\
  truthy (Some (JBool false)) = false /\
  truthy (Some (JNumber (S754_zero false))) = false /\
  truthy (Some (JNumber (S754_zero true))) = false /\
  truthy (Some (JNumber (S754_finite false 1 0))) = true /\
  truthy (Some (JArray [])) = true.
Proof. repeat split. Qed.

(** ** Invariants kept by every program of the class *)

Section Keeps.

Variable I : Runtime -> Prop.

Lemma keeps_ret {A} (a : A) : keeps I (ret a).
Proof. by intros rt. Qed.

Lemma keeps_lift {A} (c : completion A) : keeps I (lift c).
Proof. by intros rt. Qed.

Lemma keeps_throw {A} e : keeps I (@throw A e).
Proof. by intros rt. Qed.

Lemma keeps_gets {A} (f : Runtime -> A) : keeps I (gets f).
Proof. by intros rt. Qed.

Lemma keeps_modify f : (forall rt, I rt -> I (f rt)) -> keeps I (modify f).
Proof. intros Hf rt. apply Hf. Qed.

Lemma keeps_bind {A B} (m : M A) (k : A -> M B) :
  keeps I m -> (forall a, keeps I (k a)) -> keeps I (bind m k).
Proof.
  intros Hm Hk rt Hrt. unfold bind. specialize (Hm rt Hrt).
  destruct (m rt) as [[a|e] rt1]; simpl in *; [by apply Hk | done].
Qed.

Lemma keeps_try_catch {A} (body : M A) (handler : Error -> M A) :
  keeps I body -> (forall e, keeps I (handler e)) -> keeps I (try_catch body handler).
Proof.
  intros Hm Hk rt Hrt. unfold try_catch. specialize (Hm rt Hrt).
  destruct (body rt) as [[a|e] rt1]; simpl in *; [done | by apply Hk].
Qed.

Lemma keeps_Set_forEach snapshot callback :
  (forall x, keeps I (callback x)) -> keeps I (Set_forEach snapshot callback).
Proof.
  intros Hc. induction snapshot as [|x rest IH]; simpl; [apply keeps_ret|].
  apply keeps_bind; [|by intros _].
  apply keeps_bind; [apply keeps_gets|]. intros []; [apply Hc | apply keeps_ret].
Qed.

(** When the property does not look at the effects. *)
Hypothesis I_after : forall rt more, I rt -> I (after rt more).

Lemma keeps_perform e : keeps I (perform e).
Proof. intros rt Hrt. by apply I_after. Qed.

Lemma keeps_only_effects {A} (m : M A) : only_effects m -> keeps I m.
Proof. intros Hm rt Hrt. destruct (Hm rt) as [more ->]. by apply I_after. Qed.

End Keeps.

(** [emit] either throws at once or runs the listeners. *)
Lemma keeps_emit_with (I : Runtime -> Prop) (JSON_parse : string -> completion JSON)
    reemit target name arg :
  keeps I (run_listeners_with JSON_parse reemit target name arg) ->
  keeps I (emit_with JSON_parse reemit target name arg).
Proof.
  intros H rt Hrt. unfold emit_with, bind at 1, gets at 1. cbn [fst snd].
  destruct (unhandled _ _ _); [done | by apply H].
Qed.

(** ** Idempotence of [start] and [stop] *)

Lemma start_active rt :
  isActive (this rt) = true -> start rt = (Normal ReturnedUndefined, rt).
Proof. intros H. unfold start, bind, gets. simpl. by rewrite H. Qed.

Lemma stop_inactive rt :
  isActive (this rt) = false -> stop rt = (Normal ReturnedUndefined, rt).
Proof. intros H. unfold stop, bind, gets. simpl. by rewrite H. Qed.

(** What [start] does when the service is not active: a server, a
    WebSocket server and a promise are created, the port is bound, and
    the promise is handed back, pending. *)
Lemma start_inactive rt :
  isActive (this rt) = false ->
  let s := next_id rt in
  let w := S s in
  let p := S w in
  start rt =
    (Normal (ReturnedPromise p),
     mkRuntime
       (mkService (Some s) (Some w) (port (this rt)) (isActive (this rt))
                  (connectedClients (this rt)))
       (S p)
       (listeners rt ++
          [mkListener s Ev_listening false (ReEmit w Ev_listening);
           mkListener s Ev_error false (ReEmit w Ev_error);
           mkListener w Ev_connection false OnConnection;
           mkListener s Ev_listening true (ListenCallback p);
           mkListener s Ev_error false (ServerErrorHandler p)])
       (<[p := Pending]> (promises rt))
       (sockets rt)
       (effects rt ++ [Listen s (port (this rt))])).
Proof.
  intros H. unfold start, bind, gets. simpl. rewrite H.
  destruct rt as [[srv w prt act cl] n ls ps socks es]. simpl in *.
  subst act. unfold try_catch, bind. simpl.
  unfold after, with_effects, with_listeners. simpl.
  by rewrite <- !app_assoc.
Qed.

(** What [stop] does when the service is active and has its WebSocket
    server: it asks that server to close and hands back a pending
    promise. *)
Lemma stop_active rt w :
  isActive (this rt) = true ->
  wss (this rt) = Some w ->
  let p := next_id rt in
  stop rt =
    (Normal (ReturnedPromise p),
     mkRuntime (this rt) (S p)
       (List.filter (fun l => negb (reemits_for w l)) (listeners rt) ++
          [mkListener w Ev_close true (WssCloseCallback p)])
       (<[p := Pending]> (promises rt))
       (sockets rt)
       (effects rt ++ [WssClose w])).
Proof.
  intros H Hw. unfold stop, WebSocketServer_close, add_listener, perform, modify, bind, gets.
  simpl. rewrite H. simpl.
  destruct rt as [[srv w' prt act cl] n ls ps socks es]. simpl in *. subst w'.
  unfold ret, after, with_effects, with_listeners, with_promises.
  cbn [this next_id listeners promises sockets effects].
  by rewrite List.filter_app.
Qed.

(** ** Properties stable under the primitive updates *)

(** A property [I] of the runtime that no primitive update of the class
    can break, as long as the sockets added to the registry are [good]
    ones and a socket the runtime creates is [good].  Every method and
    every callback then keeps [I]. *)
Section Stable.

Variable JSON_parse : string -> completion JSON.
Variable Any : Type.
Variable JSON_stringify : Any -> completion Data.

Variable I : Runtime -> Prop.
Variable good : Id -> Prop.

Hypothesis I_after : forall rt more, I rt -> I (after rt more).
Hypothesis I_listeners : forall rt f, I rt -> I (with_listeners f rt).
Hypothesis I_promises : forall rt f, I rt -> I (with_promises f rt).
Hypothesis I_sockets : forall rt f, I rt -> I (with_sockets f rt).
Hypothesis I_fresh : forall rt, I rt -> I (fresh rt).2.
Hypothesis I_server : forall rt v, I rt -> I (set_server v rt).2.
Hypothesis I_wss : forall rt v, I rt -> I (set_wss v rt).2.
Hypothesis I_isActive : forall rt v, I rt -> I (set_isActive v rt).2.
Hypothesis I_delete :
  forall rt x, I rt -> I (update_connectedClients (Set_delete x) rt).2.
Hypothesis I_clear : forall rt, I rt -> I (update_connectedClients Set_clear rt).2.
Hypothesis I_add :
  forall rt x, good x -> I rt -> I (update_connectedClients (Set_add x) rt).2.
Hypothesis fresh_good : forall rt, I rt -> good (next_id rt).

Ltac stable :=
  repeat first
    [ apply keeps_ret | apply keeps_lift | apply keeps_throw | apply keeps_gets
    | apply keeps_perform; [exact I_after]
    | apply keeps_modify; intros ? ?; first [by apply I_listeners | by apply I_promises]
    | apply keeps_bind; [|intros ?]
    | apply keeps_try_catch; [|intros ?]
    | match goal with
      | |- keeps _ (match ?x with _ => _ end) => destruct x
      | |- keeps _ fresh => intros ? ?; by apply I_fresh
      | |- keeps _ (set_server _) => intros ? ?; by apply I_server
      | |- keeps _ (set_wss _) => intros ? ?; by apply I_wss
      | |- keeps _ (set_isActive _) => intros ? ?; by apply I_isActive
      | |- keeps _ (update_connectedClients (Set_delete _)) =>
          intros ? ?; by apply I_delete
      | |- keeps _ (update_connectedClients Set_clear) =>
          intros ? ?; by apply I_clear
      end ].

Lemma stable_start : keeps I start.
Proof.
  unfold start, new_WebSocketServer, new_Promise, add_listener, reject, settle,
    console_error. stable.
Qed.

Lemma stable_stop : keeps I stop.
Proof.
  unfold stop, WebSocketServer_close, new_Promise, add_listener, resolve, settle. stable.
Qed.

Lemma stable_on_message ws message host :
  keeps I (on_message JSON_parse ws message host).
Proof. apply keeps_only_effects; [exact I_after | apply on_message_only_effects]. Qed.

Lemma stable_ws_send ws d : keeps I (ws_send ws d).
Proof.
  apply keeps_only_effects; [exact I_after|]. intros rt. apply ws_send_only_effects.
Qed.

Lemma stable_broadcast message : keeps I (broadcast Any JSON_stringify message).
Proof.
  unfold broadcast. apply keeps_bind; [apply keeps_lift|]. intros d.
  apply keeps_bind; [apply keeps_gets|]. intros clients.
  apply keeps_Set_forEach. intros x.
  apply keeps_bind; [apply keeps_gets|]. intros sock.
  destruct (ReadyState_eqb (readyState sock) OPEN); [|apply keeps_ret].
  apply keeps_try_catch; [apply stable_ws_send|].
  intros e. unfold console_error. stable.
Qed.

Section StableEvents.

Variable reemit : Id -> EventName -> Arg -> M unit.
Hypothesis stable_reemit :
  forall w name arg,
    (forall ws, arg = SocketArg ws -> good ws) -> keeps I (reemit w name arg).

Lemma stable_call_with c arg :
  (forall ws, arg = SocketArg ws -> good ws) ->
  keeps I (call_with JSON_parse reemit c arg).
Proof.
  intros Harg.
  destruct c, arg; simpl; try (by apply stable_reemit);
    unfold on_connection, on_close, on_error, listen_callback,
      server_error_handler, wss_close_callback, server_close_callback,
      add_listener, resolve, reject, settle, console_log, console_error;
    stable; try apply stable_on_message.
  intros rt Hrt. apply I_add; [by apply Harg | done].
Qed.

Lemma stable_call_all_with ls arg :
  (forall ws, arg = SocketArg ws -> good ws) ->
  keeps I (call_all_with JSON_parse reemit ls arg).
Proof.
  intros Harg. induction ls as [|l ls IH]; simpl; [apply keeps_ret|].
  apply keeps_bind; [by apply stable_call_with | by intros _].
Qed.

Lemma stable_emit_with target name arg :
  (forall ws, arg = SocketArg ws -> good ws) ->
  keeps I (emit_with JSON_parse reemit target name arg).
Proof.
  intros Harg. apply keeps_emit_with. unfold run_listeners_with. stable.
  by apply stable_call_all_with.
Qed.

End StableEvents.

Lemma stable_emit_on_wss w name arg :
  (forall ws, arg = SocketArg ws -> good ws) ->
  keeps I (emit_on_wss JSON_parse w name arg).
Proof. apply stable_emit_with. intros _ _ arg' _. apply keeps_ret. Qed.

Lemma stable_call c arg :
  (forall ws, arg = SocketArg ws -> good ws) ->
  keeps I (call JSON_parse c arg).
Proof. apply stable_call_with, stable_emit_on_wss. Qed.

Lemma stable_call_all ls arg :
  (forall ws, arg = SocketArg ws -> good ws) ->
  keeps I (call_all JSON_parse ls arg).
Proof. apply stable_call_all_with, stable_emit_on_wss. Qed.

Lemma stable_emit target name arg :
  (forall ws, arg = SocketArg ws -> good ws) ->
  keeps I (emit JSON_parse target name arg).
Proof. apply stable_emit_with, stable_emit_on_wss. Qed.

Lemma stable_step i rt : I rt -> I (step JSON_parse Any JSON_stringify i rt).
Proof.
  intros Hrt. destruct i; simpl.
  - by apply stable_start.
  - by apply stable_stop.
  - by apply stable_broadcast.
  - unfold bind. simpl. apply stable_emit.
    + intros ws [= <-]. by apply fresh_good.
    + apply (I_sockets (fresh rt).2). by apply I_fresh.
  - by apply I_sockets.
  - by apply stable_emit.
  - by apply stable_emit.
  - by apply stable_emit.
  - by apply stable_emit.
Qed.

Lemma stable_run inputs rt : I rt -> I (run JSON_parse Any JSON_stringify inputs rt).
Proof.
  revert rt. induction inputs as [|i inputs IH]; intros rt Hrt; [done|].
  simpl. apply IH. by apply stable_step.
Qed.

End Stable.

(** C9.  No sequence of calls and events changes the port: [getPort]
    answers the configured value, 3001 for a service made by the
    constructor, whether or not the server is running. *)
Theorem getPort_is_the_configured_port
    (JSON_parse : string -> completion JSON) (Any : Type)
    (JSON_stringify : Any -> completion Data) (inputs : list (Input Any)) :
  (forall rt,
     getPort (this (run JSON_parse Any JSON_stringify inputs rt)) = getPort (this rt)) /\
  (forall socks,
     getPort (this (run JSON_parse Any JSON_stringify inputs (initial socks))) = 3001%Z).
Proof.
  assert (H : forall rt,
    getPort (this (run JSON_parse Any JSON_stringify inputs rt)) = getPort (this rt)).
  { intros rt.
    apply (stable_run JSON_parse Any JSON_stringify
             (fun rt' => getPort (this rt') = getPort (this rt)) (fun _ => True));
      try done.
    all: by intros [[] ] **. }
  split; [exact H|]. intros socks. by rewrite H.
Qed.

(** C4, as the code has it.  While the service is active (Running),
    [start] returns at once and changes nothing: no server is created
    and the port is not bound again, however often it is called. *)
Theorem start_while_running_changes_nothing
    (JSON_parse : string -> completion JSON) (Any : Type)
    (JSON_stringify : Any -> completion Data) rt :
  isActive (this rt) = true ->
  start rt = (Normal ReturnedUndefined, rt) /\
  forall n, run JSON_parse Any JSON_stringify (repeat Call_start n) rt = rt.
Proof.
  intros H. split; [by apply start_active|].
  induction n as [|n IH]; [done|]. simpl. by rewrite start_active.
Qed.

Lemma start_while_running_changes_nothing_witness :
  let rt := Demo.go [Call_start; Emit_listening 0] in
  start rt = (Normal ReturnedUndefined, rt) /\
  forall n, run Demo.parse string Demo.stringify (repeat Call_start n) rt = rt.
Proof.
  exact (start_while_running_changes_nothing Demo.parse string Demo.stringify
           (Demo.go [Call_start; Emit_listening 0]) eq_refl).
Defined.

(** C4 as stated fails for the Starting state: between [start] and the
    callback of [listen] the service is not yet active, and a second
    [start] creates a second server and binds port 3001 again. *)
Lemma start_while_starting_binds_again :
  let rt1 := Demo.go [Call_start] in
  isActive (this rt1) = false /\
  promises rt1 !! 2 = Some Pending /\
  effects rt1 = [Listen 0 3001] /\
  (start rt1).1 = Normal (ReturnedPromise 5) /\
  start rt1 <> (Normal ReturnedUndefined, rt1) /\
  effects (start rt1).2 = [Listen 0 3001; Listen 3 3001].
Proof.
  repeat split; try (vm_compute; reflexivity).
  intros H. apply (f_equal fst) in H. vm_compute in H. discriminate.
Qed.

(** C5, as the code has it.  While the service is not active (Stopped),
    [stop] returns at once and changes nothing, however often it is
    called; in particular an empty registry stays empty. *)
Theorem stop_while_stopped_changes_nothing
    (JSON_parse : string -> completion JSON) (Any : Type)
    (JSON_stringify : Any -> completion Data) rt :
  isActive (this rt) = false ->
  stop rt = (Normal ReturnedUndefined, rt) /\
  forall n,
    let rt' := run JSON_parse Any JSON_stringify (repeat Call_stop n) rt in
    rt' = rt /\
    stop rt' = (Normal ReturnedUndefined, rt') /\
    (connectedClients (this rt) = [] -> connectedClients (this rt') = []).
Proof.
  intros H. split; [by apply stop_inactive|].
  assert (Hn : forall n, run JSON_parse Any JSON_stringify (repeat Call_stop n) rt = rt).
  { induction n as [|n IH]; [done|]. simpl. by rewrite stop_inactive. }
  intros n rt'. subst rt'. rewrite Hn. split; [done|]. split; [|done].
  by apply stop_inactive.
Qed.

Lemma stop_while_stopped_changes_nothing_witness :
  stop Demo.boot = (Normal ReturnedUndefined, Demo.boot) /\
  forall n,
    let rt' := run Demo.parse string Demo.stringify (repeat Call_stop n) Demo.boot in
    rt' = Demo.boot /\
    stop rt' = (Normal ReturnedUndefined, rt') /\
    (connectedClients (this Demo.boot) = [] -> connectedClients (this rt') = []).
Proof.
  exact (stop_while_stopped_changes_nothing Demo.parse string Demo.stringify
           Demo.boot eq_refl).
Defined.

(** C5 as stated fails for the Stopping state: between [stop] and the
    callbacks of [close] the service is still active, and a second
    [stop] asks the WebSocket server to close again and hands back a
    pending promise; the registry is not empty meanwhile. *)
Lemma stop_while_stopping_does_not_return_at_once :
  let rt1 := Demo.go [Call_start; Emit_listening 0; Accept 1 Demo.open_socket;
                      Call_stop] in
  isActive (this rt1) = true /\
  promises rt1 !! 4 = Some Pending /\
  connectedClients (this rt1) = [3] /\
  (stop rt1).1 = Normal (ReturnedPromise 5) /\
  stop rt1 <> (Normal ReturnedUndefined, rt1) /\
  promises (stop rt1).2 !! 5 = Some Pending /\
  dispatched_close (effects (stop rt1).2) = [1; 1].
Proof.
  repeat split; try (vm_compute; reflexivity).
  intros H. apply (f_equal fst) in H. vm_compute in H. discriminate.
Qed.

(** ** Broadcast *)

Lemma Set_has_elem x s : Set_has x s = true <-> x ∈ s.
Proof. unfold Set_has. apply bool_decide_eq_true. Qed.

Lemma Set_delete_absent x s : x ∉ s -> Set_delete x s = s.
Proof.
  unfold Set_delete. induction s as [|y s IH]; intros Hx; [done|].
  apply not_elem_of_cons in Hx as [Hxy Hs].
  rewrite filter_cons_True by done. by rewrite IH.
Qed.

Lemma Set_delete_middle x before behind :
  NoDup (before ++ x :: behind) -> Set_delete x (before ++ x :: behind) = before ++ behind.
Proof.
  intros Hnd. apply NoDup_app in Hnd as (_ & Hdisj & Hnd).
  apply NoDup_cons in Hnd as [Hx _].
  unfold Set_delete. rewrite filter_app, filter_cons_False by (intros ?; done).
  fold (Set_delete x before). fold (Set_delete x behind).
  rewrite !Set_delete_absent; [done | done |].
  intros Hin. apply (Hdisj x Hin). by left.
Qed.

Lemma deliveries_app a b : deliveries (a ++ b) = deliveries a ++ deliveries b.
Proof.
  induction a as [|e a IH]; [done|]. destruct e; simpl; by rewrite ?IH.
Qed.

Lemma set_clients_after clients rt more :
  set_clients clients (after rt more) = after (set_clients clients rt) more.
Proof. done. Qed.

Lemma set_clients_twice a b rt : set_clients a (set_clients b rt) = set_clients a rt.
Proof. done. Qed.

Lemma set_clients_same rt : set_clients (connectedClients (this rt)) rt = rt.
Proof. by destruct rt as [[] ]. Qed.

Section Broadcast.

Variable d : Data.

(** The callback [broadcast] hands to [forEach]. *)
Let callback (client : Id) : M unit :=
  let* sock := gets (fun rt => sockets rt client) in
  if ReadyState_eqb (readyState sock) OPEN then
    try_catch
      (ws_send client d)
      (fun error =>
         console_error "Error sending message to client:" error ;;
         update_connectedClients (Set_delete client))
  else ret tt.

Lemma callback_spec x rt :
  callback x rt =
    (Normal tt,
     after (if send_fails rt x
            then set_clients (Set_delete x (connectedClients (this rt))) rt
            else rt)
           (broadcast_effect rt d x)).
Proof.
  unfold callback, bind, gets, broadcast_effect, send_fails, is_open. simpl.
  destruct (ReadyState_eqb (readyState (sockets rt x)) OPEN); simpl.
  - unfold try_catch, ws_send, bind, gets. simpl.
    destruct (send_throws (sockets rt x)) as [e|]; simpl; [|done].
    by destruct rt as [[] ].
  - by rewrite after_nil.
Qed.

Lemma forEach_broadcast todo : forall before rt,
  connectedClients (this rt) = before ++ todo ->
  NoDup (before ++ todo) ->
  Set_forEach todo callback rt =
    (Normal tt,
     after (set_clients (before ++ filter (fun c => send_fails rt c = false) todo) rt)
           (flat_map (broadcast_effect rt d) todo)).
Proof.
  induction todo as [|x todo IH]; intros before rt Hreg Hnd.
  - simpl. rewrite after_nil, filter_nil, <- Hreg. by destruct rt as [[] ].
  - assert (Hin : Set_has x (connectedClients (this rt)) = true).
    { apply Set_has_elem. rewrite Hreg. apply elem_of_app. right. by left. }
    cbn [Set_forEach flat_map]. unfold bind at 1. unfold bind at 1. unfold gets at 1.
    cbn [fst snd]. rewrite Hin, callback_spec.
    destruct (send_fails rt x) eqn:Hfails.
    + rewrite filter_cons_False by (rewrite Hfails; done).
      set (rt1 := after _ _).
      rewrite (IH before).
      * change (send_fails rt1) with (send_fails rt).
        change (broadcast_effect rt1) with (broadcast_effect rt).
        subst rt1. by rewrite set_clients_after, after_after, set_clients_twice.
      * subst rt1. cbn. rewrite Hreg. by apply Set_delete_middle.
      * apply NoDup_app in Hnd as (H1 & H2 & H3).
        apply NoDup_cons in H3 as [H3 H4]. apply NoDup_app.
        split; [done|]. split; [|done].
        intros y Hy Hy'. apply (H2 y Hy). by right.
    + rewrite filter_cons_True by done.
      set (rt1 := after _ _).
      rewrite (IH (before ++ [x])).
      * change (send_fails rt1) with (send_fails rt).
        change (broadcast_effect rt1) with (broadcast_effect rt).
        subst rt1. by rewrite set_clients_after, after_after, <- app_assoc.
      * subst rt1. cbn. by rewrite <- app_assoc.
      * by rewrite <- app_assoc.
Qed.

End Broadcast.

Lemma broadcast_spec (Any : Type) (JSON_stringify : Any -> completion Data) message d rt :
  JSON_stringify message = Normal d ->
  NoDup (connectedClients (this rt)) ->
  broadcast Any JSON_stringify message rt =
    (Normal tt,
     after (set_clients (filter (fun c => send_fails rt c = false)
                                (connectedClients (this rt))) rt)
           (flat_map (broadcast_effect rt d) (connectedClients (this rt)))).
Proof.
  intros Hd Hnd. unfold broadcast. unfold bind at 1, lift at 1. rewrite Hd.
  unfold bind at 1, gets at 1. cbn [fst snd].
  by rewrite (forEach_broadcast d (connectedClients (this rt)) [] rt).
Qed.

(** When the payload cannot be serialized, [broadcast] throws before it
    looks at the registry. *)
Lemma broadcast_throws (Any : Type) (JSON_stringify : Any -> completion Data) message e rt :
  JSON_stringify message = Throw e ->
  broadcast Any JSON_stringify message rt = (Throw e, rt).
Proof. intros Hd. unfold broadcast, bind, lift. by rewrite Hd. Qed.

Lemma deliveries_broadcast rt d clients :
  deliveries (flat_map (broadcast_effect rt d) clients) =
  map (fun c => (c, d)) (filter (fun c => reached rt c = true) clients).
Proof.
  induction clients as [|x clients IH]; [done|].
  cbn [flat_map]. rewrite deliveries_app, IH.
  unfold broadcast_effect at 1.
  destruct (reached rt x) eqn:Hr;
    [rewrite filter_cons_True by done | rewrite filter_cons_False by (rewrite Hr; done)];
    unfold reached in Hr;
    destruct (is_open rt x); simpl in *; try done;
    destruct (send_throws (sockets rt x)); simpl in *; done.
Qed.

Lemma received_broadcast_not_open rt d c clients :
  is_open rt c = false ->
  received c (flat_map (broadcast_effect rt d) clients) = [].
Proof.
  intros Hc. induction clients as [|x clients IH]; [done|].
  cbn [flat_map]. rewrite received_app, IH, app_nil_r.
  unfold broadcast_effect.
  destruct (is_open rt x) eqn:Hx; [|done].
  destruct (send_throws (sockets rt x)); [done|]. simpl.
  destruct (Nat.eqb x c) eqn:Hxc; [|done].
  apply Nat.eqb_eq in Hxc. congruence.
Qed.

Lemma filter_all {A} (P : A -> Prop) `{forall x, Decision (P x)} (l : list A) :
  (forall x, x ∈ l -> P x) -> filter P l = l.
Proof.
  induction l as [|x l IH]; intros Hall; [done|].
  rewrite filter_cons_True by (apply Hall; by left).
  rewrite IH; [done|]. intros y Hy. apply Hall. by right.
Qed.

Lemma reached_when_none_fails rt (clients : list Id) :
  (forall c, c ∈ clients -> send_fails rt c = false) ->
  filter (fun c => reached rt c = true) clients =
  filter (fun c => is_open rt c = true) clients.
Proof.
  induction clients as [|x clients IH]; intros Hall; [done|].
  assert (Hx : reached rt x = is_open rt x).
  { specialize (Hall x ltac:(by left)). unfold reached, send_fails in *.
    by destruct (is_open rt x), (send_throws (sockets rt x)). }
  rewrite !filter_cons, Hx, IH; [done|].
  intros c Hc. apply Hall. by right.
Qed.

(** C3, as the code has it.  [broadcast] serializes the payload once and
    sends that one string to every client of the registry that is open
    and whose [send] goes through, in registry order and to nobody
    else.  A client that is not open is skipped: it is sent nothing and
    it stays in the registry.  Only an open client whose [send] throws
    is removed.  So with M open clients and no failing [send] there are
    exactly M deliveries and the registry is unchanged. *)
Theorem broadcast_sends_to_open_clients_and_keeps_the_others
    (Any : Type) (JSON_stringify : Any -> completion Data) message d rt :
  JSON_stringify message = Normal d ->
  NoDup (connectedClients (this rt)) ->
  exists more rt',
    broadcast Any JSON_stringify message rt = (Normal tt, rt') /\
    rt' = after (set_clients (filter (fun c => send_fails rt c = false)
                                     (connectedClients (this rt))) rt) more /\
    deliveries more =
      map (fun c => (c, d))
          (filter (fun c => reached rt c = true) (connectedClients (this rt))) /\
    (forall c, c ∈ connectedClients (this rt) -> is_open rt c = false ->
       c ∈ connectedClients (this rt') /\ received c more = []) /\
    ((forall c, c ∈ connectedClients (this rt) -> send_fails rt c = false) ->
       connectedClients (this rt') = connectedClients (this rt) /\
       length (deliveries more) =
         length (filter (fun c => is_open rt c = true) (connectedClients (this rt)))).
Proof.
  intros Hd Hnd. do 2 eexists.
  split; [by apply broadcast_spec|]. split; [reflexivity|].
  split; [apply deliveries_broadcast|]. split.
  - intros c Hc Hclosed. split; [|by apply received_broadcast_not_open].
    cbn. apply list_elem_of_filter. split; [|done].
    unfold send_fails. by rewrite Hclosed.
  - intros Hall. split.
    + cbn. by apply filter_all.
    + by rewrite deliveries_broadcast, length_map, reached_when_none_fails.
Qed.

Lemma broadcast_sends_to_open_clients_and_keeps_the_others_witness :
  let rt := Demo.one_open_one_closing in
  exists more rt',
    broadcast string Demo.stringify "x" rt = (Normal tt, rt') /\
    deliveries more = [(3, Some (quote "x"))] /\
    connectedClients (this rt') = [3; 4].
Proof.
  intros rt.
  assert (Hnd : NoDup (connectedClients (this rt))).
  { apply (bool_decide_unpack _). vm_compute. exact I. }
  destruct (broadcast_sends_to_open_clients_and_keeps_the_others
              string Demo.stringify "x" (Some (quote "x")) rt eq_refl Hnd)
    as (more & rt' & H1 & H2 & H3 & _).
  exists more, rt'. split; [exact H1|]. split; [exact H3|].
  rewrite H2. reflexivity.
Defined.

(** C3 as stated fails: a client of the registry that is not open is
    skipped by [broadcast], not removed. *)
Lemma broadcast_does_not_remove_closed_clients :
  let rt := Demo.one_open_one_closing in
  let rt' := (broadcast string Demo.stringify "x" rt).2 in
  connectedClients (this rt) = [3; 4] /\
  is_open rt 3 = true /\ is_open rt 4 = false /\
  deliveries (drop (length (effects rt)) (effects rt')) = [(3, Some (quote "x"))] /\
  connectedClients (this rt') = [3; 4] /\
  ~ (forall c, c ∈ connectedClients (this rt) -> is_open rt c = false ->
               c ∉ connectedClients (this rt')).
Proof.
  repeat split; try (vm_compute; reflexivity).
  intros H. apply (H 4); vm_compute; [|reflexivity|]; by repeat constructor.
Qed.

(** ** Well-formed runtimes *)

Lemma listener_ok_mono n m l : n <= m -> listener_ok n l -> listener_ok m l.
Proof.
  intros Hnm (H1 & H2 & H3). split; [lia|]. split; [done|].
  intros p Hp. specialize (H3 p Hp). lia.
Qed.

Lemma bounded_mono n m rt : n <= m -> bounded n rt -> bounded m rt.
Proof.
  intros Hnm [H1 H2 H3 H4 H5]. split; [done|..].
  - eapply Forall_impl; [done|]. simpl. lia.
  - intros s Hs. specialize (H3 s Hs). lia.
  - intros w Hw. specialize (H4 w Hw). lia.
  - eapply Forall_impl; [done|]. intros l. by apply listener_ok_mono.
Qed.

Lemma bounded_after n rt more : bounded n rt -> bounded n (after rt more).
Proof. by intros []. Qed.

Lemma bounded_with_promises n rt f : bounded n rt -> bounded n (with_promises f rt).
Proof. by intros []. Qed.

Lemma bounded_with_sockets n rt f : bounded n rt -> bounded n (with_sockets f rt).
Proof. by intros []. Qed.

Lemma bounded_filter n rt f :
  bounded n rt -> bounded n (with_listeners (List.filter f) rt).
Proof.
  intros [H1 H2 H3 H4 H5]. split; try done. simpl.
  apply Forall_forall. intros l Hl. rewrite Forall_forall in H5. apply H5.
  apply list_elem_of_In in Hl. apply List.filter_In in Hl as [Hl _].
  by apply list_elem_of_In.
Qed.

Lemma bounded_listen n rt l :
  listener_ok n l -> bounded n rt ->
  bounded n (with_listeners (fun ls => ls ++ [l]) rt).
Proof.
  intros Hl [H1 H2 H3 H4 H5]. split; try done. simpl.
  apply Forall_app. split; [done|]. by apply Forall_singleton.
Qed.

Lemma bounded_set_isActive n rt v : bounded n rt -> bounded n (set_isActive v rt).2.
Proof. by intros []. Qed.

Lemma NoDup_Set_delete x (s : list Id) : NoDup s -> NoDup (Set_delete x s).
Proof. apply NoDup_filter. Qed.

Lemma NoDup_Set_add x (s : list Id) : NoDup s -> NoDup (Set_add x s).
Proof.
  intros Hs. unfold Set_add. destruct (Set_has x s) eqn:Hx; [done|].
  apply NoDup_app. split; [done|]. split; [|apply NoDup_singleton].
  intros y Hy Hy'. apply list_elem_of_singleton in Hy'. subst y.
  apply Set_has_elem in Hy. congruence.
Qed.

Lemma bounded_delete n rt x :
  bounded n rt -> bounded n (update_connectedClients (Set_delete x) rt).2.
Proof.
  intros [H1 H2 H3 H4 H5]. split; try done; simpl.
  - by apply NoDup_Set_delete.
  - apply Forall_forall. intros c Hc. rewrite Forall_forall in H2. apply H2.
    by apply list_elem_of_filter in Hc as [_ Hc].
Qed.

Lemma bounded_clear n rt :
  bounded n rt -> bounded n (update_connectedClients Set_clear rt).2.
Proof. intros [H1 H2 H3 H4 H5]. split; try done; simpl; constructor. Qed.

Lemma bounded_add n rt x :
  x < n -> bounded n rt -> bounded n (update_connectedClients (Set_add x) rt).2.
Proof.
  intros Hx [H1 H2 H3 H4 H5]. split; try done; simpl.
  - by apply NoDup_Set_add.
  - unfold Set_add. destruct (Set_has x _); [done|].
    apply Forall_app. split; [done|]. by apply Forall_singleton.
Qed.

Lemma settle_pending p v rt :
  promises rt !! p = Some Pending ->
  settle p v rt = (Normal tt, with_promises (fun ps => <[p := v]> ps) rt).
Proof.
  intros H. unfold settle, modify, with_promises. by rewrite H.
Qed.

Lemma settle_settled p v rt :
  promises rt !! p <> Some Pending -> settle p v rt = (Normal tt, rt).
Proof.
  intros H. unfold settle, modify, with_promises.
  destruct (promises rt !! p) as [[]|]; try done; by destruct rt.
Qed.

Lemma settle_lookup_other p q v rt :
  p <> q -> promises (settle p v rt).2 !! q = promises rt !! q.
Proof.
  intros Hpq. unfold settle, modify, with_promises. simpl.
  destruct (promises rt !! p) as [[]|]; try done. by rewrite lookup_insert_ne.
Qed.

Lemma stop_active_no_wss rt :
  isActive (this rt) = true ->
  wss (this rt) = None ->
  let p := next_id rt in
  stop rt =
    (Normal (ReturnedPromise p),
     mkRuntime
       (mkService (server (this rt)) None (port (this rt)) false [])
       (S p) (listeners rt) (<[p := Fulfilled]> (promises rt))
       (sockets rt) (effects rt)).
Proof.
  intros H Hw. unfold stop, bind, gets. simpl. rewrite H. simpl.
  destruct rt as [[srv w' prt act cl] n ls ps socks es]. simpl in *. subst w'.
  unfold resolve. rewrite settle_pending by apply lookup_insert_eq.
  unfold with_promises. simpl. by rewrite insert_insert_eq.
Qed.

Section Bounded.

Variable JSON_parse : string -> completion JSON.
Variable Any : Type.
Variable JSON_stringify : Any -> completion Data.
Variable n : Id.

Ltac bounded_keeps :=
  repeat first
    [ apply keeps_ret | apply keeps_gets
    | apply keeps_perform; intros ? ?; apply bounded_after
    | apply keeps_bind; [|intros ?]
    | apply keeps_modify; intros ? ?;
      first [ by apply bounded_with_promises
            | apply bounded_listen; [|assumption] ]
    | match goal with
      | |- keeps _ (set_isActive _) => intros ? ?; by apply bounded_set_isActive
      | |- keeps _ (update_connectedClients (Set_delete _)) =>
          intros ? ?; by apply bounded_delete
      | |- keeps _ (update_connectedClients Set_clear) =>
          intros ? ?; by apply bounded_clear
      end ].

Lemma bounded_on_connection ws : ws < n -> keeps (bounded n) (on_connection ws).
Proof.
  intros Hws. unfold on_connection, console_log, add_listener. bounded_keeps.
  - intros rt Hrt. by apply bounded_add.
  - by repeat split.
  - by repeat split.
  - by repeat split.
Qed.

Lemma bounded_wss_close_callback p : p < n -> keeps (bounded n) (wss_close_callback p).
Proof.
  intros Hp rt Hrt. unfold wss_close_callback, bind at 1, gets at 1. cbn [fst snd].
  destruct (server (this rt)) as [s|] eqn:Hs.
  - revert rt Hrt Hs.
    cut (keeps (fun rt => bounded n rt /\ server (this rt) = Some s)
           (perform (ServerClose s);; add_listener s Ev_close true (ServerCloseCallback p))).
    { intros Hk rt Hrt Hs. by apply Hk. }
    unfold add_listener. apply keeps_bind; [|intros _].
    + intros rt [Hrt Hs]. split; [by apply bounded_after | done].
    + apply keeps_modify. intros rt [Hrt Hs]. split; [|done].
      apply bounded_listen; [|done]. split; [by apply (bounded_server n rt)|].
      split; [done|]. by intros ? [= <-].
  - revert rt Hrt Hs.
    cut (keeps (bounded n)
           (set_isActive false;; update_connectedClients Set_clear;; resolve p)).
    { intros Hk rt Hrt _. by apply Hk. }
    unfold resolve, settle. bounded_keeps.
Qed.

Lemma Forall_List_filter {A} (P : A -> Prop) f (l : list A) :
  Forall P l -> Forall P (List.filter f l).
Proof.
  intros H. apply Forall_forall. intros x Hx. rewrite Forall_forall in H.
  apply H. apply list_elem_of_In in Hx. apply List.filter_In in Hx as [Hx _].
  by apply list_elem_of_In.
Qed.

Section BoundedEvents.

Variable reemit : Id -> EventName -> Arg -> M unit.
Hypothesis bounded_reemit :
  forall w name arg,
    (forall ws, arg = SocketArg ws -> ws < n) -> keeps (bounded n) (reemit w name arg).

Lemma bounded_call_with c arg :
  (forall p, closure_promise c = Some p -> p < n) ->
  (forall ws, arg = SocketArg ws -> ws < n) ->
  keeps (bounded n) (call_with JSON_parse reemit c arg).
Proof.
  intros Hc Harg. destruct c; simpl in Hc.
  - destruct arg; simpl; try apply keeps_ret.
    apply bounded_on_connection. by apply Harg.
  - destruct arg; simpl; try apply keeps_ret.
    apply keeps_try_catch.
    + apply keeps_only_effects; [apply bounded_after | apply on_message_only_effects].
    + intros e. apply keeps_perform. apply bounded_after.
  - simpl. unfold on_close, console_log. destruct arg; bounded_keeps.
  - destruct arg; simpl; try apply keeps_ret.
    unfold on_error, console_error. bounded_keeps.
  - unfold call_with, listen_callback, console_log, resolve, settle.
    destruct arg; bounded_keeps.
  - destruct arg; simpl; try apply keeps_ret.
    unfold server_error_handler, reject, settle. bounded_keeps.
  - assert (Hk := bounded_wss_close_callback promise (Hc _ eq_refl)).
    by destruct arg.
  - unfold call_with, server_close_callback, console_log, resolve, settle.
    destruct arg; bounded_keeps.
  - simpl. by apply bounded_reemit.
Qed.

Lemma bounded_call_all_with ls arg :
  Forall (listener_ok n) ls ->
  (forall ws, arg = SocketArg ws -> ws < n) ->
  keeps (bounded n) (call_all_with JSON_parse reemit ls arg).
Proof.
  intros Hls Harg. induction Hls as [|l ls Hl Hls IH]; simpl; [apply keeps_ret|].
  apply keeps_bind; [|by intros _].
  apply bounded_call_with; [|done]. by destruct Hl as (_ & _ & Hp).
Qed.

Lemma bounded_emit_with target name arg :
  (forall ws, arg = SocketArg ws -> ws < n) ->
  keeps (bounded n) (emit_with JSON_parse reemit target name arg).
Proof.
  intros Harg. apply keeps_emit_with. intros rt Hrt.
  unfold run_listeners_with, bind at 1, gets at 1. cbn [fst snd].
  unfold bind at 1, modify at 1. cbn [fst snd].
  apply bounded_call_all_with; [|done|by apply bounded_filter].
  apply Forall_List_filter. by destruct Hrt.
Qed.

End BoundedEvents.

Lemma bounded_emit_on_wss w name arg :
  (forall ws, arg = SocketArg ws -> ws < n) ->
  keeps (bounded n) (emit_on_wss JSON_parse w name arg).
Proof. apply bounded_emit_with. intros _ _ arg' _. apply keeps_ret. Qed.

Lemma bounded_call c arg :
  (forall p, closure_promise c = Some p -> p < n) ->
  (forall ws, arg = SocketArg ws -> ws < n) ->
  keeps (bounded n) (call JSON_parse c arg).
Proof. apply bounded_call_with, bounded_emit_on_wss. Qed.

Lemma bounded_call_all ls arg :
  Forall (listener_ok n) ls ->
  (forall ws, arg = SocketArg ws -> ws < n) ->
  keeps (bounded n) (call_all JSON_parse ls arg).
Proof. apply bounded_call_all_with, bounded_emit_on_wss. Qed.

Lemma bounded_emit target name arg :
  (forall ws, arg = SocketArg ws -> ws < n) ->
  keeps (bounded n) (emit JSON_parse target name arg).
Proof. apply bounded_emit_with, bounded_emit_on_wss. Qed.

End Bounded.

Lemma next_id_step (JSON_parse : string -> completion JSON) (Any : Type)
    (JSON_stringify : Any -> completion Data) i rt n :
  n <= next_id rt -> n <= next_id (step JSON_parse Any JSON_stringify i rt).
Proof.
  apply (stable_step JSON_parse Any JSON_stringify
           (fun rt => n <= next_id rt) (fun _ => True)); try done.
  intros rt' H. simpl. lia.
Qed.

Lemma wf_initial socks : wf (initial socks).
Proof. split; simpl; try done; constructor. Qed.

Lemma wf_step (JSON_parse : string -> completion JSON) (Any : Type)
    (JSON_stringify : Any -> completion Data) i rt :
  wf rt -> wf (step JSON_parse Any JSON_stringify i rt).
Proof.
  intros Hrt. unfold wf in *.
  assert (Hmono := next_id_step JSON_parse Any JSON_stringify i rt (next_id rt) (le_n _)).
  destruct i; simpl in *.
  - destruct (isActive (this rt)) eqn:Hact.
    + by rewrite start_active.
    + rewrite start_inactive by done. simpl.
      apply (bounded_mono _ (S (S (S (next_id rt))))) in Hrt; [|lia].
      destruct Hrt as [H1 H2 H3 H4 H5]. split; simpl; try done.
      * intros s [= <-]. lia.
      * intros w [= <-]. lia.
      * apply Forall_app. split; [done|].
        repeat (apply List.Forall_cons;
                [split; [simpl; lia | split; [reflexivity | simpl; intros ? [= <-]; lia]]|]).
        apply List.Forall_nil.
  - destruct (isActive (this rt)) eqn:Hact.
    + destruct (wss (this rt)) as [w|] eqn:Hw.
      * rewrite (stop_active rt w) by done. simpl.
        apply (bounded_mono _ (S (next_id rt))) in Hrt; [|lia].
        assert (Hwn := bounded_wss _ _ Hrt w Hw).
        destruct Hrt as [H1 H2 H3 H4 H5]. split; simpl; try done.
        apply Forall_app. split; [by apply Forall_List_filter|].
        repeat (apply List.Forall_cons;
                [split; [simpl; lia | split; [reflexivity | simpl; intros ? [= <-]; lia]]|]).
        apply List.Forall_nil.
      * rewrite stop_active_no_wss by done. simpl.
        apply (bounded_mono _ (S (next_id rt))) in Hrt; [|lia].
        destruct Hrt as [H1 H2 H3 H4 H5]. split; simpl; try done; constructor.
    + by rewrite stop_inactive.
  - eapply bounded_mono; [exact Hmono|].
    apply (stable_broadcast Any JSON_stringify (bounded (next_id rt))); try done.
    + intros. by apply bounded_after.
    + intros. by apply bounded_delete.
  - clear Hmono. unfold bind at 1. cbn [fst snd fresh].
    unfold bind at 1, modify at 1. cbn [fst snd].
    apply (bounded_mono (S (next_id rt))).
    { apply (stable_emit JSON_parse (fun rt' => S (next_id rt) <= next_id rt')
               (fun _ => True)); done. }
    apply bounded_emit.
    + intros ws [= <-]. lia.
    + apply bounded_with_sockets. simpl.
      apply (bounded_mono (next_id rt)); [lia|]. by destruct Hrt.
  - by apply bounded_with_sockets.
  - eapply bounded_mono; [exact Hmono|]. by apply bounded_emit.
  - eapply bounded_mono; [exact Hmono|]. by apply bounded_emit.
  - eapply bounded_mono; [exact Hmono|]. by apply bounded_emit.
  - eapply bounded_mono; [exact Hmono|]. by apply bounded_emit.
Qed.

(** Every runtime the service reaches from its construction is
    well-formed. *)
Lemma wf_run (JSON_parse : string -> completion JSON) (Any : Type)
    (JSON_stringify : Any -> completion Data) inputs rt :
  wf rt -> wf (run JSON_parse Any JSON_stringify inputs rt).
Proof.
  revert rt. induction inputs as [|i inputs IH]; intros rt Hrt; [done|].
  simpl. apply IH. by apply wf_step.
Qed.

(** ** A failed bind *)

Lemma no_listener_on_fresh target name (ls : list Listener) :
  Forall (fun l => emitter l < target) ls ->
  List.filter (listens target name) ls = [].
Proof.
  induction 1 as [|l ls Hl _ IH]; [done|]. simpl.
  unfold listens at 1. destruct (Nat.eqb_neq (emitter l) target) as [_ ->]; [done | lia].
Qed.

Lemma List_filter_all {A} (f : A -> bool) (l : list A) :
  (forall x, x ∈ l -> f x = true) -> List.filter f l = l.
Proof.
  induction l as [|x l IH]; intros H; [done|]. simpl.
  rewrite H by (by left). rewrite IH; [done|]. intros y Hy. apply H. by right.
Qed.

Lemma keep_when_none_listens target name (ls : list Listener) :
  List.filter (listens target name) ls = [] ->
  List.filter (fun l => negb (listens target name l && once l)) ls = ls.
Proof.
  intros H. apply List_filter_all. intros x Hx.
  destruct (listens target name x) eqn:Hlx; [|done].
  assert (Hin : In x (List.filter (listens target name) ls)).
  { apply List.filter_In. split; [by apply list_elem_of_In | done]. }
  rewrite H in Hin. destruct Hin.
Qed.

Lemma listeners_below (rt : Runtime) :
  wf rt -> Forall (fun l => emitter l < next_id rt) (listeners rt).
Proof.
  intros Hwf. eapply Forall_impl; [apply (bounded_listeners _ _ Hwf)|]. by intros l [].
Qed.

Lemma no_listener_above n target name (ls : list Listener) :
  Forall (fun l => emitter l < n) ls -> n <= target ->
  List.filter (listens target name) ls = [].
Proof.
  intros H Hn. apply no_listener_on_fresh. eapply Forall_impl; [exact H|]. simpl. lia.
Qed.

(** [emit] throws an ['error'] that has no listener, and otherwise runs
    the listeners of the event. *)
Section EmitGoes.

Variable JSON_parse : string -> completion JSON.
Variable reemit : Id -> EventName -> Arg -> M unit.

Lemma emit_with_unhandled target e rt :
  List.filter (listens target Ev_error) (listeners rt) = [] ->
  emit_with JSON_parse reemit target Ev_error (ErrorArg e) rt = (Throw e, rt).
Proof. intros H. unfold emit_with, bind, gets. cbn [fst snd]. by rewrite H. Qed.

Lemma emit_with_handled target name arg rt :
  unhandled name arg (List.filter (listens target name) (listeners rt)) = None ->
  emit_with JSON_parse reemit target name arg rt =
  run_listeners_with JSON_parse reemit target name arg rt.
Proof. intros H. unfold emit_with, bind at 1, gets at 1. cbn [fst snd]. by rewrite H. Qed.

Lemma run_listeners_with_eq target name arg rt :
  run_listeners_with JSON_parse reemit target name arg rt =
  call_all_with JSON_parse reemit (List.filter (listens target name) (listeners rt)) arg
    (with_listeners (List.filter (fun l => negb (listens target name l && once l))) rt).
Proof. reflexivity. Qed.

End EmitGoes.

(** An event other than ['error'] always runs its listeners. *)
Lemma emit_goes (JSON_parse : string -> completion JSON) target name arg rt :
  name <> Ev_error ->
  emit JSON_parse target name arg rt =
  call_all JSON_parse (List.filter (listens target name) (listeners rt)) arg
    (with_listeners (List.filter (fun l => negb (listens target name l && once l))) rt).
Proof.
  intros H. unfold emit. rewrite emit_with_handled; [done|]. by destruct name.
Qed.

Lemma with_listeners_same f rt : f (listeners rt) = listeners rt -> with_listeners f rt = rt.
Proof. intros H. unfold with_listeners. rewrite H. by destruct rt. Qed.

(** An event passed on to a WebSocket server that has no listener for
    it does nothing, unless it is an ['error']. *)
Lemma emit_on_wss_nobody (JSON_parse : string -> completion JSON) w name arg rt :
  name <> Ev_error ->
  List.filter (listens w name) (listeners rt) = [] ->
  emit_on_wss JSON_parse w name arg rt = (Normal tt, rt).
Proof.
  intros Hn H. unfold emit_on_wss. rewrite emit_with_handled by (rewrite H; by destruct name).
  rewrite run_listeners_with_eq, H. cbn [call_all_with]. unfold ret.
  by rewrite with_listeners_same by (by apply keep_when_none_listens).
Qed.

(** An ['error'] whose first listener passes it on to a WebSocket server
    without an ['error'] listener is thrown there: the listeners behind
    the first are not run, and nothing changes. *)
Lemma passed_on_error_is_thrown (JSON_parse : string -> completion JSON) s w e rt rest :
  List.filter (listens s Ev_error) (listeners rt) =
    mkListener s Ev_error false (ReEmit w Ev_error) :: rest ->
  Forall (fun l => once l = false) rest ->
  List.filter (listens w Ev_error) (listeners rt) = [] ->
  emit JSON_parse s Ev_error (ErrorArg e) rt = (Throw e, rt).
Proof.
  intros Hs Hrest Hw. unfold emit. rewrite emit_with_handled by (by rewrite Hs).
  rewrite run_listeners_with_eq, Hs. rewrite with_listeners_same.
  2:{ apply List_filter_all. intros x Hx.
      destruct (listens s Ev_error x) eqn:Hlx; [|done].
      assert (Hin : In x (List.filter (listens s Ev_error) (listeners rt))).
      { apply List.filter_In. split; [by apply list_elem_of_In | done]. }
      rewrite Hs in Hin. destruct Hin as [<-|Hin]; [done|].
      rewrite Forall_forall in Hrest. rewrite (Hrest x); [done|]. by apply list_elem_of_In. }
  cbn [call_all_with closure call_with]. unfold bind at 1.
  unfold emit_on_wss. by rewrite emit_with_unhandled.
Qed.

Ltac eqb_lia :=
  repeat match goal with
    | |- context [Nat.eqb ?a ?b] =>
        first [ rewrite (Nat.eqb_refl a)
              | let H := fresh in
                assert (H : Nat.eqb a b = false) by (apply Nat.eqb_neq; lia);
                rewrite H; clear H ]
    end.

(** The state right after [start], and the ['error'] event of its http
    server. *)
Lemma start_then_error (JSON_parse : string -> completion JSON) rt e :
  wf rt ->
  isActive (this rt) = false ->
  emit JSON_parse (next_id rt) Ev_error (ErrorArg e) (start rt).2 = (Throw e, (start rt).2).
Proof.
  intros Hwf Hact. set (s := next_id rt).
  assert (Hold := listeners_below rt Hwf). fold s in Hold.
  rewrite start_inactive by done. fold s. cbn [snd].
  unfold emit. rewrite emit_with_handled.
  2:{ cbn [listeners]. rewrite List.filter_app, (no_listener_on_fresh s Ev_error) by done.
      unfold listens. cbn [List.filter emitter event once]. rewrite Nat.eqb_refl.
      reflexivity. }
  rewrite run_listeners_with_eq. unfold with_listeners.
  cbn [this next_id listeners promises sockets effects].
  rewrite !List.filter_app, (no_listener_on_fresh s Ev_error) by done.
  rewrite (keep_when_none_listens s Ev_error (listeners rt))
    by (by apply no_listener_on_fresh).
  unfold listens. cbn [List.filter emitter event once]. rewrite Nat.eqb_refl.
  destruct (Nat.eqb_neq (S s) s) as [_ ->]; [|lia].
  cbn [andb negb EventName_eqb app call_all_with closure call_with].
  unfold bind at 1. fold (emit_on_wss JSON_parse). unfold emit_on_wss.
  rewrite emit_with_unhandled; [done|].
  cbn [listeners]. rewrite List.filter_app, (no_listener_above s (S s) Ev_error) by (done || lia).
  unfold listens. cbn [List.filter emitter event once]. rewrite Nat.eqb_refl.
  destruct (Nat.eqb_neq s (S s)) as [_ ->]; [|lia].
  reflexivity.
Qed.

(** C8.  A failed bind does not reach the caller of [start].  [start]
    puts its ['error'] handler, the one with [reject(error)], on the
    http server after the listener that [new WebSocketServer] has put
    there.  When the bind fails, the server's ['error'] event runs that
    first listener, which passes the error on to the WebSocket server;
    nobody listens there, so its [emit] throws the cause [e] and the
    handler of [start] is not run.  The promise [start] handed back
    stays pending and is not rejected, the event leaves the runtime as
    it was, and the service is not running. *)
Theorem failed_bind_leaves_start_pending
    (JSON_parse : string -> completion JSON) (Any : Type)
    (JSON_stringify : Any -> completion Data) rt e :
  wf rt ->
  isActive (this rt) = false ->
  let s := next_id rt in
  let p := S (S s) in
  let rt1 := (start rt).2 in
  let rt2 := step JSON_parse Any JSON_stringify (Emit_error s e) rt1 in
  (start rt).1 = Normal (ReturnedPromise p) /\
  effects rt1 = effects rt ++ [Listen s (getPort (this rt))] /\
  promises rt1 !! p = Some Pending /\
  emit JSON_parse s Ev_error (ErrorArg e) rt1 = (Throw e, rt1) /\
  rt2 = rt1 /\
  promises rt2 !! p = Some Pending /\
  promises rt2 !! p <> Some (Rejected e) /\
  isRunning (this rt2) = false.
Proof.
  intros Hwf Hact s p rt1 rt2.
  assert (Hthrow := start_then_error JSON_parse rt e Hwf Hact). fold s rt1 in Hthrow.
  assert (E : rt2 = rt1) by (subst rt2; cbn [step]; by rewrite Hthrow).
  assert (Hp : promises rt1 !! p = Some Pending).
  { subst rt1. rewrite start_inactive by done. apply lookup_insert_eq. }
  split; [subst rt1; by rewrite start_inactive|].
  split; [subst rt1; by rewrite start_inactive|].
  split; [exact Hp|]. split; [exact Hthrow|]. split; [exact E|].
  rewrite E. split; [exact Hp|]. split; [by rewrite Hp|].
  subst rt1. rewrite start_inactive by done. exact Hact.
Qed.

Lemma failed_bind_leaves_start_pending_witness :
  let e := OtherError "listen EADDRINUSE: address already in use :::3001" in
  let rt1 := Demo.go [Call_start] in
  let rt2 := Demo.go [Call_start; Emit_error 0 e] in
  (start Demo.boot).1 = Normal (ReturnedPromise 2) /\
  emit Demo.parse 0 Ev_error (ErrorArg e) rt1 = (Throw e, rt1) /\
  promises rt2 !! 2 = Some Pending /\
  isRunning (this rt2) = false.
Proof.
  intros e rt1 rt2.
  destruct (failed_bind_leaves_start_pending Demo.parse string Demo.stringify Demo.boot e
              (wf_initial _) eq_refl)
    as (H1 & _ & _ & H4 & _ & H6 & _ & H8).
  split; [exact H1|]. split; [exact H4|]. split; [exact H6 | exact H8].
Defined.

(** ** After [stop] *)

Section AfterStop.

Variable JSON_parse : string -> completion JSON.
Variable Any : Type.
Variable JSON_stringify : Any -> completion Data.

(** The promise of the [stop] under study. *)
Variable p : Id.

Let Q (rt : Runtime) : Prop := Forall (quiet p) (listeners rt).

Lemma Q_after rt more : Q rt -> Q (after rt more).
Proof. done. Qed.

Lemma Q_listen rt l : quiet p l -> Q rt -> Q (with_listeners (fun ls => ls ++ [l]) rt).
Proof. intros Hl H. apply Forall_app. split; [done|]. by apply Forall_singleton. Qed.

Ltac Q_keeps :=
  repeat first
    [ apply keeps_ret | apply keeps_gets
    | apply keeps_perform; intros ? ?; apply Q_after
    | apply keeps_bind; [|intros ?]
    | apply keeps_modify; intros ? ?; first [ assumption | apply Q_listen; [|assumption] ]
    | match goal with
      | |- keeps _ (match ?x with _ => _ end) => destruct x
      | |- keeps _ (set_isActive _) => intros ? ?; assumption
      | |- keeps _ (update_connectedClients _) => intros ? ?; assumption
      end ].

Section QuietEvents.

Variable reemit : Id -> EventName -> Arg -> M unit.
Hypothesis Q_reemit : forall w name arg, keeps Q (reemit w name arg).

Lemma Q_call_with c arg : keeps Q (call_with JSON_parse reemit c arg).
Proof.
  destruct c, arg; simpl; try apply Q_reemit;
    unfold on_connection, on_close, on_error, listen_callback,
      server_error_handler, wss_close_callback, server_close_callback,
      add_listener, resolve, reject, settle, console_log, console_error;
    Q_keeps; try (by repeat split);
    try (apply keeps_try_catch;
         [ apply keeps_only_effects; [apply Q_after | apply on_message_only_effects]
         | intros e; apply keeps_perform; apply Q_after ]).
Qed.

Lemma Q_call_all_with ls arg : keeps Q (call_all_with JSON_parse reemit ls arg).
Proof.
  induction ls as [|l ls IH]; simpl; [apply keeps_ret|].
  apply keeps_bind; [apply Q_call_with | by intros _].
Qed.

Lemma Q_emit_with target name arg : keeps Q (emit_with JSON_parse reemit target name arg).
Proof.
  apply keeps_emit_with. unfold run_listeners_with.
  apply keeps_bind; [apply keeps_gets|]. intros ls.
  apply keeps_bind; [|intros _; apply Q_call_all_with].
  apply keeps_modify. intros rt. apply Forall_List_filter.
Qed.

End QuietEvents.

Lemma Q_emit_on_wss w name arg : keeps Q (emit_on_wss JSON_parse w name arg).
Proof. apply Q_emit_with. intros _ _ _. apply keeps_ret. Qed.

Lemma Q_call c arg : keeps Q (call JSON_parse c arg).
Proof. apply Q_call_with, Q_emit_on_wss. Qed.

Lemma Q_emit target name arg : keeps Q (emit JSON_parse target name arg).
Proof. apply Q_emit_with, Q_emit_on_wss. Qed.

Lemma stop_promise_step i rt :
  stop_promise p rt -> stop_promise p (step JSON_parse Any JSON_stringify i rt).
Proof.
  intros [Hp HQ]. split.
  { apply (next_id_step JSON_parse Any JSON_stringify i rt (S p)). lia. }
  fold (Q (step JSON_parse Any JSON_stringify i rt)). fold (Q rt) in HQ.
  destruct i; simpl.
  - destruct (isActive (this rt)) eqn:Hact.
    + by rewrite start_active.
    + rewrite start_inactive by done. apply Forall_app. split; [done|].
      repeat (apply List.Forall_cons;
              [split; [|split]; simpl; try done; intros [= H]; lia|]).
      apply List.Forall_nil.
  - destruct (isActive (this rt)) eqn:Hact.
    + destruct (wss (this rt)) as [w|] eqn:Hw.
      * rewrite (stop_active rt w) by done. apply Forall_app.
        split; [by apply Forall_List_filter|]. by apply Forall_singleton.
      * by rewrite stop_active_no_wss.
    + by rewrite stop_inactive.
  - apply (stable_broadcast Any JSON_stringify Q); done.
  - unfold bind at 1. cbn [fst snd fresh]. unfold bind at 1, modify at 1.
    cbn [fst snd]. by apply Q_emit.
  - done.
  - by apply Q_emit.
  - by apply Q_emit.
  - by apply Q_emit.
  - by apply Q_emit.
Qed.

Let J : Runtime -> Prop := pending_or_cleared p.
Let cleared (rt : Runtime) : Prop := connectedClients (this rt) = [].
Let pending (rt : Runtime) : Prop := promises rt !! p = Some Pending.

Lemma J_settle q v : q <> p -> keeps J (settle q v).
Proof.
  intros Hq rt [H|H]; [left | by right].
  unfold pending_or_cleared. by rewrite settle_lookup_other.
Qed.

Lemma J_delete x : keeps J (update_connectedClients (Set_delete x)).
Proof.
  intros rt [H|H]; [by left | right]. simpl. by rewrite H.
Qed.

Lemma cleared_settle q v : keeps cleared (settle q v).
Proof. by intros rt H. Qed.

(** The tail shared by the two [close] callbacks of [stop]: the registry
    is cleared before the promise is resolved. *)
Lemma J_clear_then (k : M unit) :
  keeps cleared k ->
  keeps J (set_isActive false;; update_connectedClients Set_clear;; k).
Proof.
  intros Hk rt _. right. unfold bind, set_isActive, update_connectedClients, modify.
  cbn [fst snd]. by apply Hk.
Qed.

Ltac J_keeps :=
  repeat first
    [ apply keeps_ret | apply keeps_gets
    | apply keeps_perform; intros ? ?; assumption
    | apply J_settle; congruence
    | apply J_delete
    | apply keeps_bind; [|intros ?]
    | apply keeps_modify; intros ? ?; assumption
    | match goal with
      | |- keeps _ (set_isActive _) => intros ? ?; assumption
      end ].

(** What a listener does that is none of [p]'s and passes nothing on. *)
Lemma J_call_with reemit c arg :
  c <> ListenCallback p -> c <> ServerErrorHandler p ->
  (forall w name, c <> ReEmit w name) ->
  (forall ws, arg <> SocketArg ws) ->
  keeps J (call_with JSON_parse reemit c arg).
Proof.
  intros H1 H2 H3 Harg. destruct c.
  - destruct arg; simpl; try apply keeps_ret. by destruct (Harg ws).
  - destruct arg; simpl; try apply keeps_ret.
    apply keeps_try_catch.
    + apply keeps_only_effects; [done | apply on_message_only_effects].
    + intros e. by apply keeps_perform.
  - simpl. unfold on_close, console_log. destruct arg; J_keeps.
  - destruct arg; simpl; try apply keeps_ret.
    unfold on_error, console_error. J_keeps.
  - unfold call_with, listen_callback, console_log, resolve. destruct arg; J_keeps.
  - destruct arg; simpl; try apply keeps_ret.
    unfold server_error_handler, reject. J_keeps.
  - assert (Hk : keeps J (wss_close_callback promise)); [|by destruct arg].
    intros rt Hrt. unfold wss_close_callback, bind at 1, gets at 1. cbn [fst snd].
    destruct (server (this rt)) as [s|].
    + revert rt Hrt. unfold add_listener. J_keeps.
    + revert rt Hrt. apply J_clear_then. unfold resolve. apply cleared_settle.
  - assert (Hk : keeps J (server_close_callback promise)); [|by destruct arg].
    unfold server_close_callback. apply J_clear_then.
    unfold console_log, resolve.
    apply keeps_bind; [by apply keeps_perform | intros _; apply cleared_settle].
  - by destruct (H3 wss0 name).
Qed.

(** With the listeners all quiet, an event that is no connection keeps
    [J]: the listeners it runs, also those of an event passed on, are
    taken from the table. *)
Let QJ (rt : Runtime) : Prop := Q rt /\ J rt.

Section PendingEvents.

Variable reemit : Id -> EventName -> Arg -> M unit.
Hypothesis Q_reemit : forall w name arg, keeps Q (reemit w name arg).
Hypothesis QJ_reemit :
  forall w name arg, (forall ws, arg <> SocketArg ws) -> keeps QJ (reemit w name arg).

Lemma QJ_call_with c arg :
  c <> ListenCallback p -> c <> ServerErrorHandler p ->
  (forall ws, arg <> SocketArg ws) ->
  keeps QJ (call_with JSON_parse reemit c arg).
Proof.
  intros H1 H2 Harg.
  assert (Hc : (exists w name, c = ReEmit w name) \/ (forall w name, c <> ReEmit w name)).
  { destruct c; try (by right); left; eauto. }
  destruct Hc as [(w & name & ->)|Hc].
  - simpl. by apply QJ_reemit.
  - intros rt [HQ HJ]. split; [by apply Q_call_with | by apply J_call_with].
Qed.

Lemma QJ_call_all_with ls arg :
  Forall (quiet p) ls ->
  (forall ws, arg <> SocketArg ws) ->
  keeps QJ (call_all_with JSON_parse reemit ls arg).
Proof.
  intros Hls Harg. induction Hls as [|l ls Hl _ IH]; simpl; [apply keeps_ret|].
  apply keeps_bind; [|by intros _].
  destruct Hl as (H1 & H2 & _). by apply QJ_call_with.
Qed.

Lemma QJ_emit_with target name arg :
  (forall ws, arg <> SocketArg ws) ->
  keeps QJ (emit_with JSON_parse reemit target name arg).
Proof.
  intros Harg. apply keeps_emit_with. intros rt [HQ HJ].
  unfold run_listeners_with, bind at 1, gets at 1. cbn [fst snd].
  unfold bind at 1, modify at 1. cbn [fst snd].
  apply QJ_call_all_with; [by apply Forall_List_filter | done |].
  split; [by apply Forall_List_filter | done].
Qed.

End PendingEvents.

Lemma QJ_emit_on_wss w name arg :
  (forall ws, arg <> SocketArg ws) -> keeps QJ (emit_on_wss JSON_parse w name arg).
Proof. apply QJ_emit_with; intros; apply keeps_ret. Qed.

Lemma J_emit target name arg rt :
  Q rt -> J rt ->
  (forall ws, arg <> SocketArg ws) ->
  J (emit JSON_parse target name arg rt).2.
Proof.
  intros HQ HJ Harg.
  by apply (QJ_emit_with (emit_on_wss JSON_parse) Q_emit_on_wss QJ_emit_on_wss
              target name arg Harg rt).
Qed.

(** A ['connection'] event only runs [connection] callbacks, which
    settle no promise. *)
Lemma pending_on_connection ws : keeps pending (on_connection ws).
Proof. unfold on_connection, console_log, add_listener. by intros rt H. Qed.

Lemma Forall_listens target name (ls : list Listener) :
  Forall (fun l => event l = name) (List.filter (listens target name) ls).
Proof.
  apply Forall_forall. intros l Hl. apply list_elem_of_In in Hl.
  apply List.filter_In in Hl as [_ Hl]. unfold listens in Hl.
  apply andb_true_iff in Hl as [_ Hl]. by destruct (event l), name.
Qed.

Let QP (rt : Runtime) : Prop := Q rt /\ pending rt.

Section ConnectionEvents.

Variable reemit : Id -> EventName -> Arg -> M unit.
Hypothesis Q_reemit : forall w name arg, keeps Q (reemit w name arg).
Hypothesis QP_reemit :
  forall w ws, keeps QP (reemit w Ev_connection (SocketArg ws)).

Lemma pending_call_all_connection_with ls ws :
  Forall (quiet p) ls ->
  Forall (fun l => event l = Ev_connection) ls ->
  keeps QP (call_all_with JSON_parse reemit ls (SocketArg ws)).
Proof.
  intros Hq Hev. induction Hq as [|l ls Hl _ IH]; simpl; [apply keeps_ret|].
  apply Forall_cons in Hev as [Hev1 Hev]. apply keeps_bind; [|intros _; by apply IH].
  destruct Hl as (_ & _ & Hl). rewrite Hev1 in Hl.
  destruct (closure l) as [| | | | | | | |w name] eqn:Hc; try discriminate.
  - intros rt [HQ HP]. split.
    + by apply (Q_call_with reemit Q_reemit OnConnection (SocketArg ws)).
    + by apply pending_on_connection.
  - simpl in Hl. subst name. simpl. apply QP_reemit.
Qed.

Lemma pending_emit_connection_with w ws :
  keeps QP (emit_with JSON_parse reemit w Ev_connection (SocketArg ws)).
Proof.
  apply keeps_emit_with. intros rt [HQ HP].
  unfold run_listeners_with, bind at 1, gets at 1. cbn [fst snd].
  unfold bind at 1, modify at 1. cbn [fst snd].
  apply pending_call_all_connection_with;
    [by apply Forall_List_filter | apply Forall_listens |].
  split; [by apply Forall_List_filter | done].
Qed.

End ConnectionEvents.

Lemma pending_emit_connection w ws :
  keeps QP (emit JSON_parse w Ev_connection (SocketArg ws)).
Proof.
  apply pending_emit_connection_with; [apply Q_emit_on_wss|].
  intros w' ws'. apply pending_emit_connection_with; intros; apply keeps_ret.
Qed.

(** One input, starting while [p] is pending: afterwards [p] is still
    pending, or the registry is empty. *)
Lemma pending_step i rt :
  stop_promise p rt -> pending rt ->
  J (step JSON_parse Any JSON_stringify i rt).
Proof.
  intros [Hp HQ] Hpend. fold (Q rt) in HQ. destruct i; simpl.
  - left. destruct (isActive (this rt)) eqn:Hact.
    + by rewrite start_active.
    + rewrite start_inactive by done. simpl. rewrite lookup_insert_ne; [done | lia].
  - destruct (isActive (this rt)) eqn:Hact.
    + destruct (wss (this rt)) as [w|] eqn:Hw.
      * left. rewrite (stop_active rt w) by done. simpl.
        rewrite lookup_insert_ne; [done | lia].
      * right. by rewrite stop_active_no_wss.
    + left. by rewrite stop_inactive.
  - left. by apply (stable_broadcast Any JSON_stringify pending).
  - left. unfold bind at 1. cbn [fst snd fresh]. unfold bind at 1, modify at 1.
    cbn [fst snd]. by apply pending_emit_connection.
  - by left.
  - apply J_emit; [done | by left | done].
  - apply J_emit; [done | by left | done].
  - apply J_emit; [done | by left | done].
  - apply J_emit; [done | by left | done].
Qed.

(** The invariant that holds from the call of [stop] on. *)
Lemma after_stop_step i rt :
  stop_promise p rt /\ pending_or_newer p rt ->
  let rt' := step JSON_parse Any JSON_stringify i rt in
  stop_promise p rt' /\ pending_or_newer p rt'.
Proof.
  intros [Hs Hn] rt'. split; [by apply stop_promise_step|].
  destruct Hn as [Hpend | Hnew].
  - destruct (pending_step i rt Hs Hpend) as [H|H]; [by left | right].
    subst rt'. rewrite H. constructor.
  - right.
    cut (p < next_id rt' /\ Forall (fun c => p < c) (connectedClients (this rt'))).
    { by intros []. }
    apply (stable_step JSON_parse Any JSON_stringify
             (fun rt => p < next_id rt /\
                        Forall (fun c => p < c) (connectedClients (this rt)))
             (fun ws => p < ws)); try done.
    + intros rt0 [H1 H2]. split; [simpl; lia | done].
    + intros rt0 x [H1 H2]. split; [done|]. simpl.
      apply Forall_forall. intros c Hc. rewrite Forall_forall in H2. apply H2.
      by apply list_elem_of_filter in Hc as [_ Hc].
    + intros rt0 [H1 H2]. split; [done|]. constructor.
    + intros rt0 x Hx [H1 H2]. split; [done|]. simpl. unfold Set_add.
      destruct (Set_has x _); [done|]. apply Forall_app. split; [done|].
      by apply Forall_singleton.
    + by intros rt0 [H1 H2].
    + by destruct Hs.
Qed.

Lemma after_stop_run inputs rt :
  stop_promise p rt /\ pending_or_newer p rt ->
  let rt' := run JSON_parse Any JSON_stringify inputs rt in
  stop_promise p rt' /\ pending_or_newer p rt'.
Proof.
  revert rt. induction inputs as [|i inputs IH]; intros rt H; [done|].
  simpl. apply IH. by apply after_stop_step.
Qed.

End AfterStop.

Lemma received_broadcast_absent rt d c (clients : list Id) :
  c ∉ clients -> received c (flat_map (broadcast_effect rt d) clients) = [].
Proof.
  induction clients as [|x clients IH]; intros Hc; [done|].
  apply not_elem_of_cons in Hc as [Hcx Hc].
  cbn [flat_map]. rewrite received_app, IH, app_nil_r by done.
  unfold broadcast_effect. destruct (is_open rt x); [|done].
  destruct (send_throws (sockets rt x)); [done|]. simpl.
  destruct (Nat.eqb x c) eqn:Hxc; [|done].
  apply Nat.eqb_eq in Hxc. congruence.
Qed.

(** A socket that is not in the registry gets nothing from [broadcast]. *)
Lemma broadcast_skips_absent (Any : Type) (JSON_stringify : Any -> completion Data)
    message rt c :
  NoDup (connectedClients (this rt)) ->
  c ∉ connectedClients (this rt) ->
  exists more,
    effects (broadcast Any JSON_stringify message rt).2 = effects rt ++ more /\
    received c more = [].
Proof.
  intros Hnd Hc. destruct (JSON_stringify message) as [d|e] eqn:Hd.
  - rewrite (broadcast_spec Any JSON_stringify message d) by done.
    eexists. split; [reflexivity|]. by apply received_broadcast_absent.
  - rewrite (broadcast_throws Any JSON_stringify message e) by done.
    exists []. by rewrite app_nil_r.
Qed.

Lemma stop_promise_after_stop rt :
  wf rt -> isActive (this rt) = true ->
  let p := next_id rt in
  stop_promise p (stop rt).2 /\ pending_or_newer p (stop rt).2.
Proof.
  intros Hwf Hact p.
  assert (Hq : Forall (quiet p) (listeners rt)).
  { eapply Forall_impl; [apply (bounded_listeners _ _ Hwf)|].
    intros l (_ & Hev & Hpr). split; [|split; [|done]].
    - intros E. specialize (Hpr p). rewrite E in Hpr. specialize (Hpr eq_refl).
      subst p. lia.
    - intros E. specialize (Hpr p). rewrite E in Hpr. specialize (Hpr eq_refl).
      subst p. lia. }
  destruct (wss (this rt)) as [w|] eqn:Hw.
  - rewrite (stop_active rt w) by done. split; [split|]; simpl.
    + lia.
    + apply Forall_app. split; [by apply Forall_List_filter|]. by apply Forall_singleton.
    + left. simpl. apply lookup_insert_eq.
  - rewrite stop_active_no_wss by done. split; [split|]; simpl.
    + lia.
    + done.
    + right. constructor.
Qed.

(** C7.  [stop] on a running service hands back a promise.  When that
    promise is fulfilled the registry is empty; and from then on, whatever
    happens next, no connection that was in the registry when [stop] was
    called is in it again, so no later [broadcast] sends it anything. *)
Theorem after_stop_completes_no_broadcast_reaches_old_connections
    (JSON_parse : string -> completion JSON) (Any : Type)
    (JSON_stringify : Any -> completion Data) rt :
  wf rt ->
  isActive (this rt) = true ->
  let p := next_id rt in
  let rt1 := (stop rt).2 in
  (stop rt).1 = Normal (ReturnedPromise p) /\
  (promises rt1 !! p = Some Fulfilled -> connectedClients (this rt1) = []) /\
  (forall inputs i,
     let rt2 := run JSON_parse Any JSON_stringify inputs rt1 in
     let rt3 := step JSON_parse Any JSON_stringify i rt2 in
     promises rt2 !! p = Some Pending ->
     promises rt3 !! p = Some Fulfilled ->
     connectedClients (this rt3) = []) /\
  (forall inputs,
     let rt2 := run JSON_parse Any JSON_stringify inputs rt1 in
     promises rt2 !! p = Some Fulfilled ->
     forall c, c ∈ connectedClients (this rt) ->
       (c ∉ connectedClients (this rt2)) /\
       forall message, exists more,
         effects (broadcast Any JSON_stringify message rt2).2 = effects rt2 ++ more /\
         received c more = []).
Proof.
  intros Hwf Hact p rt1.
  assert (HK := stop_promise_after_stop rt Hwf Hact). fold p rt1 in HK.
  assert (Hwf1 : wf rt1).
  { apply (wf_step JSON_parse Any JSON_stringify Call_stop rt Hwf). }
  split.
  { destruct (wss (this rt)) as [w|] eqn:Hw.
    - by rewrite (stop_active rt w).
    - by rewrite stop_active_no_wss. }
  split.
  { intros Hf. subst rt1. destruct (wss (this rt)) as [w|] eqn:Hw.
    - rewrite (stop_active rt w) in Hf by done. simpl in Hf.
      rewrite lookup_insert_eq in Hf. discriminate.
    - by rewrite stop_active_no_wss. }
  split.
  { intros inputs i rt2 rt3 Hpend Hf.
    destruct (after_stop_run JSON_parse Any JSON_stringify p inputs rt1 HK) as [Hs _].
    destruct (pending_step JSON_parse Any JSON_stringify p i _ Hs Hpend) as [H|H];
      [|done].
    fold rt2 rt3 in H. rewrite H in Hf. discriminate. }
  intros inputs rt2 Hf c Hc.
  destruct (after_stop_run JSON_parse Any JSON_stringify p inputs rt1 HK) as [_ Hn].
  fold rt2 in Hn.
  assert (Hwf2 : wf rt2) by by apply wf_run.
  assert (Hout : c ∉ connectedClients (this rt2)).
  { destruct Hn as [Hn|Hn]; [rewrite Hn in Hf; discriminate|].
    intros Hin. rewrite Forall_forall in Hn. specialize (Hn c Hin).
    assert (Hold := bounded_clients _ _ Hwf). rewrite Forall_forall in Hold.
    specialize (Hold c Hc). subst p. lia. }
  split; [done|]. intros message.
  apply broadcast_skips_absent; [|done]. by destruct Hwf2.
Qed.

Lemma after_stop_completes_no_broadcast_reaches_old_connections_witness :
  let rt := Demo.running_with_client in
  let rt2 := run Demo.parse string Demo.stringify [Emit_close 1; Emit_close 0]
               (stop rt).2 in
  connectedClients (this rt) = [3] /\
  promises rt2 !! 4 = Some Fulfilled /\
  (3 ∉ connectedClients (this rt2)) /\
  exists more,
    effects (broadcast string Demo.stringify "x" rt2).2 = effects rt2 ++ more /\
    received 3 more = [].
Proof.
  intros rt rt2.
  assert (Hwf : wf rt).
  { apply wf_run, wf_initial. }
  destruct (after_stop_completes_no_broadcast_reaches_old_connections
              Demo.parse string Demo.stringify rt Hwf eq_refl)
    as (_ & _ & _ & H).
  assert (Hin : 3 ∈ connectedClients (this rt)).
  { vm_compute. by left. }
  destruct (H [Emit_close 1; Emit_close 0] eq_refl 3 Hin) as [H1 H2].
  split; [reflexivity|]. split; [reflexivity|]. split; [exact H1|]. apply H2.
Defined.

(** ** From the events to the handler *)

(** A ['message'] event on a socket that has its one message callback
    runs [on_message] for it, and nothing else. *)
Lemma message_event_runs_handler
    (JSON_parse : string -> completion JSON) (Any : Type)
    (JSON_stringify : Any -> completion Data) ws message host rt rt' l :
  List.filter (listens ws Ev_message) (listeners rt) = [l] ->
  closure l = OnMessage ws ->
  once l = false ->
  on_message JSON_parse ws message host rt = (Normal tt, rt') ->
  step JSON_parse Any JSON_stringify (Emit_message ws message host) rt = rt'.
Proof.
  intros Hl Hc Ho Hrun. simpl. rewrite emit_goes by done. rewrite Hl.
  assert (E : with_listeners
                (List.filter (fun l0 => negb (listens ws Ev_message l0 && once l0))) rt = rt).
  { unfold with_listeners. rewrite List_filter_all; [by destruct rt|].
    intros x Hx. destruct (listens ws Ev_message x) eqn:Hlx; [|done].
    assert (Hin : In x (List.filter (listens ws Ev_message) (listeners rt))).
    { apply List.filter_In. split; [by apply list_elem_of_In | done]. }
    rewrite Hl in Hin. destruct Hin as [<-|[]]. by rewrite Ho. }
  rewrite E. unfold call_all. cbn [call_all_with]. rewrite Hc. cbn [call_with].
  unfold bind, try_catch. by rewrite Hrun.
Qed.

(** A session from the constructor on: the server starts and listens, a
    client connects, sends a chat frame, a frame that does not parse, a
    chat frame without text, and one more chat frame on which the host
    fails. *)
Example session_effects :
  effects (Demo.go [Call_start; Emit_listening 0; Accept 1 Demo.open_socket;
                    Emit_message 3 Demo.hello_frame Demo.host_ok;
                    Emit_message 3 "{oops" Demo.host_ok;
                    Emit_message 3 Demo.empty_chat_frame Demo.host_ok;
                    Emit_message 3 Demo.hello_frame Demo.host_failing]) =
  [Listen 0 3001;
   ConsoleLog "WebSocket server started on port 3001";
   ConsoleLog "WebSocket client connected";
   Sent 3 (wire chat_started); ImportVscode;
   ExecuteCommand "workbench.action.chat.open" [[("query", Some (JString "hello"))]];
   Sent 3 (wire chat_opened);
   ConsoleError "Error processing WebSocket message:" (SyntaxError "Unexpected token");
   Sent 3 (wire failed_to_process);
   Sent 3 (wire invalid_format);
   Sent 3 (wire chat_started); ImportVscode;
   ExecuteCommand "workbench.action.chat.open" [[("query", Some (JString "hello"))]];
   ConsoleError "Error processing WebSocket message:" (OtherError "command failed");
   Sent 3 (wire failed_to_process)].
Proof. vm_compute. reflexivity. Qed.

(** Start, one client, stop: the two [close] callbacks run in turn and
    leave the service stopped with an empty registry. *)
Example stop_session :
  let rt := Demo.go [Call_start; Emit_listening 0; Accept 1 Demo.open_socket;
                     Call_stop; Emit_close 1; Emit_close 0] in
  this rt = mkService (Some 0) (Some 1) 3001 false [] /\
  promises rt !! 4 = Some Fulfilled /\
  effects rt =
    [Listen 0 3001;
     ConsoleLog "WebSocket server started on port 3001";
     ConsoleLog "WebSocket client connected";
     WssClose 1; ServerClose 0;
     ConsoleLog "WebSocket server stopped"].
Proof. repeat split; vm_compute; reflexivity. Qed.

(** * Further properties of the message handler *)

Section HandlerEdges.

Variable JSON_parse : string -> completion JSON.

Ltac step_handler :=
  repeat first
    [ progress rewrite ?after_after
    | rewrite send_frame_ok by (rewrite ?sockets_after; assumption)
    | progress (unfold await_import, await_executeCommand, console_error)
    | rewrite perform_after
    | progress (unfold bind, try_catch, lift, ret; simpl) ].

Lemma send_frame_throws ws f rt e :
  send_throws (sockets rt ws) = Some e ->
  send_frame ws f rt = (Throw e, rt).
Proof.
  intros Hs. unfold send_frame, ws_send, bind, gets, throw. by rewrite Hs.
Qed.

Lemma on_message_clear_import_fails ws message host rt props e :
  JSON_parse message = Normal (JObject props) ->
  assoc "type" props = Some (JString "clear_history") ->
  send_throws (sockets rt ws) = None ->
  import_vscode host = Throw e ->
  on_message JSON_parse ws message host rt =
    (Normal tt,
     after rt [Sent ws (wire clear_started); ImportVscode;
               ConsoleError "Error processing WebSocket message:" e;
               Sent ws (wire failed_to_process)]).
Proof.
  intros Hp Ht Hs Hi.
  unfold on_message. unfold bind at 1, lift at 1, try_catch. rewrite Hp.
  simpl get_property. step_handler. rewrite Ht. simpl.
  step_handler. rewrite Hi. step_handler. done.
Qed.

Lemma on_message_clear_command_fails ws message host rt props e :
  JSON_parse message = Normal (JObject props) ->
  assoc "type" props = Some (JString "clear_history") ->
  send_throws (sockets rt ws) = None ->
  import_vscode host = Normal tt ->
  executeCommand host "workbench.action.chat.clearHistory" [] = Throw e ->
  on_message JSON_parse ws message host rt =
    (Normal tt,
     after rt [Sent ws (wire clear_started); ImportVscode;
               ExecuteCommand "workbench.action.chat.clearHistory" [];
               ConsoleError "Error processing WebSocket message:" e;
               Sent ws (wire failed_to_process)]).
Proof.
  intros Hp Ht Hs Hi He.
  unfold on_message. unfold bind at 1, lift at 1, try_catch. rewrite Hp.
  simpl get_property. step_handler. rewrite Ht. simpl.
  step_handler. rewrite Hi. step_handler. rewrite He. step_handler. done.
Qed.

Lemma on_message_unrecognized ws message host rt data type :
  JSON_parse message = Normal data ->
  get_property data "type" = Normal type ->
  strict_equals_string type "chat" = false ->
  strict_equals_string type "clear_history" = false ->
  send_throws (sockets rt ws) = None ->
  on_message JSON_parse ws message host rt =
    (Normal tt, after rt [Sent ws (wire invalid_format)]).
Proof.
  intros Hp Ht Hc Hh Hs.
  unfold on_message. unfold bind at 1, lift at 1, try_catch. rewrite Hp.
  cbn -[get_property send_frame]. unfold lift. rewrite Ht, Hc.
  cbn -[get_property send_frame]. rewrite Hh. by rewrite send_frame_ok.
Qed.

(** When the socket refuses to send, the first [send] of any branch
    throws into the [catch] block, whose own [send] throws out of the
    handler. *)
Lemma on_message_send_throws ws message host rt e :
  send_throws (sockets rt ws) = Some e ->
  exists logged,
    on_message JSON_parse ws message host rt =
      (Throw e, after rt [ConsoleError "Error processing WebSocket message:" logged]).
Proof.
  intros Hs.
  assert (Hsend : forall f more, send_frame ws f (after rt more) = (Throw e, after rt more)).
  { intros f more. by apply send_frame_throws. }
  assert (Hsend0 : forall f, send_frame ws f rt = (Throw e, rt)).
  { intros f. by apply send_frame_throws. }
  unfold on_message, try_catch, bind, lift, ret, console_error, perform.
  destruct (JSON_parse message) as [data|e0];
    [|cbn -[send_frame]; rewrite Hsend; by eexists].
  destruct (get_property data "type") as [type|e1] eqn:Ht;
    [|cbn -[send_frame]; rewrite Hsend; by eexists].
  destruct (strict_equals_string type "chat").
  - destruct (get_property data "message") as [text|e2];
      [|cbn -[send_frame]; rewrite Hsend; by eexists].
    destruct (truthy text).
    + rewrite Hsend0. cbn -[send_frame]. rewrite Hsend. by eexists.
    + cbn -[send_frame get_property].
      destruct (strict_equals_string type "clear_history");
        rewrite Hsend0; cbn -[send_frame]; rewrite Hsend; by eexists.
  - cbn -[send_frame get_property].
    destruct (strict_equals_string type "clear_history");
      rewrite Hsend0; cbn -[send_frame]; rewrite Hsend; by eexists.
Qed.

(** Whatever the frame, the host and the socket do: the handler only
    adds effects, sends to its own socket only, two frames at most, and
    hands the host one command at most. *)
Lemma on_message_shape ws message host rt :
  exists more,
    (on_message JSON_parse ws message host rt).2 = after rt more /\
    sends_only_to ws more /\
    length (received ws more) <= 2 /\
    length (dispatched more) <= 1.
Proof.
  unfold on_message, try_catch, bind, lift, ret, send_frame, ws_send, gets, throw,
    await_import, await_executeCommand, console_error, perform, after, with_effects.
  destruct (send_throws (sockets rt ws)) as [es|] eqn:Hs;
  destruct (JSON_parse message) as [data|e0]; cbn -[get_property];
  try destruct (get_property data "type") as [type|e1]; cbn -[get_property];
  try destruct (strict_equals_string type "chat"); cbn -[get_property];
  try destruct (get_property data "message") as [text|e2]; cbn -[get_property];
  try destruct (truthy text); cbn -[get_property];
  try destruct (strict_equals_string type "clear_history"); cbn -[get_property];
  rewrite ?Hs; cbn -[get_property];
  try destruct (import_vscode host) as [[]|e3]; cbn -[get_property];
  rewrite ?Hs; cbn -[get_property];
  try (destruct (executeCommand host _ _) as [[]|e4]; cbn -[get_property]);
  rewrite ?Hs; cbn -[get_property].
  all: eexists; (split; [rewrite <- ?app_assoc; reflexivity|]).
  all: split; [|split; [simpl; rewrite ?Nat.eqb_refl; simpl; lia | simpl; lia]].
  all: intros other d Hin;
    repeat (apply elem_of_cons in Hin as [Hin|Hin]; [by (discriminate || injection Hin)|]);
    by apply elem_of_nil in Hin.
Qed.

End HandlerEdges.

(** X1.  A [clear_history] frame, whatever else it carries, is answered
    with [clear_started] and then [clear_completed] when the host
    performs the command; the command is handed over without
    arguments, and no other socket is sent anything. *)
Theorem clear_history_started_then_completed
    (JSON_parse : string -> completion JSON) ws message host rt props :
  JSON_parse message = Normal (JObject props) ->
  assoc "type" props = Some (JString "clear_history") ->
  send_throws (sockets rt ws) = None ->
  import_vscode host = Normal tt ->
  executeCommand host "workbench.action.chat.clearHistory" [] = Normal tt ->
  exists more,
    on_message JSON_parse ws message host rt = (Normal tt, after rt more) /\
    more = [Sent ws (wire clear_started); ImportVscode;
            ExecuteCommand "workbench.action.chat.clearHistory" [];
            Sent ws (wire clear_completed)] /\
    received ws more = [wire clear_started; wire clear_completed] /\
    sends_only_to ws more.
Proof.
  intros Hp Ht Hs Hi He. eexists.
  split; [by apply (on_message_clear_history _ _ _ _ _ props)|].
  split; [reflexivity|]. split; [simpl; by rewrite Nat.eqb_refl|].
  intros other d Hin.
  repeat (apply elem_of_cons in Hin as [Hin|Hin]; [by (discriminate || injection Hin)|]).
  by apply elem_of_nil in Hin.
Qed.

Lemma clear_history_started_then_completed_witness :
  exists more,
    on_message Edge.parse 3 Edge.clear_with_message_frame Demo.host_ok Demo.boot =
      (Normal tt, after Demo.boot more) /\
    received 3 more = [wire clear_started; wire clear_completed].
Proof.
  destruct (clear_history_started_then_completed Edge.parse 3
              Edge.clear_with_message_frame Demo.host_ok Demo.boot
              [("type", JString "clear_history"); ("message", JString "hello")]
              eq_refl eq_refl eq_refl eq_refl eq_refl)
    as (more & H1 & _ & H3 & _).
  exists more. auto.
Defined.

(** X2.  When the Command Dispatcher fails for a [clear_history] frame
    (loading the host module, or the command, throws [e]), the socket is
    sent [clear_started] and then the generic error frame, never
    [clear_completed]; the failure is logged and the handler ends
    normally. *)
Theorem clear_history_dispatch_failure_is_reported
    (JSON_parse : string -> completion JSON) ws message host rt props e :
  JSON_parse message = Normal (JObject props) ->
  assoc "type" props = Some (JString "clear_history") ->
  send_throws (sockets rt ws) = None ->
  (import_vscode host = Throw e) \/
  (import_vscode host = Normal tt /\
   executeCommand host "workbench.action.chat.clearHistory" [] = Throw e) ->
  exists more,
    on_message JSON_parse ws message host rt = (Normal tt, after rt more) /\
    received ws more = [wire clear_started; wire failed_to_process] /\
    (Sent ws (wire clear_completed) ∉ more) /\
    (ConsoleError "Error processing WebSocket message:" e ∈ more) /\
    sends_only_to ws more.
Proof.
  intros Hp Ht Hs [Hi | [Hi He]]; eexists.
  - split; [by apply (on_message_clear_import_fails _ _ _ _ _ props)|].
    split; [simpl; by rewrite Nat.eqb_refl|].
    split.
    { intros Hin. repeat (apply elem_of_cons in Hin as [Hin|Hin]; [discriminate|]).
      by apply elem_of_nil in Hin. }
    split; [repeat constructor|].
    intros other d Hin.
    repeat (apply elem_of_cons in Hin as [Hin|Hin]; [by (discriminate || injection Hin)|]).
    by apply elem_of_nil in Hin.
  - split; [by apply (on_message_clear_command_fails _ _ _ _ _ props)|].
    split; [simpl; by rewrite Nat.eqb_refl|].
    split.
    { intros Hin. repeat (apply elem_of_cons in Hin as [Hin|Hin]; [discriminate|]).
      by apply elem_of_nil in Hin. }
    split; [repeat constructor|].
    intros other d Hin.
    repeat (apply elem_of_cons in Hin as [Hin|Hin]; [by (discriminate || injection Hin)|]).
    by apply elem_of_nil in Hin.
Qed.

Lemma clear_history_dispatch_failure_is_reported_witness :
  exists more,
    on_message Demo.parse 3 Demo.clear_frame Edge.host_without_module Demo.boot =
      (Normal tt, after Demo.boot more) /\
    received 3 more = [wire clear_started; wire failed_to_process].
Proof.
  destruct (clear_history_dispatch_failure_is_reported Demo.parse 3
              Demo.clear_frame Edge.host_without_module Demo.boot
              [("type", JString "clear_history")] (OtherError "Cannot find module")
              eq_refl eq_refl eq_refl (or_introl eq_refl))
    as (more & H1 & H2 & _).
  exists more. auto.
Defined.

(** X3.  Every frame that parses to something other than [null] and
    whose [type] is neither the string [chat] nor the string
    [clear_history] (no [type] at all, a [type] that is not a string or
    differs in case, an array, a number, a string) is answered with the
    one [Invalid message format] frame; nothing reaches the host. *)
Theorem unrecognized_frame_gets_invalid_format
    (JSON_parse : string -> completion JSON) ws message host rt data type :
  JSON_parse message = Normal data ->
  get_property data "type" = Normal type ->
  strict_equals_string type "chat" = false ->
  strict_equals_string type "clear_history" = false ->
  send_throws (sockets rt ws) = None ->
  on_message JSON_parse ws message host rt =
    (Normal tt, after rt [Sent ws (wire invalid_format)]) /\
  dispatched [Sent ws (wire invalid_format)] = [] /\
  message_begins "Invalid message format" (wire invalid_format) = true.
Proof.
  intros Hp Ht Hc Hh Hs.
  split; [by apply (on_message_unrecognized _ _ _ _ _ data type)|]. by split.
Qed.

Lemma unrecognized_frame_gets_invalid_format_witness :
  on_message Edge.parse 3 Edge.upper_case_frame Demo.host_ok Demo.boot =
    (Normal tt, after Demo.boot [Sent 3 (wire invalid_format)]) /\
  on_message Edge.parse 3 "[1]" Demo.host_ok Demo.boot =
    (Normal tt, after Demo.boot [Sent 3 (wire invalid_format)]) /\
  on_message Edge.parse 3 Demo.not_valid_frame Demo.host_ok Demo.boot =
    (Normal tt, after Demo.boot [Sent 3 (wire invalid_format)]).
Proof.
  split; [|split].
  - apply (unrecognized_frame_gets_invalid_format Edge.parse 3 Edge.upper_case_frame
             Demo.host_ok Demo.boot
             (JObject [("type", JString "Chat"); ("message", JString "hello")])
             (Some (JString "Chat")) eq_refl eq_refl eq_refl eq_refl eq_refl).
  - apply (unrecognized_frame_gets_invalid_format Edge.parse 3 "[1]"
             Demo.host_ok Demo.boot (JArray [JNumber (S754_finite false 1 0)])
             None eq_refl eq_refl eq_refl eq_refl eq_refl).
  - apply (unrecognized_frame_gets_invalid_format Edge.parse 3 Demo.not_valid_frame
             Demo.host_ok Demo.boot (JObject [("not", JString "valid")])
             None eq_refl eq_refl eq_refl eq_refl eq_refl).
Defined.

(** X4.  The frame [null] parses, but reading its [type] throws: it is
    answered with the generic [Failed to process message] frame, not
    with the [Invalid message format] one, and the [TypeError] is
    logged. *)
Theorem null_frame_gets_generic_error
    (JSON_parse : string -> completion JSON) ws message host rt :
  JSON_parse message = Normal JNull ->
  send_throws (sockets rt ws) = None ->
  exists more error,
    on_message JSON_parse ws message host rt = (Normal tt, after rt more) /\
    more = [ConsoleError "Error processing WebSocket message:" (TypeError error);
            Sent ws (wire failed_to_process)] /\
    received ws more = [wire failed_to_process] /\
    message_begins "Invalid message format" (wire failed_to_process) = false /\
    dispatched more = [].
Proof.
  intros Hp Hs. do 2 eexists.
  split; [by apply on_message_null|]. split; [reflexivity|].
  split; [simpl; by rewrite Nat.eqb_refl|]. by split.
Qed.

Lemma null_frame_gets_generic_error_witness :
  exists more,
    on_message Demo.parse 3 "null" Demo.host_ok Demo.boot =
      (Normal tt, after Demo.boot more) /\
    received 3 more = [wire failed_to_process].
Proof.
  destruct (null_frame_gets_generic_error Demo.parse 3 "null" Demo.host_ok Demo.boot
              eq_refl eq_refl)
    as (more & error & H1 & _ & H3 & _).
  exists more. auto.
Defined.

(** X5.  The guard of the chat branch only asks that [message] be
    truthy: a number, [true], an array or an object passes like a
    non-empty string, and the value is handed to the command as
    [query] unchanged. *)
Theorem chat_message_of_any_truthy_value_is_dispatched
    (JSON_parse : string -> completion JSON) ws message host rt props value :
  JSON_parse message = Normal (JObject props) ->
  assoc "type" props = Some (JString "chat") ->
  assoc "message" props = Some value ->
  truthy (Some value) = true ->
  send_throws (sockets rt ws) = None ->
  import_vscode host = Normal tt ->
  executeCommand host "workbench.action.chat.open" [[("query", Some value)]] = Normal tt ->
  on_message JSON_parse ws message host rt =
    (Normal tt,
     after rt [Sent ws (wire chat_started); ImportVscode;
               ExecuteCommand "workbench.action.chat.open" [[("query", Some value)]];
               Sent ws (wire chat_opened)]).
Proof.
  intros Hp Ht Hm Hq Hs Hi He.
  by apply (on_message_chat_ok _ _ _ _ _ props).
Qed.

Lemma chat_message_of_any_truthy_value_is_dispatched_witness :
  on_message Edge.parse 3 Edge.number_chat_frame Demo.host_ok Demo.boot =
    (Normal tt,
     after Demo.boot
       [Sent 3 (wire chat_started); ImportVscode;
        ExecuteCommand "workbench.action.chat.open"
          [[("query", Some (JNumber Edge.forty_two))]];
        Sent 3 (wire chat_opened)]).
Proof.
  exact (chat_message_of_any_truthy_value_is_dispatched Edge.parse 3
           Edge.number_chat_frame Demo.host_ok Demo.boot
           [("type", JString "chat"); ("message", JNumber Edge.forty_two)]
           (JNumber Edge.forty_two) eq_refl eq_refl eq_refl eq_refl eq_refl
           eq_refl eq_refl).
Defined.

(** X6.  When the socket refuses to send (its [send] throws [e]), the
    message callback sends nothing and hands nothing to the host,
    whatever the frame: the first [send] throws into the [catch] block,
    which logs, and whose own [send] throws again, so that the promise
    of the [async] callback is rejected with [e] and nobody handles it. *)
Theorem send_failure_rejects_the_message_callback
    (JSON_parse : string -> completion JSON) ws message host rt e :
  send_throws (sockets rt ws) = Some e ->
  exists more logged,
    call JSON_parse (OnMessage ws) (MessageArg message host) rt =
      (Normal tt, after rt more) /\
    more = [ConsoleError "Error processing WebSocket message:" logged;
            UnhandledRejection e] /\
    deliveries more = [] /\ dispatched more = [] /\ (ImportVscode ∉ more).
Proof.
  intros Hs. destruct (on_message_send_throws JSON_parse ws message host rt e Hs)
    as [logged Hrun].
  exists [ConsoleError "Error processing WebSocket message:" logged; UnhandledRejection e],
         logged.
  split.
  { simpl. unfold try_catch. rewrite Hrun. rewrite perform_after. by rewrite after_after. }
  split; [reflexivity|]. split; [reflexivity|]. split; [reflexivity|].
  intros Hin. repeat (apply elem_of_cons in Hin as [Hin|Hin]; [discriminate|]).
  by apply elem_of_nil in Hin.
Qed.

Lemma send_failure_rejects_the_message_callback_witness :
  exists more,
    call Demo.parse (OnMessage 3) (MessageArg Demo.hello_frame Demo.host_ok) Edge.broken =
      (Normal tt, after Edge.broken more) /\
    deliveries more = [] /\ dispatched more = [].
Proof.
  destruct (send_failure_rejects_the_message_callback Demo.parse 3 Demo.hello_frame
              Demo.host_ok Edge.broken (OtherError "write after end") eq_refl)
    as (more & logged & H1 & _ & H3 & H4 & _).
  exists more. auto.
Defined.

(** X7.  Whatever the frame, the host and the socket do, one run of the
    message handler only adds effects (the fields of the service, the
    registry, the listeners, the promises and the sockets are as
    before), sends to its own socket only, two frames at most, and hands
    the host one command at most. *)
Theorem message_handler_is_local
    (JSON_parse : string -> completion JSON) ws message host rt :
  exists more,
    (on_message JSON_parse ws message host rt).2 = after rt more /\
    sends_only_to ws more /\
    length (received ws more) <= 2 /\
    length (dispatched more) <= 1.
Proof. apply on_message_shape. Qed.

(** * The registry and the socket events *)

Lemma never_throws_ret {A} (a : A) : never_throws (ret a).
Proof. intros rt. by exists a. Qed.

Lemma never_throws_gets {A} (f : Runtime -> A) : never_throws (gets f).
Proof. intros rt. by eexists. Qed.

Lemma never_throws_modify f : never_throws (modify f).
Proof. intros rt. by exists tt. Qed.

Lemma never_throws_perform e : never_throws (perform e).
Proof. intros rt. by exists tt. Qed.

Lemma never_throws_bind {A B} (m : M A) (k : A -> M B) :
  never_throws m -> (forall a, never_throws (k a)) -> never_throws (bind m k).
Proof.
  intros Hm Hk rt. unfold bind. destruct (Hm rt) as [a Ha].
  destruct (m rt) as [c rt1]. simpl in Ha. subst c. apply Hk.
Qed.

Lemma never_throws_try_catch {A} (body : M A) (handler : Error -> M A) :
  (forall e, never_throws (handler e)) -> never_throws (try_catch body handler).
Proof.
  intros Hk rt. unfold try_catch. destruct (body rt) as [[a|e] rt1];
    [by exists a | apply Hk].
Qed.

(** No callback of the class throws into the event emitter: the
    message callback is [async], the others only update fields. *)
Lemma call_never_throws (JSON_parse : string -> completion JSON) c arg :
  (forall w name, c <> ReEmit w name) ->
  never_throws (call JSON_parse c arg).
Proof.
  intros Hc.
  destruct c, arg; try (by destruct (Hc wss0 name)); simpl;
    unfold on_connection, on_close, on_error, listen_callback,
      server_error_handler, wss_close_callback, server_close_callback,
      add_listener, resolve, reject, settle, console_log, console_error,
      set_isActive, update_connectedClients;
    repeat first
      [ apply never_throws_ret | apply never_throws_gets | apply never_throws_modify
      | apply never_throws_perform
      | apply never_throws_try_catch; intros ?
      | apply never_throws_bind; [|intros ?]
      | match goal with
        | |- never_throws (match ?x with _ => _ end) => destruct x
        end ].
Qed.

Lemma call_all_cons (JSON_parse : string -> completion JSON) l ls arg rt :
  passes_on l = false ->
  call_all JSON_parse (l :: ls) arg rt =
  call_all JSON_parse ls arg (call JSON_parse (closure l) arg rt).2.
Proof.
  intros Hl. unfold call_all. cbn [call_all_with]. fold (call JSON_parse). unfold bind.
  destruct (call_never_throws JSON_parse (closure l) arg) with (rt := rt) as [a Ha].
  { intros w name E. unfold passes_on in Hl. by rewrite E in Hl. }
  destruct (call JSON_parse (closure l) arg rt) as [c rt1]. simpl in Ha. by subst c.
Qed.

Section Watched.

Variable JSON_parse : string -> completion JSON.
Variable Any : Type.
Variable JSON_stringify : Any -> completion Data.

(** While an event hands the socket [x] to its listeners, [x] keeps its
    events too. *)
Let W (x : option Id) (rt : Runtime) : Prop :=
  watched rt /\ forall ws, x = Some ws -> keeps_its_events ws rt.

Lemma W_after x rt more : W x rt -> W x (after rt more).
Proof. done. Qed.

Lemma W_listen x rt l :
  passes_on l = false -> W x rt -> W x (with_listeners (fun ls => ls ++ [l]) rt).
Proof.
  intros Hl [H Hx]. split.
  - intros c Hc. destruct (H c Hc) as (H1 & H2 & H3). simpl.
    split; [apply elem_of_app; by left|]. split; [apply elem_of_app; by left|].
    apply Forall_app. split; [done|]. by apply Forall_singleton.
  - intros ws Hws. apply Forall_app. split; [by apply Hx|]. by apply Forall_singleton.
Qed.

Lemma W_filter x rt f :
  (forall l, once l = false -> passes_on l = false -> f l = true) ->
  W x rt -> W x (with_listeners (List.filter f) rt).
Proof.
  intros Hf [H Hx]. split.
  - intros c Hc. destruct (H c Hc) as (H1 & H2 & H3). simpl.
    split; [|split].
    + apply list_elem_of_In, List.filter_In. split; [by apply list_elem_of_In|]. by apply Hf.
    + apply list_elem_of_In, List.filter_In. split; [by apply list_elem_of_In|]. by apply Hf.
    + by apply Forall_List_filter.
  - intros ws Hws. apply Forall_List_filter. by apply Hx.
Qed.

Lemma W_delete x rt y : W x rt -> W x (update_connectedClients (Set_delete y) rt).2.
Proof.
  intros [H Hx]. split; [|done].
  intros c Hc. simpl in Hc. apply list_elem_of_filter in Hc as [_ Hc]. by apply H.
Qed.

Lemma W_clear x rt : W x rt -> W x (update_connectedClients Set_clear rt).2.
Proof. intros [H Hx]. split; [|done]. intros c Hc. simpl in Hc. by apply elem_of_nil in Hc. Qed.

Ltac W_keeps :=
  repeat first
    [ apply keeps_ret | apply keeps_gets
    | apply keeps_perform; intros ? ?; apply W_after
    | apply keeps_bind; [|intros ?]
    | apply keeps_try_catch; [|intros ?]
    | apply keeps_modify; intros ? ?; first [ assumption | by apply W_listen ]
    | match goal with
      | |- keeps _ (match ?x with _ => _ end) => destruct x
      | |- keeps _ (set_isActive _) => intros ? ?; assumption
      | |- keeps _ (update_connectedClients (Set_delete _)) =>
          intros ? ?; by apply W_delete
      | |- keeps _ (update_connectedClients Set_clear) =>
          intros ? ?; by apply W_clear
      end ].

Lemma W_on_connection ws : keeps (W (Some ws)) (on_connection ws).
Proof.
  intros rt [H Hx]. specialize (Hx ws eq_refl).
  assert (Hnew : keeps_its_events ws (on_connection ws rt).2).
  { simpl. repeat (apply Forall_app; split); try done; by apply Forall_singleton. }
  split; [|by intros ? [= <-]].
  intros c Hc. simpl in Hc. unfold Set_add in Hc.
  assert (Hcase : c ∈ connectedClients (this rt) \/ c = ws).
  { destruct (Set_has ws (connectedClients (this rt))); [by left|].
    apply elem_of_app in Hc as [Hc|Hc]; [by left|].
    right. by apply list_elem_of_singleton in Hc. }
  destruct Hcase as [Hold | ->].
  - destruct (H c Hold) as (H1 & H2 & H3).
    split; [simpl; repeat (apply elem_of_app; left); done|].
    split; [simpl; repeat (apply elem_of_app; left); done|].
    simpl. repeat (apply Forall_app; split); try done; by apply Forall_singleton.
  - split; [|split; [|done]].
    + simpl. apply elem_of_app. left. apply elem_of_app. right. by left.
    + simpl. apply elem_of_app. right. by left.
Qed.

Section WatchedEvents.

Variable reemit : Id -> EventName -> Arg -> M unit.
Hypothesis W_reemit : forall w name arg, keeps (W (socket_of arg)) (reemit w name arg).

Lemma W_call_with c arg : keeps (W (socket_of arg)) (call_with JSON_parse reemit c arg).
Proof.
  destruct c.
  - destruct arg; simpl; try apply keeps_ret. apply W_on_connection.
  - destruct arg; simpl; try apply keeps_ret.
    apply keeps_try_catch.
    + apply keeps_only_effects; [apply W_after | apply on_message_only_effects].
    + intros e. apply keeps_perform. apply W_after.
  - simpl. unfold on_close, console_log. destruct arg; W_keeps.
  - destruct arg; simpl; try apply keeps_ret.
    unfold on_error, console_error. W_keeps.
  - unfold call_with, listen_callback, console_log, resolve, settle.
    destruct arg; W_keeps.
  - destruct arg; simpl; try apply keeps_ret.
    unfold server_error_handler, reject, settle. W_keeps.
  - unfold call_with, wss_close_callback, add_listener, resolve, settle.
    destruct arg; W_keeps.
  - unfold call_with, server_close_callback, console_log, resolve, settle.
    destruct arg; W_keeps.
  - simpl. apply W_reemit.
Qed.

Lemma W_emit_with target name arg :
  keeps (W (socket_of arg)) (emit_with JSON_parse reemit target name arg).
Proof.
  apply keeps_emit_with. unfold run_listeners_with.
  apply keeps_bind; [apply keeps_gets|]. intros ls.
  apply keeps_bind.
  - apply keeps_modify. intros rt. apply W_filter.
    intros l Ho _. by rewrite Ho, andb_false_r.
  - intros _. induction (List.filter (listens target name) ls) as [|l ls' IH];
      simpl; [apply keeps_ret|].
    apply keeps_bind; [apply W_call_with | by intros _].
Qed.

End WatchedEvents.

Lemma W_emit target name arg :
  keeps (W (socket_of arg)) (emit JSON_parse target name arg).
Proof. apply W_emit_with. intros w name' arg'. apply W_emit_with. intros. apply keeps_ret. Qed.

Lemma watched_emit target name arg :
  socket_of arg = None -> keeps watched (emit JSON_parse target name arg).
Proof.
  intros Harg rt H. apply (W_emit target name arg). split; [done|].
  intros ws Hws. congruence.
Qed.

Lemma watched_step i rt :
  wf rt -> watched rt -> watched (step JSON_parse Any JSON_stringify i rt).
Proof.
  intros Hwf H. destruct i; simpl.
  - destruct (isActive (this rt)) eqn:Hact; [by rewrite start_active|].
    rewrite start_inactive by done. cbn [snd].
    intros c Hc. cbn [this connectedClients] in Hc.
    destruct (H c Hc) as (H1 & H2 & H3).
    assert (Hlt : c < next_id rt).
    { assert (Hb := bounded_clients _ _ Hwf). rewrite Forall_forall in Hb. by apply Hb. }
    split; [cbn [listeners]; apply elem_of_app; by left|].
    split; [cbn [listeners]; apply elem_of_app; by left|].
    unfold keeps_its_events. cbn [listeners]. apply Forall_app. split; [done|].
    repeat (apply List.Forall_cons; [simpl; intros; first [done | lia]|]).
    apply List.Forall_nil.
  - destruct (isActive (this rt)) eqn:Hact; [|by rewrite stop_inactive].
    destruct (wss (this rt)) as [w|] eqn:Hw.
    + rewrite (stop_active rt w) by done. cbn [snd].
      assert (HW : W None (with_listeners (List.filter (fun l => negb (reemits_for w l))) rt)).
      { apply W_filter; [|by split].
        intros l _ Hl. unfold reemits_for, passes_on in *. by destruct (closure l). }
      apply (W_listen None _ (mkListener w Ev_close true (WssCloseCallback (next_id rt))))
        in HW; [|done].
      by destruct HW as [HW _].
    + rewrite stop_active_no_wss by done. cbn [snd].
      intros c Hc. simpl in Hc. by apply elem_of_nil in Hc.
  - apply (stable_broadcast Any JSON_stringify watched); try done.
    intros rt0 x H0. by apply (W_delete None rt0 x).
  - unfold bind at 1. cbn [fst snd fresh]. unfold bind at 1, modify at 1.
    cbn [fst snd].
    apply (W_emit wss0 Ev_connection (SocketArg (next_id rt))).
    split; [done|]. intros ws [= <-].
    eapply Forall_impl; [apply (listeners_below rt Hwf)|].
    simpl. intros l Hl Heq. lia.
  - done.
  - by apply watched_emit.
  - by apply watched_emit.
  - by apply watched_emit.
  - by apply watched_emit.
Qed.

Lemma watched_run inputs rt :
  wf rt -> watched rt -> watched (run JSON_parse Any JSON_stringify inputs rt).
Proof.
  revert rt. induction inputs as [|i inputs IH]; intros rt Hwf H; [done|].
  simpl. apply IH; [by apply wf_step | by apply watched_step].
Qed.

(** Once [c] is out of the registry, callbacks that are not handed a
    new socket leave it out. *)
Lemma absent_call_all c ls arg rt :
  (forall ws, arg <> SocketArg ws) ->
  c ∉ connectedClients (this rt) ->
  c ∉ connectedClients (this (call_all JSON_parse ls arg rt).2).
Proof.
  intros Harg.
  apply (stable_call_all JSON_parse
           (fun rt => c ∉ connectedClients (this rt)) (fun _ => False)); try done.
  all: try (intros rt0 x H Hin; simpl in Hin;
            by apply list_elem_of_filter in Hin as [_ Hin]).
  all: try (intros rt0 H Hin; simpl in Hin; by apply elem_of_nil in Hin).
  all: intros ws ->; by destruct (Harg ws).
Qed.

Lemma removed_by_call_all c ls arg rt (delete_c : Closure) :
  (forall ws, arg <> SocketArg ws) ->
  Forall (fun l => passes_on l = false) ls ->
  (forall rt0, c ∉ connectedClients (this (call JSON_parse delete_c arg rt0).2)) ->
  (exists l, l ∈ ls /\ closure l = delete_c) ->
  c ∉ connectedClients (this (call_all JSON_parse ls arg rt).2).
Proof.
  intros Harg Hls Hdel. revert rt.
  induction Hls as [|l ls Hl _ IH]; intros rt (l0 & Hin & Hl0).
  { by apply elem_of_nil in Hin. }
  rewrite call_all_cons by done. apply elem_of_cons in Hin as [<-|Hin].
  - apply absent_call_all; [done|]. rewrite Hl0. apply Hdel.
  - apply IH. by exists l0.
Qed.

(** The listeners of an event of a socket of the registry. *)
Lemma listeners_of_watched c name rt :
  watched rt -> c ∈ connectedClients (this rt) ->
  Forall (fun l => passes_on l = false) (List.filter (listens c name) (listeners rt)).
Proof.
  intros H Hc. destruct (H c Hc) as (_ & _ & H3).
  apply Forall_forall. intros l Hl. apply list_elem_of_In, List.filter_In in Hl as [Hl Hname].
  unfold keeps_its_events in H3. rewrite Forall_forall in H3.
  apply H3; [by apply list_elem_of_In|].
  unfold listens in Hname. apply andb_true_iff in Hname as [Hname _].
  by apply Nat.eqb_eq in Hname.
Qed.

End Watched.

Lemma watched_initial socks : watched (initial socks).
Proof. intros c Hc. simpl in Hc. by apply elem_of_nil in Hc. Qed.

(** X8.  In every state the service can reach, a ['close'] event or an
    ['error'] event on a socket of the registry takes that socket out
    of the registry. *)
Theorem close_or_error_event_unregisters_the_socket
    (JSON_parse : string -> completion JSON) (Any : Type)
    (JSON_stringify : Any -> completion Data) inputs socks c :
  let rt := run JSON_parse Any JSON_stringify inputs (initial socks) in
  c ∈ connectedClients (this rt) ->
  (c ∉ connectedClients (this (step JSON_parse Any JSON_stringify (Emit_close c) rt))) /\
  (forall e,
     c ∉ connectedClients (this (step JSON_parse Any JSON_stringify (Emit_error c e) rt))).
Proof.
  intros rt Hc.
  assert (Hw : watched rt).
  { apply watched_run; [apply wf_initial | apply watched_initial]. }
  destruct (Hw c Hc) as (Hclose & Herror & _).
  assert (Hin : forall name delete_c,
    mkListener c name false delete_c ∈ listeners rt ->
    mkListener c name false delete_c ∈ List.filter (listens c name) (listeners rt)).
  { intros name delete_c H. apply list_elem_of_In, List.filter_In.
    split; [by apply list_elem_of_In|].
    unfold listens. simpl. rewrite Nat.eqb_refl. by destruct name. }
  split; [|intros e]; cbn [step].
  - rewrite emit_goes by done.
    apply (removed_by_call_all JSON_parse c _ NoArg _ (OnClose c)); [done| | |].
    + by apply listeners_of_watched.
    + intros rt0 H. simpl in H. by apply list_elem_of_filter in H as [Hne _].
    + exists (mkListener c Ev_close false (OnClose c)). split; [by apply Hin | reflexivity].
  - unfold emit. rewrite emit_with_handled.
    2:{ specialize (Hin _ _ Herror).
        destruct (List.filter (listens c Ev_error) (listeners rt)); [|done].
        by apply elem_of_nil in Hin. }
    rewrite run_listeners_with_eq.
    apply (removed_by_call_all JSON_parse c _ (ErrorArg e) _ (OnError c)); [done| | |].
    + by apply listeners_of_watched.
    + intros rt0 H. simpl in H. by apply list_elem_of_filter in H as [Hne _].
    + exists (mkListener c Ev_error false (OnError c)). split; [by apply Hin | reflexivity].
Qed.

Lemma close_or_error_event_unregisters_the_socket_witness :
  let rt := run Demo.parse string Demo.stringify
              [Call_start; Emit_listening 0; Accept 1 Demo.open_socket]
              (initial (fun _ => Demo.open_socket)) in
  (3 ∈ connectedClients (this rt)) /\
  (3 ∉ connectedClients (this (step Demo.parse string Demo.stringify (Emit_close 3) rt))) /\
  (3 ∉ connectedClients
         (this (step Demo.parse string Demo.stringify
                  (Emit_error 3 (OtherError "ECONNRESET")) rt))).
Proof.
  intros rt.
  assert (Hin : 3 ∈ connectedClients (this rt)).
  { vm_compute. by left. }
  pose proof (close_or_error_event_unregisters_the_socket Demo.parse string
                Demo.stringify [Call_start; Emit_listening 0; Accept 1 Demo.open_socket]
                (fun _ => Demo.open_socket) 3) as H.
  cbv zeta in H. destruct (H Hin) as [H1 H2].
  split; [exact Hin|]. split; [exact H1 | apply H2].
Defined.

Lemma on_connection_new ws rt :
  Set_has ws (connectedClients (this rt)) = false ->
  on_connection ws rt =
    (Normal tt,
     mkRuntime
       (mkService (server (this rt)) (wss (this rt)) (port (this rt)) (isActive (this rt))
                  (connectedClients (this rt) ++ [ws]))
       (next_id rt)
       (listeners rt ++
          [mkListener ws Ev_message false (OnMessage ws);
           mkListener ws Ev_close false (OnClose ws);
           mkListener ws Ev_error false (OnError ws)])
       (promises rt) (sockets rt)
       (effects rt ++ [ConsoleLog "WebSocket client connected"])).
Proof.
  intros Hfresh. destruct rt as [[srv w prt act cl] n ls ps socks es].
  cbn -[Set_has] in Hfresh.
  unfold on_connection, console_log, add_listener, bind, perform, modify,
    update_connectedClients, after, with_effects, with_this, with_listeners, Set_add.
  cbn -[Set_has]. rewrite Hfresh. by rewrite <- !app_assoc.
Qed.

(** What a connecting client causes, on a WebSocket server that has its
    one [connection] callback. *)
Lemma accept_spec (JSON_parse : string -> completion JSON) (Any : Type)
    (JSON_stringify : Any -> completion Data) w sock rt l :
  wf rt ->
  List.filter (listens w Ev_connection) (listeners rt) = [l] ->
  closure l = OnConnection ->
  once l = false ->
  let ws := next_id rt in
  step JSON_parse Any JSON_stringify (Accept w sock) rt =
    mkRuntime
      (mkService (server (this rt)) (wss (this rt)) (port (this rt)) (isActive (this rt))
                 (connectedClients (this rt) ++ [ws]))
      (S ws)
      (listeners rt ++
         [mkListener ws Ev_message false (OnMessage ws);
          mkListener ws Ev_close false (OnClose ws);
          mkListener ws Ev_error false (OnError ws)])
      (promises rt)
      (set_socket ws sock (sockets rt))
      (effects rt ++ [ConsoleLog "WebSocket client connected"]).
Proof.
  intros Hwf Hl Hc Ho ws.
  assert (Hfresh : Set_has ws (connectedClients (this rt)) = false).
  { apply not_true_is_false. intros Hin. apply Set_has_elem in Hin.
    assert (Hb := bounded_clients _ _ Hwf). rewrite Forall_forall in Hb.
    specialize (Hb ws Hin). subst ws. lia. }
  assert (Hkeep : List.filter (fun l0 => negb (listens w Ev_connection l0 && once l0))
                    (listeners rt) = listeners rt).
  { apply List_filter_all. intros x Hx.
    destruct (listens w Ev_connection x) eqn:Hlx; [|done].
    assert (Hin : In x (List.filter (listens w Ev_connection) (listeners rt))).
    { apply List.filter_In. split; [by apply list_elem_of_In | done]. }
    rewrite Hl in Hin. destruct Hin as [<-|[]]. by rewrite Ho. }
  destruct rt as [[srv w0 prt act cl] n ls ps socks es].
  cbn -[Set_has] in Hfresh, Hkeep, Hl. subst ws.
  cbn [step]. unfold bind at 1. cbn [fst snd fresh].
  unfold bind at 1, modify at 1. cbn [fst snd].
  rewrite emit_goes by done. unfold with_sockets. cbn [listeners]. rewrite Hl.
  unfold with_listeners. cbn [listeners this next_id promises sockets effects].
  rewrite Hkeep. unfold call_all. cbn [call_all_with]. rewrite Hc. cbn [call_with].
  unfold bind at 1.
  rewrite on_connection_new by done. reflexivity.
Qed.

(** X9.  A client that connects to a WebSocket server of the service is
    registered under a new identity, with its three callbacks; and the
    chat frame it then sends is answered on its own socket, after the
    one [client connected] log line. *)
Theorem accepted_client_is_registered_and_served
    (JSON_parse : string -> completion JSON) (Any : Type)
    (JSON_stringify : Any -> completion Data)
    w sock rt l message host props text :
  wf rt ->
  List.filter (listens w Ev_connection) (listeners rt) = [l] ->
  closure l = OnConnection ->
  once l = false ->
  send_throws sock = None ->
  JSON_parse message = Normal (JObject props) ->
  assoc "type" props = Some (JString "chat") ->
  assoc "message" props = Some (JString text) ->
  text <> EmptyString ->
  import_vscode host = Normal tt ->
  executeCommand host "workbench.action.chat.open"
    [[("query", Some (JString text))]] = Normal tt ->
  let ws := next_id rt in
  let rt1 := step JSON_parse Any JSON_stringify (Accept w sock) rt in
  let rt2 := step JSON_parse Any JSON_stringify (Emit_message ws message host) rt1 in
  connectedClients (this rt1) = connectedClients (this rt) ++ [ws] /\
  (ws ∉ connectedClients (this rt)) /\
  sockets rt1 ws = sock /\
  rt2 = after rt1 [Sent ws (wire chat_started); ImportVscode;
                   ExecuteCommand "workbench.action.chat.open"
                     [[("query", Some (JString text))]];
                   Sent ws (wire chat_opened)] /\
  effects rt2 =
    effects rt ++
      [ConsoleLog "WebSocket client connected";
       Sent ws (wire chat_started); ImportVscode;
       ExecuteCommand "workbench.action.chat.open" [[("query", Some (JString text))]];
       Sent ws (wire chat_opened)].
Proof.
  intros Hwf Hl Hc Ho Hsend Hp Ht Hm Hne Hi He ws rt1 rt2.
  assert (E1 := accept_spec JSON_parse Any JSON_stringify w sock rt l Hwf Hl Hc Ho).
  fold ws rt1 in E1.
  assert (Hsock : sockets rt1 ws = sock).
  { rewrite E1. simpl. unfold set_socket. by rewrite Nat.eqb_refl. }
  assert (Hold : Forall (fun l0 => emitter l0 < ws) (listeners rt)).
  { eapply Forall_impl; [apply (bounded_listeners _ _ Hwf)|]. by intros l0 []. }
  assert (E2 : rt2 = after rt1 [Sent ws (wire chat_started); ImportVscode;
                   ExecuteCommand "workbench.action.chat.open"
                     [[("query", Some (JString text))]];
                   Sent ws (wire chat_opened)]).
  { subst rt2.
    apply (message_event_runs_handler JSON_parse Any JSON_stringify ws message host rt1 _
             (mkListener ws Ev_message false (OnMessage ws))); try done.
    - rewrite E1. cbn [listeners]. rewrite List.filter_app.
      rewrite (no_listener_on_fresh ws Ev_message) by done.
      unfold listens. simpl. by rewrite Nat.eqb_refl.
    - apply (on_message_chat_ok JSON_parse ws message host rt1 props); try done.
      + simpl. apply negb_true_iff, String.eqb_neq, Hne.
      + by rewrite Hsock. }
  split; [by rewrite E1|]. split.
  { intros Hin. assert (Hb := bounded_clients _ _ Hwf). rewrite Forall_forall in Hb.
    specialize (Hb ws Hin). subst ws. lia. }
  split; [done|]. split; [done|].
  rewrite E2, effects_after, E1. simpl. by rewrite <- app_assoc.
Qed.

Lemma accepted_client_is_registered_and_served_witness :
  let rt := Demo.go [Call_start; Emit_listening 0] in
  let ws := next_id rt in
  let rt1 := step Demo.parse string Demo.stringify (Accept 1 Demo.open_socket) rt in
  let rt2 := step Demo.parse string Demo.stringify
               (Emit_message ws Demo.hello_frame Demo.host_ok) rt1 in
  connectedClients (this rt1) = connectedClients (this rt) ++ [ws] /\
  effects rt2 =
    effects rt ++
      [ConsoleLog "WebSocket client connected";
       Sent ws (wire chat_started); ImportVscode;
       ExecuteCommand "workbench.action.chat.open" [[("query", Some (JString "hello"))]];
       Sent ws (wire chat_opened)].
Proof.
  intros rt ws rt1 rt2.
  assert (Hwf : wf rt) by apply wf_run, wf_initial.
  assert (Hl : List.filter (listens 1 Ev_connection) (listeners rt) =
               [mkListener 1 Ev_connection false OnConnection]).
  { vm_compute. reflexivity. }
  assert (Hne : "hello" <> EmptyString) by discriminate.
  destruct (accepted_client_is_registered_and_served Demo.parse string Demo.stringify
              1 Demo.open_socket rt (mkListener 1 Ev_connection false OnConnection)
              Demo.hello_frame Demo.host_ok
              [("type", JString "chat"); ("message", JString "hello")] "hello"
              Hwf Hl eq_refl eq_refl eq_refl eq_refl eq_refl eq_refl
              Hne eq_refl eq_refl)
    as (H1 & _ & _ & _ & H5).
  split; [exact H1 | exact H5].
Defined.

(** * Further properties of the life cycle *)

(** [start] on a service that is not active, then the callback of
    [listen]. *)
Lemma start_then_listening (JSON_parse : string -> completion JSON) (Any : Type)
    (JSON_stringify : Any -> completion Data) rt :
  wf rt ->
  isActive (this rt) = false ->
  let s := next_id rt in
  let p := S (S s) in
  run JSON_parse Any JSON_stringify [Call_start; Emit_listening s] rt =
    mkRuntime
      (mkService (Some s) (Some (S s)) (port (this rt)) true (connectedClients (this rt)))
      (S p)
      (listeners rt ++
         [mkListener s Ev_listening false (ReEmit (S s) Ev_listening);
          mkListener s Ev_error false (ReEmit (S s) Ev_error);
          mkListener (S s) Ev_connection false OnConnection;
          mkListener s Ev_error false (ServerErrorHandler p)])
      (<[p := Fulfilled]> (promises rt)) (sockets rt)
      (effects rt ++
         [Listen s (port (this rt));
          ConsoleLog ("WebSocket server started on port " ++ pretty (port (this rt)))]).
Proof.
  intros Hwf Hact s p. cbn [run fold_left step]. rewrite start_inactive by done.
  cbn [snd]. rewrite emit_goes by done.
  assert (Hold := listeners_below rt Hwf). fold s in Hold.
  unfold with_listeners. cbn [listeners this next_id promises sockets effects].
  rewrite !List.filter_app, (no_listener_on_fresh s Ev_listening) by done.
  rewrite (keep_when_none_listens s Ev_listening (listeners rt))
    by (by apply no_listener_on_fresh).
  fold s p. unfold listens. cbn [List.filter emitter event once]. eqb_lia.
  cbn [andb negb EventName_eqb app]. unfold call_all. cbn [call_all_with closure call_with].
  unfold bind at 1. rewrite emit_on_wss_nobody; [|done|].
  2:{ cbn [listeners].
      rewrite List.filter_app, (no_listener_above s (S s) Ev_listening) by (done || lia).
      unfold listens. cbn [List.filter emitter event once]. eqb_lia. reflexivity. }
  unfold bind at 1. unfold listen_callback, bind, set_isActive, modify, gets, console_log,
    resolve. cbn [fst snd this port with_this]. rewrite perform_after.
  rewrite settle_pending by (simpl; apply lookup_insert_eq).
  unfold with_promises, after, with_effects. simpl.
  rewrite insert_insert_eq. by rewrite <- app_assoc.
Qed.

(** X10.  [start] on a service that is not active binds the configured
    port on a new server; when the callback of [listen] runs, the
    promise [start] handed back is fulfilled, the service is running and
    the port is logged.  An ['error'] the server emits after that
    changes neither. *)
Theorem start_succeeds_when_the_server_listens
    (JSON_parse : string -> completion JSON) (Any : Type)
    (JSON_stringify : Any -> completion Data) rt e :
  wf rt ->
  isActive (this rt) = false ->
  let s := next_id rt in
  let p := S (S s) in
  let rt2 := run JSON_parse Any JSON_stringify [Call_start; Emit_listening s] rt in
  let rt3 := step JSON_parse Any JSON_stringify (Emit_error s e) rt2 in
  (start rt).1 = Normal (ReturnedPromise p) /\
  promises rt2 !! p = Some Fulfilled /\
  isRunning (this rt2) = true /\
  effects rt2 =
    effects rt ++
      [Listen s (getPort (this rt));
       ConsoleLog ("WebSocket server started on port " ++ pretty (getPort (this rt)))] /\
  promises rt3 !! p = Some Fulfilled /\
  isRunning (this rt3) = true.
Proof.
  intros Hwf Hact s p rt2 rt3.
  assert (E : rt2 =
    mkRuntime
      (mkService (Some s) (Some (S s)) (port (this rt)) true (connectedClients (this rt)))
      (S p)
      (listeners rt ++
         [mkListener s Ev_listening false (ReEmit (S s) Ev_listening);
          mkListener s Ev_error false (ReEmit (S s) Ev_error);
          mkListener (S s) Ev_connection false OnConnection;
          mkListener s Ev_error false (ServerErrorHandler p)])
      (<[p := Fulfilled]> (promises rt)) (sockets rt)
      (effects rt ++
         [Listen s (port (this rt));
          ConsoleLog ("WebSocket server started on port " ++ pretty (port (this rt)))])).
  { by apply start_then_listening. }
  split; [by rewrite start_inactive|].
  split; [rewrite E; apply lookup_insert_eq|].
  split; [by rewrite E|]. split; [by rewrite E|].
  assert (E3 : rt3 = rt2).
  { subst rt3. cbn [step].
    assert (Hold := listeners_below rt Hwf). fold s in Hold.
    rewrite (passed_on_error_is_thrown JSON_parse s (S s) e rt2
               [mkListener s Ev_error false (ServerErrorHandler p)]); [done| | |].
    - rewrite E. cbn [listeners].
      rewrite List.filter_app, (no_listener_on_fresh s Ev_error) by done.
      unfold listens. cbn [List.filter emitter event once]. eqb_lia. reflexivity.
    - by apply Forall_singleton.
    - rewrite E. cbn [listeners].
      rewrite List.filter_app, (no_listener_above s (S s) Ev_error) by (done || lia).
      unfold listens. cbn [List.filter emitter event once]. eqb_lia. reflexivity. }
  rewrite E3. split; [rewrite E; apply lookup_insert_eq | by rewrite E].
Qed.

Lemma start_succeeds_when_the_server_listens_witness :
  let rt2 := Demo.go [Call_start; Emit_listening 0] in
  promises rt2 !! 2 = Some Fulfilled /\
  isRunning (this rt2) = true /\
  effects rt2 = [Listen 0 3001; ConsoleLog "WebSocket server started on port 3001"].
Proof.
  intros rt2.
  destruct (start_succeeds_when_the_server_listens Demo.parse string Demo.stringify
              Demo.boot (OtherError "late") (wf_initial _) eq_refl)
    as (_ & H2 & H3 & H4 & _).
  split; [exact H2|]. split; [exact H3 | exact H4].
Defined.

(** X11.  [stop] called between [start] and the callback of [listen]
    does nothing, because the service is not active yet: it returns at
    once, and the start goes on to a running service. *)
Theorem stop_while_starting_does_not_cancel_the_start
    (JSON_parse : string -> completion JSON) (Any : Type)
    (JSON_stringify : Any -> completion Data) rt :
  wf rt ->
  isActive (this rt) = false ->
  let s := next_id rt in
  let rt1 := (start rt).2 in
  stop rt1 = (Normal ReturnedUndefined, rt1) /\
  run JSON_parse Any JSON_stringify [Call_start; Call_stop; Emit_listening s] rt =
    run JSON_parse Any JSON_stringify [Call_start; Emit_listening s] rt /\
  isRunning
    (this (run JSON_parse Any JSON_stringify [Call_start; Call_stop; Emit_listening s] rt))
    = true.
Proof.
  intros Hwf Hact s rt1.
  assert (Hstop : stop rt1 = (Normal ReturnedUndefined, rt1)).
  { apply stop_inactive. subst rt1. by rewrite start_inactive. }
  assert (Hsame :
    run JSON_parse Any JSON_stringify [Call_start; Call_stop; Emit_listening s] rt =
    run JSON_parse Any JSON_stringify [Call_start; Emit_listening s] rt).
  { cbn [run fold_left step]. fold rt1. by rewrite Hstop. }
  split; [done|]. split; [done|].
  rewrite Hsame. subst s. by rewrite start_then_listening.
Qed.

Lemma stop_while_starting_does_not_cancel_the_start_witness :
  isRunning (this (Demo.go [Call_start; Call_stop; Emit_listening 0])) = true.
Proof.
  destruct (stop_while_starting_does_not_cancel_the_start Demo.parse string
              Demo.stringify Demo.boot (wf_initial _) eq_refl)
    as (_ & _ & H).
  exact H.
Defined.

Lemma filter_filter_nil {A} (f g : A -> bool) (l : list A) :
  List.filter f l = [] -> List.filter f (List.filter g l) = [].
Proof.
  induction l as [|x l IH]; [done|]. simpl.
  destruct (f x) eqn:Hf; [done|]. intros H.
  destruct (g x); simpl; rewrite ?Hf; by apply IH.
Qed.

(** [stop] on a running service with no other [stop] in flight, then the
    two [close] callbacks. *)
Lemma stop_then_closed (JSON_parse : string -> completion JSON) (Any : Type)
    (JSON_stringify : Any -> completion Data) rt w s :
  isActive (this rt) = true ->
  wss (this rt) = Some w ->
  server (this rt) = Some s ->
  List.filter (listens w Ev_close) (listeners rt) = [] ->
  List.filter (listens s Ev_close) (listeners rt) = [] ->
  let p := next_id rt in
  run JSON_parse Any JSON_stringify [Call_stop; Emit_close w; Emit_close s] rt =
    mkRuntime
      (mkService (Some s) (Some w) (port (this rt)) false [])
      (S p) (List.filter (fun l => negb (reemits_for w l)) (listeners rt))
      (<[p := Fulfilled]> (promises rt)) (sockets rt)
      (effects rt ++ [WssClose w; ServerClose s; ConsoleLog "WebSocket server stopped"]).
Proof.
  intros Hact Hw Hs Hnw Hns p. cbn [run fold_left step].
  rewrite (stop_active rt w) by done. cbn [snd].
  apply (filter_filter_nil _ (fun l => negb (reemits_for w l))) in Hnw, Hns.
  revert Hnw Hns. generalize (List.filter (fun l => negb (reemits_for w l)) (listeners rt)).
  intros ls Hnw Hns.
  (* the 'close' of the WebSocket server *)
  rewrite (emit_goes JSON_parse w Ev_close) by done. cbn [listeners].
  rewrite List.filter_app, Hnw.
  unfold with_listeners at 1. cbn [listeners this next_id promises sockets effects].
  rewrite List.filter_app, (keep_when_none_listens w Ev_close) by done.
  unfold listens at 1 2. cbn [List.filter emitter event once].
  rewrite Nat.eqb_refl.
  cbn [andb negb EventName_eqb app]. unfold call_all at 1.
  cbn [call_all_with closure call_with].
  unfold bind at 1. unfold wss_close_callback, bind at 1, gets at 1.
  cbn [fst snd this]. rewrite Hs. unfold bind at 1. rewrite perform_after.
  unfold add_listener, modify, ret. cbn [fst snd].
  unfold after at 1, with_effects, with_listeners.
  cbn [listeners this next_id promises sockets effects].
  (* the 'close' of the server *)
  rewrite emit_goes by done. cbn [listeners].
  rewrite app_nil_r, List.filter_app, Hns.
  unfold with_listeners at 1. cbn [listeners this next_id promises sockets effects].
  rewrite List.filter_app, (keep_when_none_listens s Ev_close) by done.
  unfold listens. cbn [List.filter emitter event once].
  rewrite Nat.eqb_refl.
  cbn [andb negb EventName_eqb app]. unfold call_all. cbn [call_all_with closure call_with].
  unfold bind at 1. unfold server_close_callback, bind, set_isActive,
    update_connectedClients, modify, console_log, resolve.
  cbn [fst snd]. rewrite perform_after.
  rewrite settle_pending by (simpl; apply lookup_insert_eq).
  destruct rt as [[srv w' prt act cl] n ls0 ps socks es]. simpl in *. subst.
  unfold with_promises, after, with_effects, with_this, Set_clear. simpl.
  rewrite insert_insert_eq, app_nil_r. by rewrite <- !app_assoc.
Qed.

Lemma stop_then_wss_closed (JSON_parse : string -> completion JSON) (Any : Type)
    (JSON_stringify : Any -> completion Data) rt w s :
  isActive (this rt) = true ->
  wss (this rt) = Some w ->
  server (this rt) = Some s ->
  List.filter (listens w Ev_close) (listeners rt) = [] ->
  let p := next_id rt in
  run JSON_parse Any JSON_stringify [Call_stop; Emit_close w] rt =
    mkRuntime (this rt) (S p)
      (List.filter (fun l => negb (reemits_for w l)) (listeners rt) ++
         [mkListener s Ev_close true (ServerCloseCallback p)])
      (<[p := Pending]> (promises rt)) (sockets rt)
      (effects rt ++ [WssClose w; ServerClose s]).
Proof.
  intros Hact Hw Hs Hnw p. cbn [run fold_left step].
  rewrite (stop_active rt w) by done. cbn [snd].
  apply (filter_filter_nil _ (fun l => negb (reemits_for w l))) in Hnw.
  revert Hnw. generalize (List.filter (fun l => negb (reemits_for w l)) (listeners rt)).
  intros ls Hnw.
  rewrite emit_goes by done. cbn [listeners].
  rewrite List.filter_app, Hnw.
  unfold with_listeners at 1. cbn [listeners this next_id promises sockets effects].
  rewrite List.filter_app, (keep_when_none_listens w Ev_close) by done.
  unfold listens. cbn [List.filter emitter event once].
  rewrite Nat.eqb_refl.
  cbn [andb negb EventName_eqb app]. unfold call_all. cbn [call_all_with closure call_with].
  unfold bind at 1. unfold wss_close_callback, bind at 1, gets at 1.
  cbn [fst snd this]. rewrite Hs. unfold bind at 1. rewrite perform_after.
  unfold add_listener, modify, ret. cbn [fst snd].
  unfold after, with_effects, with_listeners.
  cbn [listeners this next_id promises sockets effects].
  by rewrite app_nil_r, <- app_assoc.
Qed.

(** X12.  [stop] on a running service, with no other [stop] in flight,
    closes the WebSocket server first and the HTTP server from its
    callback.  Until the second callback runs the promise is pending,
    [isRunning] still answers [true] and the registry is as it was; the
    second callback clears the registry, makes [isRunning] answer
    [false], logs, and fulfils the promise.  Of the listeners only those
    are gone that the closed WebSocket server had on its http server. *)
Theorem stop_completes_after_both_close_callbacks
    (JSON_parse : string -> completion JSON) (Any : Type)
    (JSON_stringify : Any -> completion Data) rt w s :
  isActive (this rt) = true ->
  wss (this rt) = Some w ->
  server (this rt) = Some s ->
  List.filter (listens w Ev_close) (listeners rt) = [] ->
  List.filter (listens s Ev_close) (listeners rt) = [] ->
  let p := next_id rt in
  let rt2 := run JSON_parse Any JSON_stringify [Call_stop; Emit_close w] rt in
  let rt3 := run JSON_parse Any JSON_stringify [Call_stop; Emit_close w; Emit_close s] rt in
  (stop rt).1 = Normal (ReturnedPromise p) /\
  promises rt2 !! p = Some Pending /\
  isRunning (this rt2) = true /\
  connectedClients (this rt2) = connectedClients (this rt) /\
  effects rt2 = effects rt ++ [WssClose w; ServerClose s] /\
  promises rt3 !! p = Some Fulfilled /\
  isRunning (this rt3) = false /\
  connectedClients (this rt3) = [] /\
  effects rt3 =
    effects rt ++ [WssClose w; ServerClose s; ConsoleLog "WebSocket server stopped"] /\
  listeners rt3 = List.filter (fun l => negb (reemits_for w l)) (listeners rt).
Proof.
  intros Hact Hw Hs Hnw Hns p rt2 rt3.
  assert (E2 := stop_then_wss_closed JSON_parse Any JSON_stringify rt w s Hact Hw Hs Hnw).
  assert (E3 := stop_then_closed JSON_parse Any JSON_stringify rt w s Hact Hw Hs Hnw Hns).
  fold p rt2 in E2. fold p rt3 in E3.
  split; [by rewrite (stop_active rt w)|].
  split; [rewrite E2; apply lookup_insert_eq|].
  split; [by rewrite E2|]. split; [by rewrite E2|]. split; [by rewrite E2|].
  split; [rewrite E3; apply lookup_insert_eq|].
  rewrite E3. by repeat split.
Qed.

Lemma stop_completes_after_both_close_callbacks_witness :
  let rt := Demo.running_with_client in
  let rt3 := run Demo.parse string Demo.stringify
               [Call_stop; Emit_close 1; Emit_close 0] rt in
  promises rt3 !! 4 = Some Fulfilled /\
  isRunning (this rt3) = false /\
  connectedClients (this rt3) = [].
Proof.
  intros rt rt3.
  destruct (stop_completes_after_both_close_callbacks Demo.parse string Demo.stringify
              rt 1 0 eq_refl eq_refl eq_refl eq_refl eq_refl)
    as (_ & _ & _ & _ & _ & H6 & H7 & H8 & _).
  split; [exact H6|]. split; [exact H7 | exact H8].
Defined.

(** ** A running service has its servers *)

Section Equipped.

Variable JSON_parse : string -> completion JSON.
Variable Any : Type.
Variable JSON_stringify : Any -> completion Data.

Let has_servers (rt : Runtime) : Prop :=
  is_Some (server (this rt)) /\ is_Some (wss (this rt)).

Let idle (rt : Runtime) : Prop :=
  isActive (this rt) = false /\
  Forall (fun l => closure_event (closure l) <> Ev_listening) (listeners rt).

Lemma has_servers_step i rt :
  has_servers rt -> has_servers (step JSON_parse Any JSON_stringify i rt).
Proof.
  intros H. destruct i; simpl.
  - destruct (isActive (this rt)) eqn:Hact.
    + by rewrite start_active.
    + rewrite start_inactive by done. by split.
  - by apply (stable_stop has_servers).
  - by apply (stable_broadcast Any JSON_stringify has_servers).
  - unfold bind at 1. cbn [fst snd fresh]. unfold bind at 1, modify at 1.
    cbn [fst snd].
    by apply (stable_emit JSON_parse has_servers (fun _ => True)).
  - done.
  - by apply (stable_emit JSON_parse has_servers (fun _ => True)).
  - by apply (stable_emit JSON_parse has_servers (fun _ => True)).
  - by apply (stable_emit JSON_parse has_servers (fun _ => True)).
  - by apply (stable_emit JSON_parse has_servers (fun _ => True)).
Qed.

Lemma idle_after rt more : idle rt -> idle (after rt more).
Proof. done. Qed.

Lemma idle_listen rt l :
  closure_event (closure l) <> Ev_listening ->
  idle rt -> idle (with_listeners (fun ls => ls ++ [l]) rt).
Proof.
  intros Hl [H1 H2]. split; [done|]. simpl. apply Forall_app. split; [done|].
  by apply Forall_singleton.
Qed.

Ltac idle_keeps :=
  repeat first
    [ apply keeps_ret | apply keeps_gets
    | apply keeps_perform; intros ? ?; apply idle_after
    | apply keeps_bind; [|intros ?]
    | apply keeps_modify; intros ? ?; first [ assumption | apply idle_listen; [|assumption] ]
    | match goal with
      | |- keeps _ (match ?x with _ => _ end) => destruct x
      | |- keeps _ (set_isActive false) => intros ? [? ?]; by split
      | |- keeps _ (update_connectedClients _) => intros ? ?; assumption
      end ].

Section IdleEvents.

Variable reemit : Id -> EventName -> Arg -> M unit.
Hypothesis idle_reemit :
  forall w name arg, name <> Ev_listening -> keeps idle (reemit w name arg).

Lemma idle_call_with c arg :
  closure_event c <> Ev_listening -> keeps idle (call_with JSON_parse reemit c arg).
Proof.
  intros Hc. destruct c; try (by destruct Hc).
  - destruct arg; simpl; try apply keeps_ret.
    unfold on_connection, console_log, add_listener. idle_keeps; by simpl.
  - destruct arg; simpl; try apply keeps_ret.
    apply keeps_try_catch.
    + apply keeps_only_effects; [apply idle_after | apply on_message_only_effects].
    + intros e. apply keeps_perform. apply idle_after.
  - simpl. unfold on_close, console_log. destruct arg; idle_keeps.
  - destruct arg; simpl; try apply keeps_ret.
    unfold on_error, console_error. idle_keeps.
  - destruct arg; simpl; try apply keeps_ret.
    unfold server_error_handler, reject, settle. idle_keeps.
  - unfold call_with, wss_close_callback, add_listener, resolve, settle.
    destruct arg; idle_keeps; by simpl.
  - unfold call_with, server_close_callback, console_log, resolve, settle.
    destruct arg; idle_keeps.
  - simpl. by apply idle_reemit.
Qed.

Lemma idle_call_all_with ls arg :
  Forall (fun l => closure_event (closure l) <> Ev_listening) ls ->
  keeps idle (call_all_with JSON_parse reemit ls arg).
Proof.
  induction 1 as [|l ls Hl _ IH]; simpl; [apply keeps_ret|].
  apply keeps_bind; [by apply idle_call_with | by intros _].
Qed.

Lemma idle_emit_with target name arg :
  keeps idle (emit_with JSON_parse reemit target name arg).
Proof.
  apply keeps_emit_with. intros rt H.
  unfold run_listeners_with, bind at 1, gets at 1. cbn [fst snd].
  unfold bind at 1, modify at 1. cbn [fst snd].
  apply idle_call_all_with.
  - apply Forall_List_filter. by destruct H.
  - destruct H as [H1 H2]. split; [done|]. by apply Forall_List_filter.
Qed.

End IdleEvents.

Lemma idle_emit target name arg : keeps idle (emit JSON_parse target name arg).
Proof.
  apply idle_emit_with. intros w name' arg' _.
  apply idle_emit_with. intros. apply keeps_ret.
Qed.

Lemma equipped_step i rt :
  equipped rt -> equipped (step JSON_parse Any JSON_stringify i rt).
Proof.
  intros [H|H]; [left; by apply has_servers_step|].
  destruct i; simpl.
  - left. destruct H as [Hact _]. rewrite start_inactive by done. by split.
  - right. destruct H as [Hact Hl]. by rewrite stop_inactive.
  - right. apply (stable_broadcast Any JSON_stringify idle); try done.
  - right. unfold bind at 1. cbn [fst snd fresh]. unfold bind at 1, modify at 1.
    cbn [fst snd]. by apply idle_emit.
  - by right.
  - right. by apply idle_emit.
  - right. by apply idle_emit.
  - right. by apply idle_emit.
  - right. by apply idle_emit.
Qed.

Lemma equipped_run inputs rt :
  equipped rt -> equipped (run JSON_parse Any JSON_stringify inputs rt).
Proof.
  revert rt. induction inputs as [|i inputs IH]; intros rt H; [done|].
  simpl. apply IH. by apply equipped_step.
Qed.

End Equipped.

(** X13.  In every state the service can reach, a running service has
    its WebSocket server: [stop] never takes its fallback branches, but
    asks the WebSocket server to close and hands back a promise that is
    still pending, with [isRunning] still [true] and the registry
    untouched, when the call returns. *)
Theorem stop_of_a_running_service_waits_for_the_close_callbacks
    (JSON_parse : string -> completion JSON) (Any : Type)
    (JSON_stringify : Any -> completion Data) inputs socks :
  let rt := run JSON_parse Any JSON_stringify inputs (initial socks) in
  isRunning (this rt) = true ->
  exists s w,
    server (this rt) = Some s /\ wss (this rt) = Some w /\
    (stop rt).1 = Normal (ReturnedPromise (next_id rt)) /\
    promises (stop rt).2 !! next_id rt = Some Pending /\
    effects (stop rt).2 = effects rt ++ [WssClose w] /\
    this (stop rt).2 = this rt.
Proof.
  intros rt Hrun.
  assert (He : equipped rt).
  { apply equipped_run. right. split; [done | constructor]. }
  destruct He as [[[s Hs] [w Hw]] | [Hact _]].
  - exists s, w. rewrite (stop_active rt w) by done. simpl.
    repeat split; try done. apply lookup_insert_eq.
  - unfold isRunning in Hrun. congruence.
Qed.

Lemma stop_of_a_running_service_waits_for_the_close_callbacks_witness :
  let rt := run Demo.parse string Demo.stringify
              [Call_start; Emit_listening 0; Accept 1 Demo.open_socket]
              (initial (fun _ => Demo.open_socket)) in
  exists s w,
    server (this rt) = Some s /\ wss (this rt) = Some w /\
    (stop rt).1 = Normal (ReturnedPromise (next_id rt)) /\
    promises (stop rt).2 !! next_id rt = Some Pending /\
    effects (stop rt).2 = effects rt ++ [WssClose w] /\
    this (stop rt).2 = this rt.
Proof.
  intros rt.
  assert (Hrun : isRunning (this rt) = true).
  { vm_compute. reflexivity. }
  exact (stop_of_a_running_service_waits_for_the_close_callbacks Demo.parse string
           Demo.stringify [Call_start; Emit_listening 0; Accept 1 Demo.open_socket]
           (fun _ => Demo.open_socket) Hrun).
Defined.

(** ** Two overlapping calls of [start] *)

Lemma start_twice rt :
  isActive (this rt) = false ->
  let s1 := next_id rt in
  let p1 := S (S s1) in
  let s2 := S p1 in
  let p2 := S (S s2) in
  (start (start rt).2).2 =
    mkRuntime
      (mkService (Some s2) (Some (S s2)) (port (this rt)) false (connectedClients (this rt)))
      (S p2)
      (listeners rt ++
         [mkListener s1 Ev_listening false (ReEmit (S s1) Ev_listening);
          mkListener s1 Ev_error false (ReEmit (S s1) Ev_error);
          mkListener (S s1) Ev_connection false OnConnection;
          mkListener s1 Ev_listening true (ListenCallback p1);
          mkListener s1 Ev_error false (ServerErrorHandler p1);
          mkListener s2 Ev_listening false (ReEmit (S s2) Ev_listening);
          mkListener s2 Ev_error false (ReEmit (S s2) Ev_error);
          mkListener (S s2) Ev_connection false OnConnection;
          mkListener s2 Ev_listening true (ListenCallback p2);
          mkListener s2 Ev_error false (ServerErrorHandler p2)])
      (<[p2 := Pending]> (<[p1 := Pending]> (promises rt)))
      (sockets rt)
      (effects rt ++ [Listen s1 (port (this rt)); Listen s2 (port (this rt))]).
Proof.
  intros Hact s1 p1 s2 p2. rewrite (start_inactive rt) by done. cbn [snd].
  rewrite start_inactive by done. cbn [snd this next_id listeners promises sockets effects
    port isActive connectedClients].
  rewrite Hact. by rewrite <- !app_assoc.
Qed.

Lemma start_twice_then_listening (JSON_parse : string -> completion JSON) (Any : Type)
    (JSON_stringify : Any -> completion Data) rt :
  wf rt ->
  isActive (this rt) = false ->
  let s1 := next_id rt in
  let p1 := S (S s1) in
  let s2 := S p1 in
  let p2 := S (S s2) in
  run JSON_parse Any JSON_stringify [Call_start; Call_start; Emit_listening s1] rt =
    mkRuntime
      (mkService (Some s2) (Some (S s2)) (port (this rt)) true (connectedClients (this rt)))
      (S p2)
      (listeners rt ++
         [mkListener s1 Ev_listening false (ReEmit (S s1) Ev_listening);
          mkListener s1 Ev_error false (ReEmit (S s1) Ev_error);
          mkListener (S s1) Ev_connection false OnConnection;
          mkListener s1 Ev_error false (ServerErrorHandler p1);
          mkListener s2 Ev_listening false (ReEmit (S s2) Ev_listening);
          mkListener s2 Ev_error false (ReEmit (S s2) Ev_error);
          mkListener (S s2) Ev_connection false OnConnection;
          mkListener s2 Ev_listening true (ListenCallback p2);
          mkListener s2 Ev_error false (ServerErrorHandler p2)])
      (<[p1 := Fulfilled]> (<[p2 := Pending]> (<[p1 := Pending]> (promises rt))))
      (sockets rt)
      (effects rt ++
         [Listen s1 (port (this rt)); Listen s2 (port (this rt));
          ConsoleLog ("WebSocket server started on port " ++ pretty (port (this rt)))]).
Proof.
  intros Hwf Hact s1 p1 s2 p2. cbn [run fold_left step].
  rewrite start_twice by done. fold s1 p1 s2 p2.
  rewrite emit_goes by done.
  assert (Hold := listeners_below rt Hwf). fold s1 in Hold.
  unfold with_listeners. cbn [listeners this next_id promises sockets effects].
  rewrite !List.filter_app, (no_listener_on_fresh s1 Ev_listening) by done.
  rewrite (keep_when_none_listens s1 Ev_listening (listeners rt))
    by (by apply no_listener_on_fresh).
  unfold listens. cbn [List.filter emitter event once]. subst s2 p1. eqb_lia.
  cbn [andb negb EventName_eqb app]. unfold call_all. cbn [call_all_with closure call_with].
  unfold bind at 1. rewrite emit_on_wss_nobody; [|done|].
  2:{ cbn [listeners].
      rewrite List.filter_app, (no_listener_above s1 (S s1) Ev_listening) by (done || lia).
      unfold listens. cbn [List.filter emitter event once]. eqb_lia. reflexivity. }
  unfold bind at 1. unfold listen_callback, bind, set_isActive, modify, gets, console_log,
    resolve. cbn [fst snd this port with_this]. rewrite perform_after.
  rewrite settle_pending.
  2:{ simpl. rewrite lookup_insert_ne by (subst p2; lia). apply lookup_insert_eq. }
  unfold with_promises, after, with_effects. simpl. by rewrite <- app_assoc.
Qed.

(** X14.  When [start] is called a second time before the first call's
    server listens, the second call overwrites [this.server] and
    [this.wss].  Once the first server listens the service is running;
    [stop] then closes the servers of the second call, and the server of
    the first call, the one that listens, is never asked to close. *)
Theorem stop_after_overlapping_starts_closes_the_second_server
    (JSON_parse : string -> completion JSON) (Any : Type)
    (JSON_stringify : Any -> completion Data) rt :
  wf rt ->
  isActive (this rt) = false ->
  let s1 := next_id rt in
  let w1 := S s1 in
  let s2 := S (S w1) in
  let w2 := S s2 in
  let rt3 := run JSON_parse Any JSON_stringify
               [Call_start; Call_start; Emit_listening s1] rt in
  let rt6 := run JSON_parse Any JSON_stringify
               [Call_stop; Emit_close w2; Emit_close s2] rt3 in
  isRunning (this rt3) = true /\
  server (this rt3) = Some s2 /\ wss (this rt3) = Some w2 /\
  isRunning (this rt6) = false /\
  effects rt6 =
    effects rt ++
      [Listen s1 (getPort (this rt)); Listen s2 (getPort (this rt));
       ConsoleLog ("WebSocket server started on port " ++ pretty (getPort (this rt)));
       WssClose w2; ServerClose s2; ConsoleLog "WebSocket server stopped"] /\
  (ServerClose s1 ∉ drop (length (effects rt)) (effects rt6)) /\
  (WssClose w1 ∉ drop (length (effects rt)) (effects rt6)).
Proof.
  intros Hwf Hact s1 w1 s2 w2 rt3 rt6.
  assert (E3 := start_twice_then_listening JSON_parse Any JSON_stringify rt Hwf Hact).
  cbv zeta in E3. fold s1 w1 s2 w2 in E3.
  assert (Hold := listeners_below rt Hwf). fold s1 in Hold.
  assert (Hnone : forall t, s1 <= t ->
    List.filter (listens t Ev_close) (listeners rt3) = []).
  { intros t Ht. subst rt3. rewrite E3. cbn [listeners]. rewrite List.filter_app.
    rewrite (no_listener_on_fresh t Ev_close).
    2:{ eapply Forall_impl; [exact Hold|]. simpl. lia. }
    unfold listens. cbn [List.filter emitter event once EventName_eqb].
    by rewrite !andb_false_r. }
  assert (E6 : rt6 =
    mkRuntime
      (mkService (Some s2) (Some w2) (port (this rt3)) false [])
      (S (next_id rt3)) (List.filter (fun l => negb (reemits_for w2 l)) (listeners rt3))
      (<[next_id rt3 := Fulfilled]> (promises rt3)) (sockets rt3)
      (effects rt3 ++ [WssClose w2; ServerClose s2; ConsoleLog "WebSocket server stopped"])).
  { subst rt6. apply stop_then_closed.
    - subst rt3. by rewrite E3.
    - subst rt3. by rewrite E3.
    - subst rt3. by rewrite E3.
    - apply Hnone. subst w2 s2 w1. lia.
    - apply Hnone. subst s2 w1. lia. }
  assert (Eeff : effects rt6 =
    effects rt ++
      [Listen s1 (getPort (this rt)); Listen s2 (getPort (this rt));
       ConsoleLog ("WebSocket server started on port " ++ pretty (getPort (this rt)));
       WssClose w2; ServerClose s2; ConsoleLog "WebSocket server stopped"]).
  { rewrite E6. cbn [effects]. subst rt3. rewrite E3. cbn [effects].
    by rewrite <- app_assoc. }
  split; [subst rt3; by rewrite E3|].
  split; [subst rt3; by rewrite E3|].
  split; [subst rt3; by rewrite E3|].
  split; [by rewrite E6|]. split; [exact Eeff|].
  rewrite Eeff, drop_app_length.
  split; intros Hin;
    repeat (apply elem_of_cons in Hin as [Hin|Hin];
            [first [discriminate | injection Hin; subst s2 w2 w1; lia]|]);
    by apply elem_of_nil in Hin.
Qed.

Lemma stop_after_overlapping_starts_closes_the_second_server_witness :
  let rt6 := run Demo.parse string Demo.stringify
               [Call_stop; Emit_close 4; Emit_close 3]
               (run Demo.parse string Demo.stringify
                  [Call_start; Call_start; Emit_listening 0] Demo.boot) in
  isRunning (this rt6) = false /\
  effects rt6 =
    [Listen 0 3001; Listen 3 3001; ConsoleLog "WebSocket server started on port 3001";
     WssClose 4; ServerClose 3; ConsoleLog "WebSocket server stopped"].
Proof.
  intros rt6.
  destruct (stop_after_overlapping_starts_closes_the_second_server Demo.parse string
              Demo.stringify Demo.boot (wf_initial _) eq_refl)
    as (_ & _ & _ & H4 & H5 & _).
  split; [exact H4 | exact H5].
Defined.

(** ** [broadcast] on the states the service reaches *)

Lemma reached_not_send_fails rt c : reached rt c = true -> send_fails rt c = false.
Proof.
  unfold reached, send_fails. destruct (is_open rt c); [|done].
  by destruct (send_throws (sockets rt c)).
Qed.

Lemma broadcast_effect_when_none_fails rt d clients :
  (forall c, c ∈ clients -> send_fails rt c = false) ->
  forall e, ConsoleError "Error sending message to client:" e ∉
            flat_map (broadcast_effect rt d) clients.
Proof.
  intros Hall e Hin. apply list_elem_of_In, in_flat_map in Hin as (c & Hc & Hin).
  apply list_elem_of_In in Hc. specialize (Hall c Hc).
  unfold broadcast_effect, send_fails in *.
  destruct (is_open rt c); [|by destruct Hin].
  destruct (send_throws (sockets rt c)); [done|].
  by destruct Hin as [Hin|[]].
Qed.

(** X15.  In every state the service reaches, [broadcast] of a payload
    that serializes returns normally and leaves in the registry exactly
    the clients whose [send] did not throw.  While the sockets stay as
    they are, a second [broadcast] reaches the same clients as the first,
    removes nobody and logs no send error. *)
Theorem second_broadcast_removes_nobody
    (JSON_parse : string -> completion JSON) (Any : Type)
    (JSON_stringify : Any -> completion Data) inputs socks message1 message2 d1 d2 :
  JSON_stringify message1 = Normal d1 ->
  JSON_stringify message2 = Normal d2 ->
  let rt := run JSON_parse Any JSON_stringify inputs (initial socks) in
  let rt1 := step JSON_parse Any JSON_stringify (Call_broadcast message1) rt in
  let rt2 := step JSON_parse Any JSON_stringify (Call_broadcast message2) rt1 in
  broadcast Any JSON_stringify message1 rt = (Normal tt, rt1) /\
  connectedClients (this rt1) =
    filter (fun c => send_fails rt c = false) (connectedClients (this rt)) /\
  broadcast Any JSON_stringify message2 rt1 = (Normal tt, rt2) /\
  connectedClients (this rt2) = connectedClients (this rt1) /\
  map fst (deliveries (drop (length (effects rt1)) (effects rt2))) =
    map fst (deliveries (drop (length (effects rt)) (effects rt1))) /\
  (forall e, ConsoleError "Error sending message to client:" e ∉
             drop (length (effects rt1)) (effects rt2)).
Proof.
  intros Hd1 Hd2 rt rt1 rt2.
  assert (Hwf : wf rt) by apply wf_run, wf_initial.
  assert (Hnd := bounded_nodup _ _ Hwf).
  assert (E1 := broadcast_spec Any JSON_stringify message1 d1 rt Hd1 Hnd).
  assert (R1 : rt1 = after (set_clients (filter (fun c => send_fails rt c = false)
                                                (connectedClients (this rt))) rt)
                           (flat_map (broadcast_effect rt d1) (connectedClients (this rt)))).
  { subst rt1. cbn [step]. by rewrite E1. }
  assert (Hreg1 : connectedClients (this rt1) =
                  filter (fun c => send_fails rt c = false) (connectedClients (this rt))).
  { by rewrite R1. }
  assert (Hnd1 : NoDup (connectedClients (this rt1))).
  { rewrite Hreg1. by apply NoDup_filter. }
  assert (Hsock : sockets rt1 = sockets rt) by (by rewrite R1).
  assert (Hfails : forall c, send_fails rt1 c = send_fails rt c).
  { intros c. unfold send_fails, is_open. by rewrite Hsock. }
  assert (Hreached : forall c, reached rt1 c = reached rt c).
  { intros c. unfold reached, is_open. by rewrite Hsock. }
  assert (Hall : forall c, c ∈ connectedClients (this rt1) -> send_fails rt1 c = false).
  { intros c Hc. rewrite Hreg1 in Hc. apply list_elem_of_filter in Hc as [Hc _].
    by rewrite Hfails. }
  assert (E2 := broadcast_spec Any JSON_stringify message2 d2 rt1 Hd2 Hnd1).
  assert (R2 : rt2 = after (set_clients (filter (fun c => send_fails rt1 c = false)
                                                (connectedClients (this rt1))) rt1)
                           (flat_map (broadcast_effect rt1 d2) (connectedClients (this rt1)))).
  { subst rt2. cbn [step]. by rewrite E2. }
  split; [by rewrite E1, R1|]. split; [exact Hreg1|].
  split; [by rewrite E2, R2|]. split.
  { rewrite R2. cbn. by apply filter_all. }
  assert (Hdrop2 : drop (length (effects rt1)) (effects rt2) =
                   flat_map (broadcast_effect rt1 d2) (connectedClients (this rt1))).
  { rewrite R2, effects_after. by rewrite drop_app_length. }
  assert (Hdrop1 : drop (length (effects rt)) (effects rt1) =
                   flat_map (broadcast_effect rt d1) (connectedClients (this rt))).
  { rewrite R1, effects_after. by rewrite drop_app_length. }
  split.
  - rewrite Hdrop1, Hdrop2, !deliveries_broadcast, !map_map. cbn [fst].
    rewrite !map_id, Hreg1.
    rewrite (list_filter_filter _ _ (connectedClients (this rt))).
    apply list_filter_iff. intros c. rewrite Hreached. split; [tauto|].
    intros Hr. split; [done|]. by apply reached_not_send_fails.
  - intros e. rewrite Hdrop2. by apply broadcast_effect_when_none_fails.
Qed.

Lemma second_broadcast_removes_nobody_witness :
  let rt := run Demo.parse string Demo.stringify
              [Call_start; Emit_listening 0; Accept 1 Demo.open_socket;
               Accept 1 Demo.broken_socket]
              (initial (fun _ => Demo.open_socket)) in
  let rt1 := step Demo.parse string Demo.stringify (Call_broadcast "x") rt in
  let rt2 := step Demo.parse string Demo.stringify (Call_broadcast "y") rt1 in
  connectedClients (this rt) = [3; 4] /\
  connectedClients (this rt1) = [3] /\
  connectedClients (this rt2) = connectedClients (this rt1).
Proof.
  intros rt rt1 rt2.
  destruct (second_broadcast_removes_nobody Demo.parse string Demo.stringify
              [Call_start; Emit_listening 0; Accept 1 Demo.open_socket;
               Accept 1 Demo.broken_socket]
              (fun _ => Demo.open_socket) "x" "y" (Some (quote "x")) (Some (quote "y"))
              eq_refl eq_refl)
    as (_ & _ & _ & H4 & _).
  split; [vm_compute; reflexivity|]. split; [vm_compute; reflexivity|]. exact H4.
Defined.

(** X16.  A payload that [JSON.stringify] rejects makes [broadcast]
    throw that error to its caller before any client is looked at:
    nothing is sent, nothing is logged, and the registry keeps every
    client, also those whose [send] would have thrown. *)
Theorem broadcast_of_unserializable_payload_contacts_nobody
    (JSON_parse : string -> completion JSON) (Any : Type)
    (JSON_stringify : Any -> completion Data) message e rt :
  JSON_stringify message = Throw e ->
  (broadcast Any JSON_stringify message rt).1 = Throw e /\
  step JSON_parse Any JSON_stringify (Call_broadcast message) rt = rt /\
  deliveries (drop (length (effects rt))
                   (effects (broadcast Any JSON_stringify message rt).2)) = [] /\
  (forall c, send_fails rt c = true -> c ∈ connectedClients (this rt) ->
     c ∈ connectedClients (this (broadcast Any JSON_stringify message rt).2)).
Proof.
  intros Hd. cbn [step]. rewrite (broadcast_throws Any JSON_stringify message e rt Hd).
  cbn [fst snd]. rewrite drop_all. by repeat split.
Qed.

Lemma broadcast_of_unserializable_payload_contacts_nobody_witness :
  let rt := run Demo.parse string Edge.stringify_short
              [Call_start; Emit_listening 0; Accept 1 Demo.broken_socket]
              (initial (fun _ => Demo.open_socket)) in
  (broadcast string Edge.stringify_short "a cyclic object" rt).1 =
    Throw (TypeError "Converting circular structure to JSON") /\
  step Demo.parse string Edge.stringify_short (Call_broadcast "a cyclic object") rt = rt.
Proof.
  intros rt.
  destruct (broadcast_of_unserializable_payload_contacts_nobody Demo.parse string
              Edge.stringify_short "a cyclic object"
              (TypeError "Converting circular structure to JSON") rt eq_refl)
    as (H1 & H2 & _).
  split; [exact H1 | exact H2].
Defined.

(** ** The contribution *)

Section ContributionFacts.

Variable JSON_parse : string -> completion JSON.
Variable Any : Type.
Variable JSON_stringify : Any -> completion Data.









End ContributionFacts.


Lemma new_WebSocketContribution_waits socks :
  new_WebSocketContribution socks = mkContribution (start (initial socks)).2 [] (Some 2).
Proof. vm_compute. reflexivity. Qed.

Lemma waiting_contribution_ignores_error (JSON_parse : string -> completion JSON)
    (Any : Type) (JSON_stringify : Any -> completion Data) rt e :
  wf rt ->
  isActive (this rt) = false ->
  let c := mkContribution (start rt).2 [] (Some (S (S (next_id rt)))) in
  contribution_step JSON_parse Any JSON_stringify (Emit_error (next_id rt) e) c = c.
Proof.
  intros Hwf Hact c. subst c. unfold contribution_step.
  cbn [websocketService _disposables suspended step].
  rewrite (start_then_error JSON_parse rt e Hwf Hact).
  cbn [snd]. unfold wake. cbn [suspended websocketService].
  match goal with
  | |- match ?l with _ => _ end = _ => destruct l as [[| |e']|] eqn:Hp
  end; try reflexivity.
  - rewrite start_inactive in Hp by done. cbn [snd promises] in Hp.
    rewrite lookup_insert_eq in Hp. discriminate.
  - rewrite start_inactive in Hp by done. cbn [snd promises] in Hp.
    rewrite lookup_insert_eq in Hp. discriminate.
Qed.

(** X18.  When the port cannot be bound the contribution is told
    nothing.  The server's ['error'] event is thrown by the [emit] of
    the WebSocket server before the handler of [start] is reached, so
    the promise that [startWebSocketServer] awaits stays pending:
    neither the line after the [await] nor the [catch] runs.  However
    often the server emits ['error'], nothing is logged, nothing is
    registered for disposal, and the method stays suspended. *)
Theorem failed_bind_leaves_the_contribution_waiting
    (JSON_parse : string -> completion JSON) (Any : Type)
    (JSON_stringify : Any -> completion Data) socks errors :
  let c := contribution_run JSON_parse Any JSON_stringify (map (Emit_error 0) errors)
             (new_WebSocketContribution socks) in
  effects (websocketService c) = [Listen 0 3001] /\
  _disposables c = [] /\
  suspended c = Some 2 /\
  promises (websocketService c) !! 2 = Some Pending /\
  isRunning (this (websocketService c)) = false.
Proof.
  intros c.
  assert (Hc : c = mkContribution (start (initial socks)).2 [] (Some 2)).
  { assert (Hstep : forall e,
      contribution_step JSON_parse Any JSON_stringify (Emit_error 0 e)
        (mkContribution (start (initial socks)).2 [] (Some 2)) =
      mkContribution (start (initial socks)).2 [] (Some 2)).
    { intros e.
      exact (waiting_contribution_ignores_error JSON_parse Any JSON_stringify
               (initial socks) e (wf_initial socks) eq_refl). }
    subst c. rewrite new_WebSocketContribution_waits. unfold contribution_run.
    induction errors as [|e errors IH]; [reflexivity|].
    cbn [map fold_left]. rewrite Hstep. exact IH. }
  rewrite Hc. cbn [websocketService _disposables suspended].
  repeat split; vm_compute; reflexivity.
Qed.

(** X19.  When the server listens, the service logs its line, then the
    contribution logs its own with the port of [getPort] and registers
    the disposable.  Disposing it calls [stop] on that service: the
    WebSocket server is asked to close, and after both close callbacks
    the service is stopped. *)
Theorem disposing_the_contribution_stops_its_service
    (JSON_parse : string -> completion JSON) (Any : Type)
    (JSON_stringify : Any -> completion Data) socks :
  let c := contribution_run JSON_parse Any JSON_stringify [Emit_listening 0]
             (new_WebSocketContribution socks) in
  let disposed := dispose StopService (websocketService c) in
  let rt := run JSON_parse Any JSON_stringify [Emit_close 1; Emit_close 0] disposed.2 in
  effects (websocketService c) =
    [Listen 0 3001; ConsoleLog "WebSocket server started on port 3001";
     ConsoleLog "Copilot Chat WebSocket server started on port 3001"] /\
  _disposables c = [StopService] /\
  isRunning (this (websocketService c)) = true /\
  disposed.1 = Normal tt /\
  effects disposed.2 = effects (websocketService c) ++ [WssClose 1] /\
  isRunning (this disposed.2) = true /\
  isRunning (this rt) = false /\
  effects rt = effects disposed.2 ++ [ServerClose 0; ConsoleLog "WebSocket server stopped"].
Proof. by vm_compute. Qed.
